(** Judgify backend (Express API): a shallow embedding of the helpers and
    the three request handlers, and the properties of the structured
    extraction protocol, the gallery harvester and the scoring flow. *)

From Stdlib Require Import String Ascii ZArith NArith List Bool Lia.
From Stdlib Require Import Permutation Sorted DecimalString.
From Stdlib Require Import Floats.
Import ListNotations.
Open Scope Z_scope.
Set Warnings "-register-all,-inexact-float,-abstract-large-number".

(** * Strings

    A JavaScript string is a sequence of UTF-16 code units; lengths and
    indices count code units. *)

Module JsString.

Definition char := N.
Definition jsstring := list char.

(** A literal of ASCII characters as a string of the program. *)
Definition str (s : string) : jsstring :=
  map N_of_ascii (list_ascii_of_string s).

(** The white space and line terminators of the language: what [\s]
    matches and what [trim] strips. *)
Definition is_space (c : char) : bool :=
  ((9 <=? c) && (c <=? 13) || (c =? 32) || (c =? 160) || (c =? 5760)
   || (8192 <=? c) && (c <=? 8202) || (c =? 8232) || (c =? 8233)
   || (c =? 8239) || (c =? 8287) || (c =? 12288) || (c =? 65279))%N.

Fixpoint drop_while (p : char -> bool) (s : jsstring) : jsstring :=
  match s with
  | [] => []
  | c :: s' => if p c then drop_while p s' else s
  end.

(** [s.trim()] *)
Definition trim (s : jsstring) : jsstring :=
  rev (drop_while is_space (rev (drop_while is_space s))).

(** The case folding of a pattern with the [i] flag, on the ASCII letters;
    the literals of the source's patterns are ASCII, and no code unit
    beyond ASCII folds to an ASCII one. *)
Definition upper (c : char) : char :=
  if ((97 <=? c) && (c <=? 122))%N then (c - 32)%N else c.

Definition chr_eq (ignore_case : bool) (c d : char) : bool :=
  if ignore_case then (upper c =? upper d)%N else (c =? d)%N.

(** [s.startsWith(pat)] *)
Fixpoint starts_with (pat s : jsstring) : bool :=
  match pat, s with
  | [], _ => true
  | _ :: _, [] => false
  | p :: pat', c :: s' => (p =? c)%N && starts_with pat' s'
  end.

Fixpoint indexOf_from (pat s : jsstring) (i : Z) : Z :=
  if starts_with pat s then i
  else match s with
       | [] => -1
       | _ :: s' => indexOf_from pat s' (i + 1)
       end.

(** [s.indexOf(pat)]: the first index at which [pat] occurs, or -1. *)
Definition indexOf (s pat : jsstring) : Z := indexOf_from pat s 0.

Fixpoint lastIndexOf_from (pat s : jsstring) (i acc : Z) : Z :=
  let acc' := if starts_with pat s then i else acc in
  match s with
  | [] => acc'
  | _ :: s' => lastIndexOf_from pat s' (i + 1) acc'
  end.

(** [s.lastIndexOf(pat)]: the last index at which [pat] occurs, or -1. *)
Definition lastIndexOf (s pat : jsstring) : Z := lastIndexOf_from pat s 0 (-1).

(** [s.includes(pat)] *)
Definition includes (s pat : jsstring) : bool :=
  negb (indexOf s pat =? -1).

(** Equality of strings, as [===] and as the keys of a [Map]. *)
Fixpoint jseqb (a b : jsstring) : bool :=
  match a, b with
  | [], [] => true
  | c :: a', d :: b' => (c =? d)%N && jseqb a' b'
  | _, _ => false
  end.

(** Concatenation with a separator, as [Array.prototype.join]. *)
Fixpoint join (sep : jsstring) (l : list jsstring) : jsstring :=
  match l with
  | [] => []
  | [s] => s
  | s :: l' => s ++ sep ++ join sep l'
  end.

(** Decimal rendering of a natural number. *)
Definition dec (n : N) : jsstring := str (NilEmpty.string_of_uint (N.to_uint n)).

(** [s.slice(a, b)]: negative arguments count from the end, both are
    clamped to the string, and a crossed range is empty. *)
Definition slice (s : jsstring) (a b : Z) : jsstring :=
  let len := Z.of_nat (length s) in
  let from := if a <? 0 then Z.max (len + a) 0 else Z.min a len in
  let to := if b <? 0 then Z.max (len + b) 0 else Z.min b len in
  firstn (Z.to_nat (to - from)) (skipn (Z.to_nat from) s).

End JsString.
Import JsString.


(** * Regular expressions

    The patterns of the source, matched as the language matches them: by
    backtracking, each construct passing what it has consumed to a
    continuation for the rest of the pattern.  A match is tried at each
    start position from the left; the first success wins. *)

Module Regex.

Inductive regex :=
| Eps
| Chr (c : char)
| Cls (p : char -> bool)
| Seq (r1 r2 : regex)
| Alt (r1 r2 : regex)
| Star (greedy : bool) (r : regex)
| Group (n : nat) (r : regex).

(** The input still ahead and the groups captured so far. *)
Record mstate := { rest : jsstring; caps : list (nat * jsstring) }.

Definition advance (x : mstate) (s : jsstring) : mstate :=
  {| rest := s; caps := caps x |}.

Definition set_cap (n : nat) (v : jsstring) (x : mstate) : mstate :=
  {| rest := rest x; caps := (n, v) :: caps x |}.

Definition consumed (from to : jsstring) : jsstring :=
  firstn (length from - length to) from.

Definition orelse {A} (a b : option A) : option A :=
  match a with Some _ => a | None => b end.

Definition cont := mstate -> option mstate.

(** An iteration of a star must consume input. *)
Definition progress (x y : mstate) : bool :=
  (length (rest y) <? length (rest x))%nat.

(** [r*] and [r*?]: greedy tries one more iteration first, lazy tries
    the rest of the pattern first.  [n] bounds the iterations by the
    length of the input ahead. *)
Fixpoint star_loop (greedy : bool) (m : cont -> cont) (k : cont)
  (n : nat) (x : mstate) {struct n} : option mstate :=
  match n with
  | O => k x
  | S n' =>
      let again :=
        m (fun y => if progress x y then star_loop greedy m k n' y else None) x in
      if greedy then orelse again (k x) else orelse (k x) again
  end.

Fixpoint rmatch (ic : bool) (r : regex) (k : cont) (x : mstate) {struct r}
  : option mstate :=
  match r with
  | Eps => k x
  | Chr c =>
      match rest x with
      | d :: s' => if chr_eq ic c d then k (advance x s') else None
      | [] => None
      end
  | Cls p =>
      match rest x with
      | d :: s' => if p d then k (advance x s') else None
      | [] => None
      end
  | Seq r1 r2 => rmatch ic r1 (rmatch ic r2 k) x
  | Alt r1 r2 => orelse (rmatch ic r1 k x) (rmatch ic r2 k x)
  | Star greedy r' => star_loop greedy (rmatch ic r') k (length (rest x)) x
  | Group n r' =>
      rmatch ic r' (fun y => k (set_cap n (consumed (rest x) (rest y)) y)) x
  end.

(** A run of literal characters; [r+]. *)
Definition Lit (s : jsstring) : regex :=
  fold_right (fun c r => Seq (Chr c) r) Eps s.
Definition Plus (greedy : bool) (r : regex) : regex := Seq r (Star greedy r).

Record match_result := {
  m_index : nat;
  m_whole : jsstring;
  m_caps : list (nat * jsstring);
  m_rest : jsstring
}.

Fixpoint exec_from (ic : bool) (r : regex) (s : jsstring) (i : nat)
  : option match_result :=
  match rmatch ic r Some {| rest := s; caps := [] |} with
  | Some y =>
      Some {| m_index := i; m_whole := consumed s (rest y);
              m_caps := caps y; m_rest := rest y |}
  | None => match s with
            | [] => None
            | _ :: s' => exec_from ic r s' (S i)
            end
  end.

(** [s.match(r)] for a pattern without the [g] flag; [ic] is the [i] flag. *)
Definition exec (ic : bool) (r : regex) (s : jsstring) := exec_from ic r s 0.

(** [r.test(s)] *)
Definition test (ic : bool) (r : regex) (s : jsstring) : bool :=
  match exec ic r s with Some _ => true | None => false end.

(** [s.replace(r, rep)] for a global pattern [r]; [skip] counts the code
    units of the current match still to be passed over. *)
Fixpoint replace_from (ic : bool) (r : regex) (rep s : jsstring) (skip : nat)
  : jsstring :=
  match skip with
  | S k => match s with
           | [] => []
           | _ :: s' => replace_from ic r rep s' k
           end
  | O =>
      match rmatch ic r Some {| rest := s; caps := [] |} with
      | Some y =>
          match (length s - length (rest y))%nat, s with
          | S k, _ :: s' => rep ++ replace_from ic r rep s' k
          | _, c :: s' => rep ++ c :: replace_from ic r rep s' O
          | _, [] => rep
          end
      | None =>
          match s with
          | [] => []
          | c :: s' => c :: replace_from ic r rep s' O
          end
      end
  end.

Definition replace_all (ic : bool) (r : regex) (rep s : jsstring) : jsstring :=
  replace_from ic r rep s O.

Fixpoint lookup_cap (n : nat) (l : list (nat * jsstring)) : option jsstring :=
  match l with
  | [] => None
  | (m, v) :: l' => if Nat.eqb n m then Some v else lookup_cap n l'
  end.

End Regex.
Import Regex.


(** * The structured-extraction decoder: [extractJson] *)

Definition backtick : char := 96%N.
Definition fence_open : jsstring := str "```json".
Definition fence_close : jsstring := str "```".

Definition any_char : regex := Cls (fun c => is_space c || negb (is_space c)).

(** The pattern [/```json\s*([\s\S]*?)```/i]. *)
Definition fence_re : regex :=
  Seq (Lit fence_open)
   (Seq (Star true (Cls is_space))
    (Seq (Group 1 (Star false any_char)) (Lit fence_close))).

(** [m[1]] is defined whenever the pattern matches: its group takes part
    in every match. *)
Definition extractJson (text : jsstring) : jsstring :=
  match exec true fence_re text with
  | Some m => match lookup_cap 1 (m_caps m) with Some v => v | None => [] end
  | None =>
      let a := indexOf text (str "{") in
      let b := lastIndexOf text (str "}") in
      if negb (a =? -1) && negb (b =? -1) then slice text a (b + 1)
      else text
  end.

(** Which of the three [return] statements of [extractJson] is taken. *)
Inductive rule := ByFence | ByBraces | ByRaw.

Definition extractJson_rule (text : jsstring) : rule :=
  match exec true fence_re text with
  | Some _ => ByFence
  | None =>
      let a := indexOf text (str "{") in
      let b := lastIndexOf text (str "}") in
      if negb (a =? -1) && negb (b =? -1) then ByBraces else ByRaw
  end.

(** ** Direct scanning functions used to characterise the pattern *)

(** [pat] at the head of [s], letter case aside when [ic] is set. *)
Fixpoint starts_with_ic (ic : bool) (pat s : jsstring) : bool :=
  match pat, s with
  | [], _ => true
  | _ :: _, [] => false
  | p :: pat', c :: s' => chr_eq ic p c && starts_with_ic ic pat' s'
  end.

(** Split at the first occurrence of [pat]. *)
Fixpoint split_at (pat s : jsstring) : option (jsstring * jsstring) :=
  if starts_with pat s then Some ([], skipn (length pat) s)
  else match s with
       | [] => None
       | c :: s' =>
           match split_at pat s' with
           | Some (b, a) => Some (c :: b, a)
           | None => None
           end
       end.

(** A match of the fence pattern starting at the head of [s]: the opener,
    the whitespace after it, then everything up to the first closing
    marker; the interior and what follows the closing marker. *)
Definition fence_at (s : jsstring) : option (jsstring * jsstring) :=
  if starts_with_ic true fence_open s
  then split_at fence_close (drop_while is_space (skipn (length fence_open) s))
  else None.

(** The interior of the leftmost match. *)
Fixpoint find_fence (s : jsstring) : option jsstring :=
  match fence_at s with
  | Some (b, _) => Some b
  | None => match s with
            | [] => None
            | _ :: s' => find_fence s'
            end
  end.

(** ** Declarative vocabulary *)

(** Equal code unit by code unit, letter case aside. *)
Definition ci_eq (a b : jsstring) : Prop :=
  Forall2 (fun c d => chr_eq true c d = true) a b.

(** [pat] occurs in [s]. *)
Definition substring (pat s : jsstring) : Prop :=
  exists pre post, s = pre ++ pat ++ post.

(** [text] holds a json fence: an opener, letter case aside, and a
    closing marker somewhere behind it. *)
Definition has_fence (text : jsstring) : Prop :=
  exists pre op mid post,
    text = pre ++ op ++ mid ++ fence_close ++ post /\ ci_eq fence_open op.

(** What the lazy and the greedy loop of the pattern amount to. *)
Fixpoint lazy_scan (k : cont) (cs : list (nat * jsstring)) (s : jsstring)
  : option mstate :=
  orelse (k {| rest := s; caps := cs |})
         (match s with [] => None | _ :: s' => lazy_scan k cs s' end).

Fixpoint greedy_scan (k : cont) (cs : list (nat * jsstring)) (s : jsstring)
  : option mstate :=
  match s with
  | d :: s' =>
      if is_space d
      then orelse (greedy_scan k cs s') (k {| rest := s; caps := cs |})
      else k {| rest := s; caps := cs |}
  | [] => k {| rest := []; caps := cs |}
  end.

(** The continuation behind the whitespace of the opener: the lazy group
    and the closing marker. *)
Definition close_k (y : mstate) : option mstate :=
  match split_at fence_close (rest y) with
  | Some (b, a) => Some {| rest := a; caps := (1%nat, b) :: caps y |}
  | None => None
  end.

Definition lbrace : char := 123%N.
Definition rbrace : char := 125%N.

(** [text] carries a json fence whose opener follows [pre], whose opening
    marker [op] is followed by the whitespace run [ws], and whose interior
    [body] runs up to the first closing marker after that run. *)
Definition fenced_at (text pre op ws body post : jsstring) : Prop :=
  text = pre ++ op ++ ws ++ body ++ fence_close ++ post /\
  ci_eq fence_open op /\
  Forall (fun c => is_space c = true) ws /\
  (forall c tl, body ++ fence_close ++ post = c :: tl -> is_space c = false) /\
  (forall b1 a1, body ++ fence_close ++ post = b1 ++ fence_close ++ a1 ->
                 (length body <= length b1)%nat).

(** No opening marker starts before the end of [pre]. *)
Definition first_opener (text pre : jsstring) : Prop :=
  forall pre' op' post',
    text = pre' ++ op' ++ post' -> ci_eq fence_open op' ->
    (length pre <= length pre')%nat.

(** * JavaScript values as far as the handlers meet them *)

Module JsValue.

(** Numbers are IEEE 754 binary64, as in the language. *)
Definition number := float.

Inductive json :=
| JNull
| JBool (b : bool)
| JNum (n : number)
| JStr (s : jsstring)
| JArr (l : list json)
| JObj (l : list (jsstring * json)).

(** A JSON value or [undefined]. *)
Inductive value :=
| Undefined
| V (j : json).

Definition is_nan (n : number) : bool := negb (n =? n)%float.

(** [!n] on a number: zero of either sign, or NaN. *)
Definition num_falsy (n : number) : bool := (n =? 0)%float || is_nan n.

Definition truthy (v : value) : bool :=
  match v with
  | Undefined | V JNull => false
  | V (JBool b) => b
  | V (JNum n) => negb (num_falsy n)
  | V (JStr s) => match s with [] => false | _ => true end
  | V (JArr _) | V (JObj _) => true
  end.

(** [a || b] *)
Definition js_or (a b : value) : value := if truthy a then a else b.

(** [n || 0] on numbers *)
Definition or_zero (n : number) : number := if num_falsy n then 0%float else n.

(** [s || ""] where [s] is a string or [undefined] *)
Definition or_empty (s : option jsstring) : jsstring :=
  match s with Some t => t | None => [] end.

(** Thrown values: [Error] instances, by name and message. *)
Record exn := { exn_name : jsstring; exn_message : jsstring }.

Definition Error (msg : jsstring) : exn :=
  {| exn_name := str "Error"; exn_message := msg |}.

(** [String(e.message || e)]: the message, or for an empty message what
    [Error.prototype.toString] gives, which is then the name. *)
Definition err_text (e : exn) : jsstring :=
  match exn_message e with
  | [] => exn_name e
  | m => m
  end.

Inductive outcome (A : Type) :=
| Return (a : A)
| Throw (e : exn).
Arguments Return {A} a.
Arguments Throw {A} e.

Definition obind {A B} (o : outcome A) (k : A -> outcome B) : outcome B :=
  match o with
  | Return a => k a
  | Throw e => Throw e
  end.

Fixpoint lookup (k : jsstring) (l : list (jsstring * json)) : value :=
  match l with
  | [] => Undefined
  | (k', v) :: l' => if jseqb k k' then V v else lookup k l'
  end.

Definition has_key (k : jsstring) (l : list (jsstring * json)) : bool :=
  match lookup k l with Undefined => false | V _ => true end.

(** Errors raised by the engine itself; their message texts are the
    engine's own. *)
Inductive engine_error :=
| NullProperty (k : jsstring)
| NotAFunction (k : jsstring)
| NotPrimitive.

End JsValue.
Import JsValue.

Declare Scope outcome_scope.
Delimit Scope outcome_scope with outcome.
Notation "x <- c ;; k" := (obind c (fun x => k))
  (at level 61, c at next level, right associativity) : outcome_scope.

(** * What the program takes from its platform

    The language's own conversions ([JSON.parse], [JSON.stringify], the
    numeric conversions between strings and numbers, [encodeURIComponent],
    URL resolution), the process configuration, and the collaborators
    (node-fetch, cheerio, pdf-parse).  The network and the document parser
    are state-passing oracles over a [world].

    The two prompt templates of the source write the excerpt of a text as
    a subscript with a colon, [text[:15000]] and [desc[:12000]].  The
    language has no such expression, so the source does not determine what
    the prompts carry at that place; it is taken here as one more
    parameter, [colon_subscript], and everything proved of the handlers
    holds whatever it is. *)

Inductive method := GET | POST.

Record request := {
  req_url : value;
  req_method : method;
  req_headers : list (jsstring * jsstring);
  req_body : option jsstring
}.

Record response (W : Type) := {
  resp_ok : bool;
  resp_status : N;
  resp_text : W -> outcome jsstring * W;
  resp_json : W -> outcome json * W
}.
Arguments resp_ok {W} r.
Arguments resp_status {W} r.
Arguments resp_text {W} r.
Arguments resp_json {W} r.

(** An anchor element as the handler reads it: [attr("href")], [text()]. *)
Record anchor := { a_href : option jsstring; a_text : jsstring }.

Class Platform := {
  world : Type;
  dom : Type;
  buffer : Type;
  (* the language *)
  JSON_parse : jsstring -> outcome json;
  JSON_parse_empty : exists e, JSON_parse [] = Throw e;
  JSON_stringify : json -> jsstring;
  StringToNumber : jsstring -> number;
  NumberToString : number -> jsstring;
  encodeURIComponent : jsstring -> outcome jsstring;
  URL_toString : jsstring -> jsstring -> outcome jsstring;
  engine_message : engine_error -> jsstring;
  (* what stands for [s[:n]] in the two prompt templates *)
  colon_subscript : jsstring -> N -> jsstring;
  (* process configuration *)
  env_GEMINI_API_KEY : option jsstring;
  (* collaborators *)
  fetch : request -> world -> outcome (response world) * world;
  cheerio_load : jsstring -> dom;
  dom_anchors : dom -> list anchor;
  dom_first_text : dom -> jsstring -> jsstring;
  dom_text : dom -> jsstring -> jsstring;
  dom_attr : dom -> jsstring -> jsstring -> option jsstring;
  pdf : buffer -> world -> outcome jsstring * world
}.

Section Program.
Context {P : Platform}.

(** ** Effects: state passing over the world, with exceptions *)

Definition M (A : Type) : Type := world -> outcome A * world.

Definition ret {A} (a : A) : M A := fun w => (Return a, w).
Definition throw {A} (e : exn) : M A := fun w => (Throw e, w).
Definition lift {A} (o : outcome A) : M A := fun w => (o, w).

Definition bind {A B} (m : M A) (k : A -> M B) : M B :=
  fun w =>
    match m w with
    | (Return a, w') => k a w'
    | (Throw e, w') => (Throw e, w')
    end.

(** [try { m } catch (e) { h e }] *)
Definition try_catch {A} (m : M A) (h : exn -> M A) : M A :=
  fun w =>
    match m w with
    | (Return a, w') => (Return a, w')
    | (Throw e, w') => h e w'
    end.

Definition TypeError (k : engine_error) : exn :=
  {| exn_name := str "TypeError"; exn_message := engine_message k |}.

(** ** Property reads and conversions on JSON values *)

(** [v.k] for the property names the handlers read, none of which is
    found on a built-in prototype: own properties of objects, [undefined]
    on arrays and primitives, a [TypeError] on [null]. *)
Definition get_prop (v : json) (k : jsstring) : outcome value :=
  match v with
  | JNull => Throw (TypeError (NullProperty k))
  | JObj l => Return (lookup k l)
  | _ => Return Undefined
  end.

(** [v?.k], for the same property names. *)
Definition opt_prop (v : value) (k : jsstring) : value :=
  match v with
  | Undefined | V JNull => Undefined
  | V (JObj l) => lookup k l
  | V _ => Undefined
  end.

(** [v?.[0]]: the first element of an array, the first code unit of a
    string, the property [0] of an object. *)
Definition opt_index0 (v : value) : value :=
  match v with
  | Undefined | V JNull => Undefined
  | V (JArr l) => match l with [] => Undefined | e :: _ => V e end
  | V (JStr s) => match s with [] => Undefined | c :: _ => V (JStr [c]) end
  | V (JObj l) => lookup (str "0") l
  | V _ => Undefined
  end.

(** [ToString] on a JSON value.  Arrays go through [join], objects through
    [Object.prototype.toString] unless an own [toString] property, which
    cannot be callable, hides it. *)
Fixpoint ToString (j : json) : outcome jsstring :=
  match j with
  | JNull => Return (str "null")
  | JBool b => Return (str (if b then "true" else "false"))
  | JNum n => Return (NumberToString n)
  | JStr s => Return s
  | JArr l =>
      (fix elems (l : list json) (first : bool) : outcome jsstring :=
         match l with
         | [] => Return []
         | e :: l' =>
             obind (match e with JNull => Return [] | _ => ToString e end)
               (fun s => obind (elems l' false)
                  (fun t => Return ((if first then [] else str ",") ++ s ++ t)))
         end) l true
  | JObj l =>
      if has_key (str "toString") l then Throw (TypeError NotPrimitive)
      else Return (str "[object Object]")
  end.

Definition ToStringV (v : value) : outcome jsstring :=
  match v with
  | Undefined => Return (str "undefined")
  | V j => ToString j
  end.

(** [Number(v)] *)
Definition Number (v : value) : outcome number :=
  match v with
  | Undefined => Return nan
  | V JNull => Return 0%float
  | V (JBool b) => Return (if b then 1%float else 0%float)
  | V (JNum n) => Return n
  | V (JStr s) => Return (StringToNumber s)
  | V j => obind (ToString j) (fun s => Return (StringToNumber s))
  end.

(** [Array.isArray(v) ? v : []] *)
Definition array_or_empty (v : value) : list json :=
  match v with
  | V (JArr l) => l
  | _ => []
  end.

End Program.

Declare Scope js_scope.
Delimit Scope js_scope with js.
Notation "x <- c ;; k" := (bind c (fun x => k))
  (at level 61, c at next level, right associativity) : js_scope.

(** * The program *)

Section Backend.
Context {P : Platform}.
Open Scope js_scope.

Definition dq : jsstring := [34%N].
Definition q (s : string) : jsstring := dq ++ str s ++ dq.

(** ** Helpers *)

Definition absoluteUrl (href base : jsstring) : jsstring :=
  match URL_toString href base with
  | Return u => u
  | Throw _ => href
  end.

(** The text of the first candidate, [?? ""], trimmed. *)
Definition reply_text (data : json) : outcome jsstring :=
  let t :=
    opt_prop (opt_index0 (opt_prop (opt_prop (opt_index0
      (opt_prop (V data) (str "candidates"))) (str "content")) (str "parts")))
      (str "text") in
  match t with
  | Undefined | V JNull => Return (trim [])
  | V (JStr s) => Return (trim s)
  | V _ => Throw (TypeError (NotAFunction (str "trim")))
  end.

Definition gemini_endpoint (model key : jsstring) : jsstring :=
  str "https://generativelanguage.googleapis.com/v1beta/models/" ++ model
  ++ str ":generateContent?key=" ++ key.

Definition gemini_payload (prompt : jsstring) : json :=
  JObj [(str "contents",
          JArr [JObj [(str "role", JStr (str "user"));
                      (str "parts", JArr [JObj [(str "text", JStr prompt)]])]]);
        (str "generationConfig", JObj [(str "temperature", JNum 0.2%float)])].

Definition gemini_request (url prompt : jsstring) : request :=
  {| req_url := V (JStr url);
     req_method := POST;
     req_headers := [(str "Content-Type", str "application/json")];
     req_body := Some (JSON_stringify (gemini_payload prompt)) |}.

(** [apiKey || process.env.GEMINI_API_KEY], when truthy. *)
Definition credential (apiKey : option jsstring) : option jsstring :=
  match apiKey with
  | Some ((_ :: _) as k) => Some k
  | _ => match env_GEMINI_API_KEY with
         | Some ((_ :: _) as k) => Some k
         | _ => None
         end
  end.

Definition geminiCall (model : value) (prompt : jsstring)
  (apiKey : option jsstring) : M jsstring :=
  match credential apiKey with
  | None => throw (Error (str "Missing GEMINI_API_KEY (set in backend .env)"))
  | Some key =>
      m <- lift (obind (ToStringV model) encodeURIComponent) ;;
      k <- lift (encodeURIComponent key) ;;
      resp <- fetch (gemini_request (gemini_endpoint m k) prompt) ;;
      if negb (resp_ok resp) then
        t <- resp_text resp ;;
        throw (Error (str "Gemini error " ++ dec (resp_status resp)
                      ++ str ": " ++ slice t 0 400))
      else
        data <- resp_json resp ;;
        text <- lift (reply_text data) ;;
        match text with
        | [] => throw (Error (str "Empty Gemini response"))
        | _ => ret text
        end
  end.

Definition page_request (url : value) : request :=
  {| req_url := url;
     req_method := GET;
     req_headers := [(str "User-Agent", str "Mozilla/5.0")];
     req_body := None |}.

(** ** GET /api/scrape-devpost *)

Record project := { p_name : jsstring; p_url : jsstring }.

Record project_result := {
  r_name : value;
  r_url : value;
  r_items : list json;
  r_total : number;
  r_error : option jsstring
}.

Inductive http_response :=
| Send (status : N) (body : jsstring)
| JsonProjects (l : list project)
| JsonRubric (l : list json)
| JsonResults (l : list project_result).

(** The pattern [/\/(project|software)\//i]. *)
Definition project_re : regex :=
  Seq (Chr 47%N)
   (Seq (Group 1 (Alt (Lit (str "project")) (Lit (str "software"))))
        (Chr 47%N)).

(** The body of the [each] callback: what one anchor pushes. *)
Definition harvest_anchor (base : jsstring) (a : anchor) : list project :=
  let href := or_empty (a_href a) in
  let name := trim (a_text a) in
  if test true project_re href && (2 <? length name)%nat then
    let urlAbs := absoluteUrl href base in
    if includes urlAbs (str "/project/") || includes urlAbs (str "/software/")
    then [{| p_name := name; p_url := urlAbs |}]
    else []
  else [].

Definition harvest (base : jsstring) (anchors : list anchor) : list project :=
  flat_map (harvest_anchor base) anchors.

(** A [Map] keyed by strings, in insertion order. *)
Definition Map_has (m : list (jsstring * project)) (k : jsstring) : bool :=
  existsb (fun e => jseqb (fst e) k) m.

Fixpoint Map_set (m : list (jsstring * project)) (k : jsstring) (v : project)
  : list (jsstring * project) :=
  match m with
  | [] => [(k, v)]
  | (k', v') :: m' => if jseqb k' k then (k', v) :: m' else (k', v') :: Map_set m' k v
  end.

Definition Map_values (m : list (jsstring * project)) : list project :=
  map snd m.

Definition dedup (projects : list project) : list project :=
  Map_values
    (fold_left (fun m p => if Map_has m (p_url p) then m else Map_set m (p_url p) p)
       projects []).

Definition scrape_devpost (url : option jsstring) : M http_response :=
  match url with
  | None | Some [] => ret (Send 400 (str "Missing ?url"))
  | Some url =>
      try_catch
        (page <- fetch (page_request (V (JStr url))) ;;
         if negb (resp_ok page) then
           throw (Error (str "Fetch failed: " ++ dec (resp_status page)))
         else
           html <- resp_text page ;;
           let d := cheerio_load html in
           ret (JsonProjects (dedup (harvest url (dom_anchors d)))))
        (fun err => ret (Send 500 (err_text err)))
  end.

(** ** POST /api/parse-rubric *)

Definition default_model : value := V (JStr (str "gemini-1.5-pro")).

Definition rubric_prompt_head : jsstring :=
  str "Extract a scoring rubric from the following PDF text.
Return STRICT JSON ONLY with this schema:
{
  " ++ q "criteria" ++ str ": [ { " ++ q "name" ++ str ": string, "
  ++ q "weight" ++ str ": number } ]
}
Rules:
- Weights must be numbers that sum to ~1 (normalize if needed).
- Keep names concise.

PDF TEXT:
<<<
".

Definition prompt_tail : jsstring := str "
>>>".

(** The template ends [<<<], [${text[:15000]}], [>>>].  The subscript is
    not an expression of the language; the prompt carries at that place
    whatever the platform's [colon_subscript] gives. *)
Definition rubric_prompt (text : jsstring) : jsstring :=
  rubric_prompt_head ++ colon_subscript text 15000 ++ prompt_tail.

(** From the model's reply to the criteria: [extractJson], [JSON.parse],
    and the [Array.isArray] test. *)
Definition rubric_of_reply (raw : jsstring) : outcome (list json) :=
  (parsed <- JSON_parse (extractJson raw) ;;
   criteria <- get_prop parsed (str "criteria") ;;
   Return (array_or_empty criteria))%outcome.

Definition parse_rubric (model : value) (file : option buffer)
  : M http_response :=
  try_catch
    (let model := js_or model default_model in
     match file with
     | None => ret (Send 400 (str "No rubric file uploaded"))
     | Some f =>
         text <- pdf f ;;
         raw <- geminiCall model (rubric_prompt text) None ;;
         criteria <- lift (rubric_of_reply raw) ;;
         ret (JsonRubric criteria)
     end)
    (fun err => ret (Send 500 (err_text err))).

(** ** POST /api/score *)

Definition score_prompt_head : jsstring :=
  str "You are a fair hackathon judge. Score the project using this rubric.
Return STRICT JSON ONLY with schema:
{
  " ++ q "items" ++ str ": [ { " ++ q "name" ++ str ": string, "
  ++ q "weight" ++ str ": number, " ++ q "score" ++ str ": number, "
  ++ q "feedback" ++ str ": string } ],
  " ++ q "total" ++ str ": number
}
Rules:
- score is 0..100 per item.
- total = sum(weight * score) on 0..100 scale.
- Use weights exactly as provided (do not renormalize).

RUBRIC:
".

(** One line of the rubric listing: [`- ${r.name} | weight: ${r.weight}`]. *)
Definition rubric_line (r : json) : outcome jsstring :=
  (n <- get_prop r (str "name") ;;
   ns <- ToStringV n ;;
   w <- get_prop r (str "weight") ;;
   ws <- ToStringV w ;;
   Return (str "- " ++ ns ++ str " | weight: " ++ ws))%outcome.

Fixpoint map_outcome {A B} (f : A -> outcome B) (l : list A) : outcome (list B) :=
  match l with
  | [] => Return []
  | a :: l' =>
      (b <- f a ;; bs <- map_outcome f l' ;; Return (b :: bs))%outcome
  end.

(** The scoring template up to and including the line [<<<]. *)
Definition score_prompt_lead (rubric_lines title url : jsstring) : jsstring :=
  score_prompt_head ++ rubric_lines
  ++ str "

PROJECT:
Title: " ++ title ++ str "
URL: " ++ url ++ str "
Text:
<<<
".

(** The template ends [<<<], [${desc[:12000]}], [>>>], with the same
    subscript that is not an expression of the language. *)
Definition score_prompt (rubric_lines title url desc : jsstring) : jsstring :=
  score_prompt_lead rubric_lines title url
  ++ colon_subscript desc 12000 ++ prompt_tail.

(** The pattern [/\s+\n/g]. *)
Definition trailing_space_re : regex :=
  Seq (Plus true (Cls is_space)) (Chr 10%N).

Definition describe (d : dom) : jsstring :=
  replace_all false trailing_space_re (str "
")
    (join (str "
")
       [or_empty (dom_attr d (str "meta[name=" ++ q "description" ++ str "]")
                    (str "content"));
        dom_text d (str ".large");
        dom_text d (str ".main-content, .content, .gallery, article");
        dom_text d (str "body")]).

(** The two factors [Number(it.weight)||0] and [Number(it.score)||0]. *)
Definition item_factors (it : json) : outcome (number * number) :=
  (w <- get_prop it (str "weight") ;;
   wn <- Number w ;;
   s <- get_prop it (str "score") ;;
   sn <- Number s ;;
   Return (or_zero wn, or_zero sn))%outcome.

(** [(Number(it.weight)||0)*(Number(it.score)||0)] *)
Definition item_points (it : json) : outcome number :=
  (f <- item_factors it ;; Return (fst f * snd f)%float)%outcome.

(** The sum of weight times score, from 0, left to right. *)
Definition weighted_sum (fs : list (number * number)) : number :=
  fold_left (fun s f => (s + fst f * snd f)%float) fs 0%float.

(** [items.reduce((s,it)=> s + ..., 0)] *)
Fixpoint reduce_points (items : list json) (s : number) : outcome number :=
  match items with
  | [] => Return s
  | it :: items' =>
      (x <- item_points it ;; reduce_points items' (s + x)%float)%outcome
  end.

(** From the decoded payload to the items and the total. *)
Definition score_payload (payload : json) : outcome (list json * number) :=
  (items_v <- get_prop payload (str "items") ;;
   let items := array_or_empty items_v in
   total_v <- get_prop payload (str "total") ;;
   let total := match total_v with V (JNum n) => n | _ => 0%float end in
   if num_falsy total then
     t <- reduce_points items 0%float ;; Return (items, t)
   else Return (items, total))%outcome.

(** The scoring prompt of one project; the rubric lines, the title and
    the URL are converted to strings in this order. *)
Definition project_prompt (rubric : list json) (title url : value)
  (desc : jsstring) : outcome jsstring :=
  (lines <- map_outcome rubric_line rubric ;;
   title_s <- ToStringV title ;;
   url_s <- ToStringV url ;;
   Return (score_prompt (join (str "
") lines) title_s url_s desc))%outcome.

(** From the model's reply to the project's result: [extractJson],
    [JSON.parse], items and total. *)
Definition result_of_reply (title url : value) (raw : jsstring)
  : outcome project_result :=
  (payload <- JSON_parse (extractJson raw) ;;
   it <- score_payload payload ;;
   Return {| r_name := title; r_url := url; r_items := fst it;
             r_total := snd it; r_error := None |})%outcome.

(** [$("h1, h2").first().text().trim() || p.name || "Untitled"]; [p] is
    not [null] where this is evaluated, [p.url] having been read. *)
Definition title_of (d : dom) (p : json) : value :=
  js_or (V (JStr (trim (dom_first_text d (str "h1, h2")))))
        (js_or (opt_prop (V p) (str "name")) (V (JStr (str "Untitled")))).

(** The body of the [try] block for one project. *)
Definition score_project (rubric : list json) (mdl : value) (p : json)
  : M project_result :=
  url <- lift (get_prop p (str "url")) ;;
  page <- fetch (page_request url) ;;
  if negb (resp_ok page) then
    throw (Error (str "Fetch " ++ dec (resp_status page)))
  else
    html <- resp_text page ;;
    let d := cheerio_load html in
    let title := title_of d p in
    let desc := describe d in
    prompt <- lift (project_prompt rubric title url desc) ;;
    raw <- geminiCall mdl prompt None ;;
    lift (result_of_reply title url raw).

(** The [catch] block: the placeholder pushed for a failed project. *)
Definition placeholder (p : json) (inner : exn) : M project_result :=
  name <- lift (get_prop p (str "name")) ;;
  url <- lift (get_prop p (str "url")) ;;
  ret {| r_name := js_or name (V (JStr (str "Untitled"))); r_url := url;
         r_items := []; r_total := 0%float;
         r_error := Some (err_text inner) |}.

Definition score_one (rubric : list json) (mdl : value) (p : json)
  : M project_result :=
  try_catch (score_project rubric mdl p) (placeholder p).

(** The [for] loop, pushing onto [results]. *)
Fixpoint score_loop (rubric : list json) (mdl : value) (projects : list json)
  (results : list project_result) : M (list project_result) :=
  match projects with
  | [] => ret results
  | p :: ps =>
      r <- score_one rubric mdl p ;;
      score_loop rubric mdl ps (results ++ [r])
  end.

(** [Array.prototype.sort] with a comparison function: a stable sort,
    here by insertion; [x] moves behind [y] when [comparefn(x, y) > 0].
    Where the comparison function is consistent, a stable sort has one
    possible outcome, whatever its method, and this is it.  Where it is
    not (for [by_total]: where a total is NaN) the language leaves the
    order to the engine, and the order computed here is one of those
    allowed, not necessarily the engine's. *)
Section Sort.
Context {A : Type}.
Variable comparefn : A -> A -> number.

Definition behind (x y : A) : bool := (0 <? comparefn x y)%float.

Fixpoint insert (x : A) (l : list A) : list A :=
  match l with
  | [] => [x]
  | y :: l' => if behind x y then y :: insert x l' else x :: l
  end.

Fixpoint sort (l : list A) : list A :=
  match l with
  | [] => []
  | x :: l' => insert x (sort l')
  end.

End Sort.

(** [(a,b)=> b.total - a.total] *)
Definition by_total (a b : project_result) : number :=
  (r_total b - r_total a)%float.

Definition rank (results : list project_result) : list project_result :=
  sort by_total results.

(** [Array.isArray(v) && v.length] *)
Definition nonempty_array (v : value) : option (list json) :=
  match v with
  | V (JArr (x :: l)) => Some (x :: l)
  | _ => None
  end.

Definition score (body : value) : M http_response :=
  try_catch
    (let b := js_or body (V (JObj [])) in
     match nonempty_array (opt_prop b (str "projects")) with
     | None => ret (Send 400 (str "Missing projects[]"))
     | Some projects =>
         match nonempty_array (opt_prop b (str "rubric")) with
         | None => ret (Send 400 (str "Missing rubric[]"))
         | Some rubric =>
             let mdl := js_or (opt_prop b (str "model")) default_model in
             results <- score_loop rubric mdl projects [] ;;
             ret (JsonResults (rank results))
         end
     end)
    (fun err => ret (Send 500 (err_text err))).

(** ** Vocabulary for the statements about the batch *)

(** The placeholder of a project that is not [null]. *)
Definition failed_result (p : json) (inner : exn) : project_result :=
  {| r_name := js_or (opt_prop (V p) (str "name")) (V (JStr (str "Untitled")));
     r_url := opt_prop (V p) (str "url");
     r_items := []; r_total := 0%float;
     r_error := Some (err_text inner) |}.

(** [batch rubric mdl projects w results w']: going through [projects]
    from the world [w], each project in turn either completes its [try]
    block and contributes what that block built, or fails in it with some
    [e] and contributes its placeholder; either way the next project
    starts from the world the previous one left. *)
Inductive batch (rubric : list json) (mdl : value)
  : list json -> world -> list project_result -> world -> Prop :=
| batch_done w : batch rubric mdl [] w [] w
| batch_scored p ps w r w1 rs w2 :
    score_project rubric mdl p w = (Return r, w1) ->
    batch rubric mdl ps w1 rs w2 ->
    batch rubric mdl (p :: ps) w (r :: rs) w2
| batch_failed p ps w e w1 rs w2 :
    score_project rubric mdl p w = (Throw e, w1) ->
    batch rubric mdl ps w1 rs w2 ->
    batch rubric mdl (p :: ps) w (failed_result p e :: rs) w2.

(** [!total] on the value read from [payload.total] after the [typeof]
    test: zero, missing, or not a number. *)
Definition total_falsy (v : value) : bool :=
  match v with
  | V (JNum n) => num_falsy n
  | _ => true
  end.

End Backend.

(** * Vocabulary for the harvester's statements *)

(** [l1] is [l2] with some elements left out, the others in order. *)
Inductive subseq {A : Type} : list A -> list A -> Prop :=
| subseq_nil : subseq [] []
| subseq_skip x l1 l2 : subseq l1 l2 -> subseq l1 (x :: l2)
| subseq_keep x l1 l2 : subseq l1 l2 -> subseq (x :: l1) (x :: l2).

(** The projects of [l] whose URL is neither in [seen] nor carried by an
    earlier project of [l]. *)
Fixpoint keep_first (seen : list jsstring) (l : list project) : list project :=
  match l with
  | [] => []
  | p :: l' =>
      if existsb (jseqb (p_url p)) seen then keep_first seen l'
      else p :: keep_first (p_url p :: seen) l'
  end.

(** [pat] occurs in [s], letter case aside. *)
Definition matches_ci (pat s : jsstring) : Prop :=
  exists pre op post, s = pre ++ op ++ post /\ ci_eq pat op.

(** What [/\/(project|software)\//i] tests. *)
Definition project_path (href : jsstring) : Prop :=
  matches_ci (str "/project/") href \/ matches_ci (str "/software/") href.

(** What the second guard of the harvester tests, case-sensitively. *)
Definition project_url (url : jsstring) : Prop :=
  substring (str "/project/") url \/ substring (str "/software/") url.

(** * A small platform to run the handlers on

    The world is the log of the requests sent so far, latest first.  Pages
    under [https://] load; any other address fails in the network layer.
    The model endpoint answers every prompt with the text [ {} ].  The
    subscripts of the prompt templates are read as the text itself. *)

Module Demo.

Definition network_error : exn :=
  {| exn_name := str "FetchError"; exn_message := str "network down" |}.

Definition syntax_error : exn :=
  {| exn_name := str "SyntaxError"; exn_message := str "Unexpected token" |}.

Definition invalid_url : exn :=
  {| exn_name := str "TypeError"; exn_message := str "Invalid URL" |}.

Definition parse (text : jsstring) : outcome json :=
  if jseqb text (str "{}") then Return (JObj []) else Throw syntax_error.

Definition resolve (href base : jsstring) : outcome jsstring :=
  if starts_with (str "/") href then Return (str "https://devpost.com" ++ href)
  else if starts_with (str "https://") href then Return href
  else Throw invalid_url.

Definition page : response (list request) :=
  {| resp_ok := true; resp_status := 200;
     resp_text := fun w => (Return (str "<h1>Demo</h1>"), w);
     resp_json := fun w => (Throw syntax_error, w) |}.

Definition reply_json : json :=
  JObj [(str "candidates",
         JArr [JObj [(str "content",
                      JObj [(str "parts",
                             JArr [JObj [(str "text", JStr (str " {} "))]])])]])].

Definition reply : response (list request) :=
  {| resp_ok := true; resp_status := 200;
     resp_text := fun w => (Return (str " {} "), w);
     resp_json := fun w => (Return reply_json, w) |}.

Definition online (req : request) (w : list request)
  : outcome (response (list request)) * list request :=
  match req_method req, req_url req with
  | POST, _ => (Return reply, req :: w)
  | GET, V (JStr u) =>
      if starts_with (str "https://") u then (Return page, req :: w)
      else (Throw network_error, req :: w)
  | GET, _ => (Throw invalid_url, req :: w)
  end.

Definition offline (req : request) (w : list request)
  : outcome (response (list request)) * list request :=
  (Throw network_error, req :: w).

Definition platform
  (net : request -> list request ->
         outcome (response (list request)) * list request) : Platform :=
  {| world := list request;
     dom := jsstring;
     buffer := jsstring;
     JSON_parse := parse;
     JSON_parse_empty := ex_intro _ syntax_error eq_refl;
     JSON_stringify := fun _ => str "{}";
     StringToNumber := fun _ => nan;
     NumberToString := fun _ => str "0";
     encodeURIComponent := fun s => Return s;
     URL_toString := resolve;
     engine_message := fun _ => str "not an object";
     colon_subscript := fun s _ => s;
     env_GEMINI_API_KEY := Some (str "key");
     fetch := net;
     cheerio_load := fun html => html;
     dom_anchors := fun _ => [];
     dom_first_text := fun _ _ => str "Demo";
     dom_text := fun d _ => d;
     dom_attr := fun _ _ _ => None;
     pdf := fun b w => (Return b, w) |}.

End Demo.

(** * Vocabulary for the statements about numbers, ranking and the client *)

(** The exact value of a number, scaled by [2^1074] so as to be an integer;
    the infinities lie beyond every finite number. *)
Definition key (x : spec_float) : Z :=
  match x with
  | S754_zero _ => 0
  | S754_infinity s => cond_Zopp s (2 ^ 2098)
  | S754_nan => 0
  | S754_finite s m e => cond_Zopp s (Zpos m * 2 ^ (e + 1074))
  end.

(** A result that keeps the sign [s] and is neither zero nor NaN. *)
Definition signed (s : bool) (z : spec_float) : Prop :=
  (exists m e, z = S754_finite s m e) \/ z = S754_infinity s.

(** The scaled value of a primitive number. *)
Definition nkey (x : number) : Z := key (Prim2SF x).

Definition no_nan_total (r : project_result) : Prop := is_nan (r_total r) = false.

(** A result with a given total, for examples. *)
Definition result_with (t : number) : project_result :=
  {| r_name := V (JStr (str "P")); r_url := V (JStr (str "https://devpost.com/software/p"));
     r_items := []; r_total := t; r_error := None |}.

Definition is_some {A} (o : option A) : bool :=
  match o with Some _ => true | None => false end.

(** A request body with one project that cannot be fetched and one that can. *)
Definition demo_body : value :=
  V (JObj [(str "projects",
            JArr [JObj [(str "name", JStr (str "A"));
                        (str "url", JStr (str "ftp://nowhere/a"))];
                  JObj [(str "name", JStr (str "B"));
                        (str "url", JStr (str "https://devpost.com/software/b"))]]);
           (str "rubric",
            JArr [JObj [(str "name", JStr (str "Tech"));
                        (str "weight", JNum 0.6%float)]])]).


Definition not_an_array (v : value) : Prop := forall l, v <> V (JArr l).

(** The three errors of the client. *)
Definition missing_key : exn :=
  Error (str "Missing GEMINI_API_KEY (set in backend .env)").
Definition upstream_error (status : N) (body : jsstring) : exn :=
  Error (str "Gemini error " ++ dec status ++ str ": " ++ slice body 0 400).
Definition empty_response : exn := Error (str "Empty Gemini response").


(** * The frontend's escaping helper *)

(** [s.replaceAll(pat, rep)] for a string pattern and a replacement text
    without dollar signs, as are those of the source: the occurrences of
    [pat] from the left, not overlapping; [skip] counts the code units of
    the current occurrence still to be passed over.  An empty pattern
    occurs before every code unit and at the end. *)
Fixpoint replaceAll_from (pat rep s : jsstring) (skip : nat) : jsstring :=
  match skip with
  | S k => match s with
           | [] => []
           | _ :: s' => replaceAll_from pat rep s' k
           end
  | O =>
      if starts_with pat s then
        match pat, s with
        | [], c :: s' => rep ++ c :: replaceAll_from pat rep s' O
        | _ :: pat', _ :: s' => rep ++ replaceAll_from pat rep s' (length pat')
        | _, [] => rep
        end
      else
        match s with
        | [] => []
        | c :: s' => c :: replaceAll_from pat rep s' O
        end
  end.

Definition replaceAll (s pat rep : jsstring) : jsstring :=
  replaceAll_from pat rep s O.

(** The three replacements of [escapeHtml], in the order of the source. *)
Definition escape_text (t : jsstring) : jsstring :=
  replaceAll (replaceAll (replaceAll t (str "&") (str "&amp;"))
                (str "<") (str "&lt;"))
    (str ">") (str "&gt;").

(** What one code unit becomes in a single pass over the text. *)
Definition escape_unit (c : char) : jsstring :=
  if (c =? 38)%N then str "&amp;"
  else if (c =? 60)%N then str "&lt;"
  else if (c =? 62)%N then str "&gt;"
  else [c].

Section Frontend.
Context {P : Platform}.

(** [escapeHtml(s)]: [String(s)], then the replacements. *)
Definition escapeHtml (s : value) : outcome jsstring :=
  obind (ToStringV s) (fun t => Return (escape_text t)).

End Frontend.

(** The order of the scoreboard: the results received, copied, and
    sorted with the comparison function the handler uses. *)
Definition scoreboard_order (results : list project_result)
  : list project_result :=
  sort by_total results.

(** * Vocabulary for further statements *)

(** A project as the harvester lets it through. *)
Definition well_harvested (p : project) : Prop :=
  (2 < length (p_name p))%nat /\
  (forall c tl, p_name p = c :: tl -> is_space c = false) /\
  (forall c hd, p_name p = hd ++ [c] -> is_space c = false) /\
  project_url (p_url p).

(** No white space stands right before a line feed. *)
Fixpoint no_space_before_newline (s : jsstring) : Prop :=
  match s with
  | c :: ((d :: _) as s') =>
      (is_space c = true -> d <> 10%N) /\ no_space_before_newline s'
  | _ => True
  end.

(** Where a match of [/\s+\n/] that starts right before [s] ends: behind
    the last line feed of the white space at the head of [s]. *)
Fixpoint after_last_newline (s : jsstring) : option jsstring :=
  match s with
  | d :: s' =>
      if is_space d
      then orelse (after_last_newline s') (if (d =? 10)%N then Some s' else None)
      else None
  | [] => None
  end.

(** More platforms to run the handlers on: like [Demo.platform], with the
    credential of the process configuration as a parameter. *)
Module Lab.

Definition not_found : response (list request) :=
  {| resp_ok := false; resp_status := 404;
     resp_text := fun w => (Return (str "Not Found"), w);
     resp_json := fun w => (Throw Demo.syntax_error, w) |}.

(** Every page answers 404; the model endpoint answers as in [Demo]. *)
Definition missing_pages (req : request) (w : list request)
  : outcome (response (list request)) * list request :=
  match req_method req with
  | POST => (Return Demo.reply, req :: w)
  | GET => (Return not_found, req :: w)
  end.

Definition platform
  (net : request -> list request ->
         outcome (response (list request)) * list request)
  (key : option jsstring) : Platform :=
  {| world := list request;
     dom := jsstring;
     buffer := jsstring;
     JSON_parse := Demo.parse;
     JSON_parse_empty := ex_intro _ Demo.syntax_error eq_refl;
     JSON_stringify := fun _ => str "{}";
     StringToNumber := fun _ => nan;
     NumberToString := fun _ => str "0";
     encodeURIComponent := fun s => Return s;
     URL_toString := Demo.resolve;
     engine_message := fun _ => str "not an object";
     colon_subscript := fun s _ => s;
     env_GEMINI_API_KEY := key;
     fetch := net;
     cheerio_load := fun html => html;
     dom_anchors := fun _ =>
       [{| a_href := Some (str "/software/alpha"); a_text := str " Alpha " |};
        {| a_href := Some (str "/about"); a_text := str "About us" |};
        {| a_href := Some (str "/software/alpha"); a_text := str "Alpha again" |};
        {| a_href := Some (str "/project/b"); a_text := str "B" |}];
     dom_first_text := fun _ _ => str "Demo";
     dom_text := fun d _ => d;
     dom_attr := fun _ _ _ => None;
     pdf := fun b w => (Return b, w) |}.

End Lab.

(** * Facts about the string primitives *)

Lemma orelse_None_r {A} (a : option A) : orelse a None = a.
Proof. destruct a; reflexivity. Qed.

Lemma chr_eq_backtick (d : char) : chr_eq true backtick d = (backtick =? d)%N.
Proof.
  unfold chr_eq. change (upper backtick) with backtick. unfold upper.
  destruct ((97 <=? d) && (d <=? 122))%N eqn:E; [|reflexivity].
  apply andb_true_iff in E as [E1 E2].
  apply N.leb_le in E1, E2. unfold backtick.
  transitivity false; [apply N.eqb_neq | symmetry; apply N.eqb_neq]; lia.
Qed.

Lemma starts_with_ic_exact (pat s : jsstring) :
  Forall (fun p => forall d, chr_eq true p d = (p =? d)%N) pat ->
  starts_with_ic true pat s = starts_with pat s.
Proof.
  intros H; revert s; induction H as [|p pat Hp _ IH]; intros [|c s];
    cbn [starts_with_ic starts_with]; auto.
  now rewrite Hp, IH.
Qed.

Lemma starts_with_ic_close (s : jsstring) :
  starts_with_ic true fence_close s = starts_with fence_close s.
Proof.
  apply starts_with_ic_exact.
  repeat constructor; apply chr_eq_backtick.
Qed.

(** * The matcher on the shapes occurring in the source patterns *)

Lemma rmatch_Lit ic p k x :
  rmatch ic (Lit p) k x =
  if starts_with_ic ic p (rest x)
  then k (advance x (skipn (length p) (rest x))) else None.
Proof.
  revert x; induction p as [|c p IH]; intros [s cs]; simpl.
  - reflexivity.
  - destruct s as [|d s]; simpl; [reflexivity|].
    destruct (chr_eq ic c d); simpl; [|reflexivity].
    rewrite IH. reflexivity.
Qed.

Lemma rmatch_Cls ic p k x :
  rmatch ic (Cls p) k x =
  match rest x with
  | d :: s' => if p d then k (advance x s') else None
  | [] => None
  end.
Proof. reflexivity. Qed.

Lemma progress_tail d s cs cs' :
  progress {| rest := d :: s; caps := cs |} {| rest := s; caps := cs' |} = true.
Proof. unfold progress; simpl. apply Nat.leb_le; lia. Qed.

Lemma star_lazy_any ic k cs n s :
  (length s <= n)%nat ->
  star_loop false (rmatch ic any_char) k n {| rest := s; caps := cs |}
  = lazy_scan k cs s.
Proof.
  revert s; induction n as [|n IH]; intros s Hn.
  - destruct s; [|simpl in Hn; lia]. simpl. now rewrite orelse_None_r.
  - cbn [star_loop]. unfold any_char at 1. rewrite rmatch_Cls.
    destruct s as [|d s]; cbn [rest lazy_scan]; [reflexivity|].
    rewrite orb_negb_r. unfold advance; cbn [caps].
    rewrite progress_tail, IH by (simpl in Hn; lia). reflexivity.
Qed.

Lemma star_greedy_space ic k cs n s :
  (length s <= n)%nat ->
  star_loop true (rmatch ic (Cls is_space)) k n {| rest := s; caps := cs |}
  = greedy_scan k cs s.
Proof.
  revert s; induction n as [|n IH]; intros s Hn.
  - destruct s; [|simpl in Hn; lia]. reflexivity.
  - cbn [star_loop]. rewrite rmatch_Cls.
    destruct s as [|d s]; cbn [rest greedy_scan]; [reflexivity|].
    destruct (is_space d); [|reflexivity].
    unfold advance; cbn [caps].
    rewrite progress_tail, IH by (simpl in Hn; lia). reflexivity.
Qed.

Lemma consumed_app (pre s : jsstring) : consumed (pre ++ s) s = pre.
Proof.
  unfold consumed. rewrite length_app.
  replace (length pre + length s - length s)%nat with (length pre) by lia.
  rewrite firstn_app, firstn_all, Nat.sub_diag. simpl. apply app_nil_r.
Qed.

Lemma lazy_scan_close (pre s : jsstring) cs :
  lazy_scan
    (fun y => rmatch true (Lit fence_close) Some
                (set_cap 1 (consumed (pre ++ s) (rest y)) y)) cs s
  = match split_at fence_close s with
    | Some (b, a) => Some {| rest := a; caps := (1%nat, pre ++ b) :: cs |}
    | None => None
    end.
Proof.
  revert pre; induction s as [|c s IH]; intros pre.
  - cbn [lazy_scan]. rewrite rmatch_Lit. reflexivity.
  - cbn [lazy_scan split_at]. rewrite rmatch_Lit.
    cbn [set_cap rest]. rewrite starts_with_ic_close.
    destruct (starts_with fence_close (c :: s)) eqn:E.
    + rewrite consumed_app, app_nil_r. reflexivity.
    + cbn [orelse].
      replace (pre ++ c :: s) with ((pre ++ [c]) ++ s)
        by (rewrite <- app_assoc; reflexivity).
      rewrite IH. destruct (split_at fence_close s) as [[b a]|]; [|reflexivity].
      rewrite <- app_assoc. reflexivity.
Qed.

Lemma rmatch_body (y : mstate) :
  rmatch true (Seq (Group 1 (Star false any_char)) (Lit fence_close)) Some y
  = close_k y.
Proof.
  destruct y as [s cs]. cbn [rmatch rest].
  rewrite star_lazy_any by lia.
  apply (lazy_scan_close [] s cs).
Qed.

Lemma greedy_scan_ext k k' cs s :
  (forall y, k y = k' y) -> greedy_scan k cs s = greedy_scan k' cs s.
Proof.
  intros H; induction s as [|d s IH]; cbn [greedy_scan]; [apply H|].
  rewrite IH, H. reflexivity.
Qed.

Lemma starts_with_head pat c s d :
  starts_with (d :: pat) (c :: s) = true -> d = c.
Proof.
  cbn [starts_with]. intros H. apply andb_true_iff in H as [H _].
  now apply N.eqb_eq in H.
Qed.

Lemma is_space_backtick : is_space backtick = false.
Proof. reflexivity. Qed.

Lemma split_at_skip_space d s :
  is_space d = true ->
  split_at fence_close s = None -> split_at fence_close (d :: s) = None.
Proof.
  intros Hd Hs. cbn [split_at]. rewrite Hs.
  destruct (starts_with fence_close (d :: s)) eqn:E; [|reflexivity].
  apply starts_with_head in E. subst d.
  change (N_of_ascii "`") with backtick in Hd.
  rewrite is_space_backtick in Hd. discriminate.
Qed.

Lemma split_at_drop_space s :
  split_at fence_close (drop_while is_space s) = None ->
  split_at fence_close s = None.
Proof.
  induction s as [|d s IH]; cbn [drop_while]; [auto|].
  destruct (is_space d) eqn:E; [|auto].
  intros H. apply split_at_skip_space; auto.
Qed.

Lemma greedy_scan_close cs s :
  greedy_scan close_k cs s
  = close_k {| rest := drop_while is_space s; caps := cs |}.
Proof.
  induction s as [|d s IH]; cbn [greedy_scan drop_while]; [reflexivity|].
  destruct (is_space d) eqn:E; [|reflexivity].
  rewrite IH. unfold close_k at 1. cbn [rest caps].
  destruct (split_at fence_close (drop_while is_space s)) as [[b a]|] eqn:F.
  - unfold close_k; cbn [rest caps]. rewrite F. reflexivity.
  - cbn [orelse]. unfold close_k; cbn [rest caps]. rewrite F.
    apply split_at_drop_space in F.
    now rewrite (split_at_skip_space d s E F).
Qed.

Lemma rmatch_Seq ic r1 r2 k x :
  rmatch ic (Seq r1 r2) k x = rmatch ic r1 (rmatch ic r2 k) x.
Proof. reflexivity. Qed.

Lemma rmatch_Star ic g r k x :
  rmatch ic (Star g r) k x = star_loop g (rmatch ic r) k (length (rest x)) x.
Proof. reflexivity. Qed.

Lemma rmatch_fence_re (s : jsstring) :
  rmatch true fence_re Some {| rest := s; caps := [] |}
  = match fence_at s with
    | Some (b, a) => Some {| rest := a; caps := [(1%nat, b)] |}
    | None => None
    end.
Proof.
  unfold fence_re, fence_at. rewrite rmatch_Seq, rmatch_Lit. cbn [rest].
  destruct (starts_with_ic true fence_open s); [|reflexivity].
  rewrite rmatch_Seq, rmatch_Star.
  unfold advance; cbn [caps rest].
  rewrite star_greedy_space by lia.
  rewrite (greedy_scan_ext _ close_k) by (intros y; apply (rmatch_body y)).
  rewrite greedy_scan_close. unfold close_k; cbn [rest caps].
  destruct (split_at _ _) as [[b a]|]; reflexivity.
Qed.

Lemma exec_fence_re (s : jsstring) (i : nat) :
  match exec_from true fence_re s i with
  | Some m => lookup_cap 1 (m_caps m)
  | None => None
  end = find_fence s.
Proof.
  revert i; induction s as [|c s IH]; intros i;
    cbn [exec_from find_fence]; rewrite rmatch_fence_re.
  - destruct (fence_at []) as [[b a]|]; reflexivity.
  - destruct (fence_at (c :: s)) as [[b a]|]; [reflexivity|]. apply IH.
Qed.

Lemma exec_fence_re_none (s : jsstring) :
  exec true fence_re s = None <-> find_fence s = None.
Proof.
  unfold exec. generalize 0%nat.
  induction s as [|c s IH]; intros i;
    cbn [exec_from find_fence]; rewrite rmatch_fence_re.
  - destruct (fence_at []) as [[b a]|]; split; congruence.
  - destruct (fence_at (c :: s)) as [[b a]|]; [split; congruence|]. apply IH.
Qed.

(** [extractJson] in terms of the direct scan. *)
Lemma extractJson_scan (text : jsstring) :
  extractJson text =
  match find_fence text with
  | Some body => body
  | None =>
      let a := indexOf text (str "{") in
      let b := lastIndexOf text (str "}") in
      if negb (a =? -1) && negb (b =? -1) then slice text a (b + 1) else text
  end.
Proof.
  unfold extractJson.
  pose proof (exec_fence_re text 0) as H. fold (exec true fence_re text) in H.
  pose proof (exec_fence_re_none text) as N.
  destruct (exec true fence_re text) as [m|].
  - cbn beta iota in H. rewrite <- H.
    destruct (lookup_cap 1 (m_caps m)) eqn:E; [reflexivity|].
    symmetry in H. apply N in H. discriminate.
  - rewrite (proj1 N eq_refl). reflexivity.
Qed.

(** * Declarative reading of the scanning functions *)

Lemma starts_with_spec (pat s : jsstring) :
  starts_with pat s = true <-> exists tl, s = pat ++ tl.
Proof.
  revert s; induction pat as [|p pat IH]; intros s; cbn [starts_with].
  - split; [intros _; now exists s | reflexivity].
  - destruct s as [|c s].
    + split; [discriminate | intros [tl H]; discriminate].
    + rewrite andb_true_iff, N.eqb_eq, IH. split.
      * intros [-> [tl ->]]. now exists tl.
      * intros [tl H]. injection H as -> ->. split; [reflexivity | now exists tl].
Qed.

Lemma starts_with_ic_spec (pat s : jsstring) :
  starts_with_ic true pat s = true <->
  exists op tl, s = op ++ tl /\ ci_eq pat op.
Proof.
  revert s; induction pat as [|p pat IH]; intros s; cbn [starts_with_ic].
  - split; [intros _; exists [], s; split; [reflexivity | constructor] | reflexivity].
  - destruct s as [|c s].
    + split; [discriminate|].
      intros (op & tl & H & E). inversion E; subst. discriminate.
    + rewrite andb_true_iff, IH. split.
      * intros [Hc (op & tl & -> & E)].
        exists (c :: op), tl. split; [reflexivity | now constructor].
      * intros (op & tl & H & E). inversion E as [|? d ? op' Hd E']; subst.
        injection H as -> ->. split; [assumption | now exists op', tl].
Qed.

Lemma ci_eq_length (a b : jsstring) : ci_eq a b -> length a = length b.
Proof. induction 1; simpl; congruence. Qed.

Lemma split_at_spec (pat s b a : jsstring) :
  split_at pat s = Some (b, a) ->
  s = b ++ pat ++ a /\
  forall b1 a1, s = b1 ++ pat ++ a1 -> (length b <= length b1)%nat.
Proof.
  revert b; induction s as [|c s IH]; intros b; cbn [split_at].
  - destruct (starts_with pat []) eqn:E; [|discriminate].
    intros H; injection H as <- <-.
    apply starts_with_spec in E as [tl E].
    split; [|intros; simpl; lia].
    simpl. rewrite E at 1. f_equal.
    rewrite E, skipn_app, skipn_all, Nat.sub_diag. reflexivity.
  - destruct (starts_with pat (c :: s)) eqn:E.
    + intros H; injection H as <- <-.
      apply starts_with_spec in E as [tl E].
      split; [|intros; simpl; lia].
      simpl. rewrite E at 1. f_equal.
      rewrite E, skipn_app, skipn_all, Nat.sub_diag. reflexivity.
    + destruct (split_at pat s) as [[b' a']|]; [|discriminate].
      intros H; injection H as <- <-.
      destruct (IH b' eq_refl) as [-> Hmin]. split; [reflexivity|].
      intros [|c1 b1] a1 H.
      * exfalso. simpl in H.
        assert (starts_with pat (c :: b' ++ pat ++ a') = true)
          by (apply starts_with_spec; now exists a1).
        congruence.
      * simpl in H. injection H as _ H. apply Hmin in H. simpl; lia.
Qed.

Lemma split_at_none (pat s : jsstring) :
  split_at pat s = None <-> ~ substring pat s.
Proof.
  induction s as [|c s IH]; cbn [split_at].
  - destruct (starts_with pat []) eqn:E.
    + split; [discriminate|]. intros H; exfalso; apply H.
      apply starts_with_spec in E as [tl E]. now exists [], tl.
    + split; [|reflexivity]. intros _ (pre & post & H).
      destruct pre; [|discriminate]. simpl in H.
      assert (starts_with pat [] = true)
        by (apply starts_with_spec; now exists post).
      congruence.
  - destruct (starts_with pat (c :: s)) eqn:E.
    + split; [discriminate|]. intros H; exfalso; apply H.
      apply starts_with_spec in E as [tl E]. now exists [], tl.
    + destruct (split_at pat s) as [[b a]|] eqn:F.
      * split; [discriminate|]. intros H; exfalso; apply H.
        apply split_at_spec in F as [-> _]. now exists (c :: b), a.
      * split; [|reflexivity]. intros _ (pre & post & H).
        destruct pre as [|c1 pre]; simpl in H.
        -- assert (starts_with pat (c :: s) = true)
             by (apply starts_with_spec; now exists post).
           congruence.
        -- injection H as _ H. apply (proj1 IH eq_refl). now exists pre, post.
Qed.

Lemma drop_while_spec (p : char -> bool) (s : jsstring) :
  exists ws, s = ws ++ drop_while p s /\ Forall (fun c => p c = true) ws /\
             (forall c tl, drop_while p s = c :: tl -> p c = false).
Proof.
  induction s as [|c s (ws & E & F & H)]; cbn [drop_while].
  - exists []. repeat split; [constructor | discriminate].
  - destruct (p c) eqn:Pc.
    + exists (c :: ws). repeat split; [simpl; now f_equal | now constructor | exact H].
    + exists []. repeat split; [constructor|].
      intros c' tl Heq. injection Heq as <- _. exact Pc.
Qed.

Lemma fence_open_length (op : jsstring) :
  ci_eq fence_open op -> length op = 7%nat.
Proof. intros H. apply ci_eq_length in H. rewrite <- H. reflexivity. Qed.

Lemma substring_drop_space (s : jsstring) :
  substring fence_close s -> substring fence_close (drop_while is_space s).
Proof.
  intros H.
  destruct (split_at fence_close (drop_while is_space s)) as [[b a]|] eqn:E.
  - apply split_at_spec in E as [E _]. now exists b, a.
  - apply split_at_drop_space in E. apply split_at_none in E. contradiction.
Qed.

Lemma fence_at_some (s : jsstring) :
  starts_with_ic true fence_open s = true ->
  substring fence_close (skipn (length fence_open) s) ->
  exists b a, fence_at s = Some (b, a).
Proof.
  intros H1 H2. unfold fence_at. rewrite H1.
  apply substring_drop_space in H2.
  destruct (split_at fence_close _) as [[b a]|] eqn:E; [now exists b, a|].
  apply split_at_none in E. contradiction.
Qed.

Lemma has_fence_skip (s : jsstring) :
  has_fence s -> substring fence_close (skipn (length fence_open) s).
Proof.
  intros (pre & op & mid & post & -> & E).
  apply fence_open_length in E.
  exists (skipn 7 (pre ++ op ++ mid)), post.
  change (length fence_open) with 7%nat.
  replace (pre ++ op ++ mid ++ fence_close ++ post)
    with ((pre ++ op ++ mid) ++ fence_close ++ post)
    by (now rewrite <- !app_assoc).
  rewrite skipn_app.
  replace (7 - length (pre ++ op ++ mid))%nat with 0%nat
    by (rewrite !length_app; lia).
  reflexivity.
Qed.

Lemma has_fence_tail (c : char) (s : jsstring) :
  has_fence (c :: s) -> starts_with_ic true fence_open (c :: s) = false ->
  has_fence s.
Proof.
  intros (pre & op & mid & post & H & E) N.
  destruct pre as [|c' pre]; simpl in H.
  - assert (starts_with_ic true fence_open (c :: s) = true).
    { apply starts_with_ic_spec. exists op, (mid ++ fence_close ++ post).
      split; assumption. }
    congruence.
  - injection H as _ ->. now exists pre, op, mid, post.
Qed.

Lemma has_fence_find (s : jsstring) : has_fence s -> find_fence s <> None.
Proof.
  induction s as [|c s IH]; intros H.
  - destruct H as (pre & op & mid & post & H & E).
    apply fence_open_length in E. apply (f_equal (@length _)) in H.
    rewrite !length_app in H. simpl in H. lia.
  - cbn [find_fence].
    destruct (fence_at (c :: s)) as [[b a]|] eqn:F; [discriminate|].
    destruct (starts_with_ic true fence_open (c :: s)) eqn:S.
    + destruct (fence_at_some _ S (has_fence_skip _ H)) as (b & a & F').
      congruence.
    + apply IH. eapply has_fence_tail; eassumption.
Qed.

Lemma fence_at_spec (s body post : jsstring) :
  fence_at s = Some (body, post) ->
  exists op ws, fenced_at s [] op ws body post.
Proof.
  unfold fence_at. destruct (starts_with_ic true fence_open s) eqn:S; [|discriminate].
  apply starts_with_ic_spec in S as (op & tl & -> & E).
  rewrite <- (fence_open_length op E) at 1.
  rewrite skipn_app, skipn_all, Nat.sub_diag. cbn [skipn app].
  destruct (drop_while_spec is_space tl) as (ws & Htl & Hws & Hhd).
  intros F. apply split_at_spec in F as [Hd Hmin].
  exists op, ws. unfold fenced_at. rewrite <- Hd. cbn [app].
  repeat split; try assumption. now rewrite <- Htl.
Qed.

Lemma fenced_has_fence (text pre op ws body post : jsstring) :
  fenced_at text pre op ws body post -> has_fence text.
Proof.
  intros (-> & E & _). exists pre, op, (ws ++ body), post.
  rewrite <- app_assoc. now split.
Qed.

Lemma find_fence_spec (s body : jsstring) :
  find_fence s = Some body ->
  exists pre op ws post,
    fenced_at s pre op ws body post /\ first_opener s pre.
Proof.
  induction s as [|c s IH]; cbn [find_fence].
  - destruct (fence_at []) as [[b a]|] eqn:F; [|discriminate].
    intros H; injection H as ->.
    destruct (fence_at_spec _ _ _ F) as (op & ws & H).
    exists [], op, ws, a. split; [assumption|]. intros ? ? ? _ _. simpl; lia.
  - destruct (fence_at (c :: s)) as [[b a]|] eqn:F.
    + intros H; injection H as ->.
      destruct (fence_at_spec _ _ _ F) as (op & ws & H).
      exists [], op, ws, a. split; [assumption|]. intros ? ? ? _ _. simpl; lia.
    + intros H. destruct (IH H) as (pre & op & ws & post & Hf & Hfirst).
      exists (c :: pre), op, ws, post. split.
      * destruct Hf as (-> & Hrest). split; [reflexivity | exact Hrest].
      * intros pre' op' post' Htext E.
        destruct pre' as [|c' pre']; simpl in Htext.
        -- exfalso.
           assert (S : starts_with_ic true fence_open (c :: s) = true)
             by (apply starts_with_ic_spec; now exists op', post').
           assert (Hs : has_fence (c :: s)).
           { destruct Hf as (-> & E' & _).
             exists (c :: pre), op, (ws ++ body), post.
             rewrite <- app_assoc. now split. }
           destruct (fence_at_some _ S (has_fence_skip _ Hs)) as (b & a & F').
           congruence.
        -- injection Htext as _ Htext. simpl.
           apply le_n_S. eapply Hfirst; eassumption.
Qed.

Lemma find_fence_none (s : jsstring) : find_fence s = None <-> ~ has_fence s.
Proof.
  split.
  - intros H F. now apply has_fence_find in F.
  - intros H. destruct (find_fence s) as [body|] eqn:E; [|reflexivity].
    exfalso. apply H.
    destruct (find_fence_spec _ _ E) as (pre & op & ws & post & Hf & _).
    eapply fenced_has_fence; eassumption.
Qed.

(** * [indexOf], [lastIndexOf] and [slice] on single code units *)

Lemma starts_with_single (c : char) (s : jsstring) :
  starts_with [c] s = match s with d :: _ => (c =? d)%N | [] => false end.
Proof. destruct s; cbn [starts_with]; [reflexivity | apply andb_true_r]. Qed.

Lemma indexOf_from_first (c : char) (p r : jsstring) (i : Z) :
  ~ In c p -> indexOf_from [c] (p ++ c :: r) i = i + Z.of_nat (length p).
Proof.
  revert i; induction p as [|d p IH]; intros i H; cbn [indexOf_from app].
  - rewrite starts_with_single, N.eqb_refl. simpl; lia.
  - rewrite starts_with_single.
    destruct (N.eqb_spec c d) as [->|_]; [exfalso; apply H; now left|].
    rewrite IH by (intros F; apply H; now right).
    cbn [length]. lia.
Qed.

Lemma indexOf_from_none (c : char) (s : jsstring) (i : Z) :
  ~ In c s -> indexOf_from [c] s i = -1.
Proof.
  revert i; induction s as [|d s IH]; intros i H; cbn [indexOf_from].
  - reflexivity.
  - rewrite starts_with_single.
    destruct (N.eqb_spec c d) as [->|_]; [exfalso; apply H; now left|].
    apply IH. intros F; apply H; now right.
Qed.

Lemma lastIndexOf_from_none (c : char) (s : jsstring) (i acc : Z) :
  ~ In c s -> lastIndexOf_from [c] s i acc = acc.
Proof.
  revert i; induction s as [|d s IH]; intros i H; cbn [lastIndexOf_from].
  - reflexivity.
  - rewrite starts_with_single.
    destruct (N.eqb_spec c d) as [->|_]; [exfalso; apply H; now left|].
    apply IH. intros F; apply H; now right.
Qed.

Lemma lastIndexOf_from_last (c : char) (p r : jsstring) (i acc : Z) :
  ~ In c r -> lastIndexOf_from [c] (p ++ c :: r) i acc = i + Z.of_nat (length p).
Proof.
  revert i acc; induction p as [|d p IH]; intros i acc H;
    cbn [lastIndexOf_from app].
  - rewrite starts_with_single, N.eqb_refl.
    rewrite lastIndexOf_from_none by assumption. simpl; lia.
  - rewrite IH by assumption. cbn [length]. lia.
Qed.

Lemma in_first_split (c : char) (s : jsstring) :
  In c s -> exists p r, s = p ++ c :: r /\ ~ In c p.
Proof.
  induction s as [|d s IH]; [intros []|]. intros H.
  destruct (N.eq_dec c d) as [->|N].
  - exists [], s. split; [reflexivity | intros []].
  - destruct H as [->|H]; [congruence|].
    destruct (IH H) as (p & r & -> & Hp).
    exists (d :: p), r. split; [reflexivity|].
    intros [F|F]; [congruence | contradiction].
Qed.

Lemma in_last_split (c : char) (s : jsstring) :
  In c s -> exists p r, s = p ++ c :: r /\ ~ In c r.
Proof.
  induction s as [|d s IH]; [intros []|]. intros H.
  destruct (in_dec N.eq_dec c s) as [Hs|Hs].
  - destruct (IH Hs) as (p & r & -> & Hr). now exists (d :: p), r.
  - destruct H as [->|H]; [|contradiction]. now exists [], s.
Qed.

Lemma slice_within (s : jsstring) (a b : nat) :
  (a <= length s)%nat -> (b <= length s)%nat ->
  slice s (Z.of_nat a) (Z.of_nat b) = firstn (b - a) (skipn a s).
Proof.
  intros Ha Hb. unfold slice.
  destruct (Z.ltb_spec (Z.of_nat a) 0); [lia|].
  destruct (Z.ltb_spec (Z.of_nat b) 0); [lia|].
  rewrite !Z.min_l by lia.
  rewrite Nat2Z.id. f_equal. lia.
Qed.

Lemma slice_braces (p1 mid r2 : jsstring) :
  slice (p1 ++ lbrace :: mid ++ rbrace :: r2)
        (Z.of_nat (length p1))
        (Z.of_nat (length (p1 ++ lbrace :: mid)) + 1)
  = lbrace :: mid ++ [rbrace].
Proof.
  replace (Z.of_nat (length (p1 ++ lbrace :: mid)) + 1)
    with (Z.of_nat (S (length (p1 ++ lbrace :: mid)))) by lia.
  rewrite slice_within
    by (rewrite ?length_app; cbn [length]; rewrite ?length_app; cbn [length]; lia).
  rewrite skipn_app, skipn_all, Nat.sub_diag. cbn [skipn app].
  replace (S (length (p1 ++ lbrace :: mid)) - length p1)%nat
    with (length (lbrace :: mid ++ [rbrace]))
    by (cbn [length]; rewrite !length_app; cbn [length]; lia).
  change (lbrace :: mid ++ rbrace :: r2) with ((lbrace :: mid) ++ [rbrace] ++ r2).
  rewrite app_assoc.
  change ((lbrace :: mid) ++ [rbrace]) with (lbrace :: mid ++ [rbrace]).
  rewrite firstn_app, firstn_all, Nat.sub_diag. cbn [firstn]. apply app_nil_r.
Qed.

Lemma slice_crossed (s : jsstring) (a b : nat) :
  (b < a)%nat -> (a <= length s)%nat ->
  slice s (Z.of_nat a) (Z.of_nat b + 1) = [].
Proof.
  intros H L. replace (Z.of_nat b + 1) with (Z.of_nat (S b)) by lia.
  rewrite slice_within by lia.
  replace (S b - a)%nat with 0%nat by lia. reflexivity.
Qed.

(** * Order facts about binary64 numbers

    The comparison function of the ranking subtracts two totals and looks
    at the sign.  On numbers other than NaN the sign of the difference
    agrees with the order of the operands; the proof goes through the
    specification of the primitive operations ([SpecFloat]). *)

Module FloatOrder.

Lemma digits2_pos_bounds (m : positive) :
  2 ^ (Zpos (digits2_pos m) - 1) <= Zpos m < 2 ^ Zpos (digits2_pos m).
Proof.
  induction m as [m IH|m IH|]; cbn [digits2_pos].
  - rewrite Pos2Z.inj_succ.
    replace (Z.succ (Zpos (digits2_pos m)) - 1) with (Z.succ (Zpos (digits2_pos m) - 1)) by lia.
    rewrite !Z.pow_succ_r by lia. lia.
  - rewrite Pos2Z.inj_succ.
    replace (Z.succ (Zpos (digits2_pos m)) - 1) with (Z.succ (Zpos (digits2_pos m) - 1)) by lia.
    rewrite !Z.pow_succ_r by lia. lia.
  - simpl. lia.
Qed.

Lemma valid_finite (s : bool) (m : positive) (e : Z) :
  valid_binary (S754_finite s m e) = true ->
  -1074 <= e <= 971 /\ Zpos (digits2_pos m) <= 53 /\
  (-1074 < e -> Zpos (digits2_pos m) = 53).
Proof.
  cbn [SpecFloat.valid_binary]. unfold bounded, canonical_mantissa, SpecFloat.fexp, SpecFloat.emin.
  change prec with 53. change emax with 1024.
  intros H. apply andb_true_iff in H as [H1 H2].
  apply Z.eqb_eq in H1. apply Z.leb_le in H2. lia.
Qed.

Lemma finite_magnitude (s : bool) (m : positive) (e : Z) :
  valid_binary (S754_finite s m e) = true ->
  0 < Zpos m * 2 ^ (e + 1074) < 2 ^ 2098.
Proof.
  intros H. apply valid_finite in H as (He & Hd & _).
  pose proof (digits2_pos_bounds m) as [_ Hm].
  assert (Zpos m < 2 ^ 53).
  { eapply Z.lt_le_trans; [exact Hm|]. apply Z.pow_le_mono_r; lia. }
  assert (0 < 2 ^ (e + 1074)) by (apply Z.pow_pos_nonneg; lia).
  assert (2 ^ (e + 1074) <= 2 ^ 2045) by (apply Z.pow_le_mono_r; lia).
  replace (2 ^ 2098) with (2 ^ 53 * 2 ^ 2045) by (rewrite <- Z.pow_add_r by lia; reflexivity).
  split; [lia|].
  apply Z.lt_le_trans with (2 ^ 53 * 2 ^ (e + 1074)).
  - apply Z.mul_lt_mono_pos_r; lia.
  - apply Z.mul_le_mono_nonneg_l; lia.
Qed.

Lemma finite_lt_by_exponent (s1 s2 : bool) (m1 m2 : positive) (e1 e2 : Z) :
  valid_binary (S754_finite s1 m1 e1) = true ->
  valid_binary (S754_finite s2 m2 e2) = true ->
  e1 < e2 ->
  Zpos m1 * 2 ^ (e1 + 1074) < Zpos m2 * 2 ^ (e2 + 1074).
Proof.
  intros H1 H2 L.
  apply valid_finite in H1 as (He1 & Hd1 & _).
  apply valid_finite in H2 as (He2 & _ & Hd2).
  specialize (Hd2 ltac:(lia)).
  pose proof (digits2_pos_bounds m1) as [_ U1].
  pose proof (digits2_pos_bounds m2) as [L2 _]. rewrite Hd2 in L2.
  assert (U : Zpos m1 < 2 ^ 53).
  { eapply Z.lt_le_trans; [exact U1|]. apply Z.pow_le_mono_r; lia. }
  replace (e2 + 1074) with ((e2 - e1 - 1) + 1 + (e1 + 1074)) by lia.
  rewrite (Z.pow_add_r 2 (e2 - e1 - 1 + 1) (e1 + 1074)) by lia.
  rewrite (Z.pow_add_r 2 (e2 - e1 - 1) 1) by lia.
  assert (0 < 2 ^ (e1 + 1074)) by (apply Z.pow_pos_nonneg; lia).
  assert (1 <= 2 ^ (e2 - e1 - 1)) by (apply (Z.pow_le_mono_r 2 0); lia).
  change (2 ^ 53) with (2 * 2 ^ 52) in U. change (53 - 1) with 52 in L2.
  change (2 ^ 1) with 2.
  set (P := 2 ^ (e1 + 1074)) in *. set (Q := 2 ^ (e2 - e1 - 1)) in *.
  set (T := 2 ^ 52) in *.
  assert (Zpos m1 * P < 2 * T * P) by (apply Z.mul_lt_mono_pos_r; lia).
  assert (2 * T * P <= 2 * Zpos m2 * P) by (apply Z.mul_le_mono_nonneg_r; lia).
  assert (2 * Zpos m2 * P * 1 <= 2 * Zpos m2 * P * Q)
    by (apply Z.mul_le_mono_nonneg_l; lia).
  lia.
Qed.

Ltac order_goal :=
  match goal with
  | |- Some Lt = Some (_ ?= _) => symmetry; f_equal; apply Z.compare_lt_iff
  | |- Some Gt = Some (_ ?= _) => symmetry; f_equal; apply Z.compare_gt_iff
  | |- Some Eq = Some (_ ?= _) => symmetry; f_equal; apply Z.compare_eq_iff
  end.

Lemma key_compare (x y : spec_float) :
  valid_binary x = true -> valid_binary y = true ->
  x <> S754_nan -> y <> S754_nan ->
  SFcompare x y = Some (key x ?= key y).
Proof.
  intros Vx Vy Nx Ny.
  destruct x as [sx|sx| |sx mx ex]; try congruence;
    destruct y as [sy|sy| |sy my ey]; try congruence;
    try pose proof (finite_magnitude _ _ _ Vx) as Mx;
    try pose proof (finite_magnitude _ _ _ Vy) as My;
    assert (0 < 2 ^ 2098) by (apply Z.pow_pos_nonneg; lia);
    cbn [SFcompare key].
  all: try solve [ repeat match goal with s : bool |- _ => destruct s end;
                   cbn [cond_Zopp]; first [reflexivity | order_goal; lia] ].
  destruct sx, sy; cbn [cond_Zopp]; try (order_goal; lia).
  - (* both negative *)
    rewrite Z.compare_opp.
    destruct (Z.compare_spec ex ey) as [->|L|L].
    + rewrite <- Zmult_compare_compat_r by lia.
      change (Pos.compare_cont Eq mx my) with (Z.compare (Zpos mx) (Zpos my)).
      now rewrite <- Z.compare_antisym.
    + order_goal. pose proof (finite_lt_by_exponent _ _ _ _ _ _ Vx Vy L). lia.
    + order_goal. pose proof (finite_lt_by_exponent _ _ _ _ _ _ Vy Vx L). lia.
  - (* both positive *)
    destruct (Z.compare_spec ex ey) as [->|L|L].
    + rewrite <- Zmult_compare_compat_r by lia. reflexivity.
    + order_goal. apply (finite_lt_by_exponent _ _ _ _ _ _ Vx Vy L).
    + order_goal. pose proof (finite_lt_by_exponent _ _ _ _ _ _ Vy Vx L). lia.
Qed.

(** ** Rounding a non-zero value never yields zero *)

Lemma shr_1_m (mrs : shr_record) :
  0 <= shr_m mrs -> shr_m (shr_1 mrs) = shr_m mrs / 2.
Proof.
  destruct mrs as [m r s]. cbn [shr_m]. intros H.
  rewrite <- Z.div2_div.
  destruct m as [|[p|p|]|p]; try reflexivity; lia.
Qed.

Lemma iter_shr_1 (p : positive) (mrs : shr_record) :
  0 <= shr_m mrs ->
  shr_m (iter_pos shr_1 p mrs) = shr_m mrs / 2 ^ Zpos p.
Proof.
  revert mrs; induction p as [p IH|p IH|]; intros mrs H; cbn [iter_pos].
  - assert (H1 : 0 <= shr_m (shr_1 mrs))
      by (rewrite shr_1_m by assumption; apply Z.div_pos; lia).
    assert (P : 0 < 2 ^ Zpos p) by (apply Z.pow_pos_nonneg; lia).
    assert (H2 : 0 <= shr_m (iter_pos shr_1 p (shr_1 mrs)))
      by (rewrite IH by assumption; apply Z.div_pos; lia).
    rewrite IH, IH, shr_1_m by assumption.
    rewrite !Z.div_div by lia. f_equal.
    rewrite (Pos2Z.inj_xI p), Z.pow_add_r, Z.pow_mul_r by lia.
    change (2 ^ 2) with 4. change (2 ^ 1) with 2.
    replace (4 ^ Zpos p) with (2 ^ Zpos p * 2 ^ Zpos p).
    + lia.
    + rewrite <- Z.pow_mul_l. reflexivity.
  - assert (P : 0 < 2 ^ Zpos p) by (apply Z.pow_pos_nonneg; lia).
    assert (H2 : 0 <= shr_m (iter_pos shr_1 p mrs))
      by (rewrite IH by assumption; apply Z.div_pos; lia).
    rewrite IH, IH by assumption.
    rewrite Z.div_div by lia. f_equal.
    rewrite (Pos2Z.inj_xO p), Z.pow_mul_r by lia.
    change (2 ^ 2) with 4. rewrite <- Z.pow_mul_l. reflexivity.
  - rewrite shr_1_m by assumption. reflexivity.
Qed.

Lemma shr_record_of_loc_m (m : Z) (l : location) :
  shr_m (shr_record_of_loc m l) = m.
Proof. destruct l as [|[]]; reflexivity. Qed.

Lemma shr_fexp_pos (m e : Z) (l : location) :
  0 < m -> -1074 <= e ->
  0 < shr_m (fst (shr_fexp prec emax m e l)) /\
  -1074 <= snd (shr_fexp prec emax m e l).
Proof.
  intros Hm He. unfold shr_fexp, shr, SpecFloat.fexp, SpecFloat.emin.
  change prec with 53. change emax with 1024.
  destruct m as [|p|p]; try lia. cbn [Zdigits2].
  pose proof (digits2_pos_bounds p) as [L _].
  set (d := Zpos (digits2_pos p)) in *.
  destruct (Z.max (d + e - 53) (3 - 1024 - 53) - e) as [|n|n] eqn:E;
    cbn [fst snd]; rewrite ?shr_record_of_loc_m; try (split; lia).
  split; [|lia].
  rewrite iter_shr_1 by (rewrite shr_record_of_loc_m; lia).
  rewrite shr_record_of_loc_m.
  apply Z.div_str_pos. split; [apply Z.pow_pos_nonneg; lia|].
  eapply Z.le_trans; [|exact L]. apply Z.pow_le_mono_r; lia.
Qed.

Lemma round_nearest_even_pos (m : Z) (l : location) :
  0 < m -> 0 < round_nearest_even m l.
Proof.
  intros H. destruct l as [|[]]; cbn [round_nearest_even]; try lia.
  destruct (Z.even m); lia.
Qed.

Lemma binary_round_aux_signed (s : bool) (m e : Z) (l : location) :
  0 < m -> -1074 <= e -> signed s (binary_round_aux prec emax s m e l).
Proof.
  intros Hm He. unfold binary_round_aux.
  pose proof (shr_fexp_pos m e l Hm He) as [H1 H2].
  destruct (shr_fexp prec emax m e l) as [mrs1 e1]. cbn [fst snd] in H1, H2.
  pose proof (round_nearest_even_pos _ (loc_of_shr_record mrs1) H1) as H3.
  pose proof (shr_fexp_pos _ e1 loc_Exact H3 H2) as [H4 _].
  destruct (shr_fexp prec emax _ e1 loc_Exact) as [mrs2 e2]. cbn [fst] in H4.
  destruct (shr_m mrs2) as [|q|q]; try lia.
  destruct (e2 <=? emax - prec); [left; now exists q, e2 | now right].
Qed.

Lemma binary_round_signed (s : bool) (m : positive) (e : Z) :
  -1074 <= e -> signed s (binary_round prec emax s m e).
Proof.
  intros He. unfold binary_round.
  destruct (shl_align m e _) as [mz ez] eqn:E.
  apply binary_round_aux_signed; [lia|].
  unfold shl_align, SpecFloat.fexp, SpecFloat.emin in E.
  change prec with 53 in E. change emax with 1024 in E.
  destruct (Z.max _ _ - e) eqn:F; injection E as <- <-; lia.
Qed.

Lemma zero_lt_signed (s : bool) (z : spec_float) :
  signed s z -> SFltb (S754_zero false) z = negb s.
Proof. intros [(m & e & ->)| ->]; destruct s; reflexivity. Qed.

Lemma shl_align_value (m : positive) (e ez : Z) :
  ez <= e -> Zpos (fst (shl_align m e ez)) = Zpos m * 2 ^ (e - ez).
Proof.
  intros H. unfold shl_align.
  destruct (ez - e) as [|d|d] eqn:E; cbn [fst]; try lia.
  - replace (e - ez) with 0 by lia. lia.
  - change (Pos.iter xO m d) with (shift_pos d m).
    rewrite shift_pos_correct. replace (e - ez) with (Zpos d) by lia.
    rewrite Z.mul_comm. reflexivity.
Qed.

Lemma key_aligned (s : bool) (m : positive) (e ez : Z) :
  -1074 <= ez <= e ->
  key (S754_finite s m e)
  = cond_Zopp s (Zpos (fst (shl_align m e ez))) * 2 ^ (ez + 1074).
Proof.
  intros H. cbn [key]. rewrite shl_align_value by lia.
  replace (e + 1074) with ((e - ez) + (ez + 1074)) by lia.
  rewrite Z.pow_add_r by lia.
  destruct s; cbn [cond_Zopp]; lia.
Qed.

(** The sign of a difference is the order of its operands. *)
Lemma sub_sign (x y : spec_float) :
  valid_binary x = true -> valid_binary y = true ->
  x <> S754_nan -> y <> S754_nan ->
  SFltb (S754_zero false) (SF64sub x y) = (key y <? key x).
Proof.
  intros Vx Vy Nx Ny.
  destruct x as [sx|sx| |sx mx ex]; try congruence;
    destruct y as [sy|sy| |sy my ey]; try congruence;
    try pose proof (finite_magnitude _ _ _ Vx) as Mx;
    try pose proof (finite_magnitude _ _ _ Vy) as My;
    assert (0 < 2 ^ 2098) by (apply Z.pow_pos_nonneg; lia);
    unfold SF64sub; cbn [SFsub key].
  all: try solve [ repeat match goal with s : bool |- _ => destruct s end;
                   cbn [cond_Zopp negb SFltb SFcompare];
                   symmetry; first [apply Z.ltb_lt | apply Z.ltb_ge]; lia ].
  pose proof (valid_finite _ _ _ Vx) as (Hx & _).
  pose proof (valid_finite _ _ _ Vy) as (Hy & _).
  pose proof (key_aligned sx mx ex (Z.min ex ey) ltac:(lia)) as Kx.
  pose proof (key_aligned sy my ey (Z.min ex ey) ltac:(lia)) as Ky.
  cbn [key] in Kx, Ky. rewrite Kx, Ky.
  assert (P : 0 < 2 ^ (Z.min ex ey + 1074)) by (apply Z.pow_pos_nonneg; lia).
  set (a := cond_Zopp sx (Zpos (fst (shl_align mx ex (Z.min ex ey))))) in *.
  set (b := cond_Zopp sy (Zpos (fst (shl_align my ey (Z.min ex ey))))) in *.
  unfold binary_normalize.
  destruct (a - b) as [|d|d] eqn:D.
  - cbn. symmetry. apply Z.ltb_ge. nia.
  - rewrite (zero_lt_signed false) by (apply binary_round_signed; lia).
    symmetry. apply Z.ltb_lt. nia.
  - rewrite (zero_lt_signed true) by (apply binary_round_signed; lia).
    symmetry. apply Z.ltb_ge. nia.
Qed.

End FloatOrder.

(** ** The same facts on primitive numbers *)

Lemma not_nan_spec (x : number) : is_nan x = false -> Prim2SF x <> S754_nan.
Proof.
  unfold is_nan. rewrite eqb_spec. intros H E. rewrite E in H. discriminate.
Qed.

Lemma compare_nkey (x y : number) :
  is_nan x = false -> is_nan y = false ->
  SFcompare (Prim2SF x) (Prim2SF y) = Some (nkey x ?= nkey y).
Proof.
  intros Hx Hy. apply FloatOrder.key_compare;
    auto using Prim2SF_valid, not_nan_spec.
Qed.

Lemma ltb_nkey (x y : number) :
  is_nan x = false -> is_nan y = false ->
  (x <? y)%float = (nkey x <? nkey y).
Proof.
  intros Hx Hy. rewrite ltb_spec. unfold SFltb.
  rewrite compare_nkey by assumption. reflexivity.
Qed.

Lemma leb_nkey (x y : number) :
  is_nan x = false -> is_nan y = false ->
  (x <=? y)%float = (nkey x <=? nkey y).
Proof.
  intros Hx Hy. rewrite leb_spec. unfold SFleb, Z.leb.
  rewrite compare_nkey by assumption. now destruct (nkey x ?= nkey y).
Qed.

Lemma eqb_nkey (x y : number) :
  is_nan x = false -> is_nan y = false ->
  (x =? y)%float = (nkey x =? nkey y).
Proof.
  intros Hx Hy. rewrite eqb_spec. unfold SFeqb, Z.eqb.
  rewrite compare_nkey by assumption.
  destruct (Z.compare_spec (nkey x) (nkey y)) as [E|L|L].
  - rewrite E. destruct (nkey y); reflexivity || (cbn; now rewrite Pos.eqb_refl).
  - destruct (nkey x), (nkey y); try reflexivity; try lia;
      cbn; symmetry; apply Pos.eqb_neq; lia.
  - destruct (nkey x), (nkey y); try reflexivity; try lia;
      cbn; symmetry; apply Pos.eqb_neq; lia.
Qed.

Lemma nan_spec (t : number) : is_nan t = true -> Prim2SF t = S754_nan.
Proof.
  unfold is_nan. rewrite eqb_spec. intros H.
  pose proof (Prim2SF_valid t) as Vt.
  destruct (Prim2SF t) as [s|s| |s m e] eqn:E; [exfalso..|reflexivity|exfalso];
    unfold SFeqb in H;
    rewrite FloatOrder.key_compare in H by (assumption || discriminate);
    rewrite Z.compare_refl in H; discriminate.
Qed.

Lemma eqb_nan_r (x t : number) : is_nan t = true -> (x =? t)%float = false.
Proof.
  intros H. rewrite eqb_spec, (nan_spec t H). unfold SFeqb.
  now destruct (Prim2SF x).
Qed.

(** [comparefn(x, y) > 0] for [comparefn = (a,b)=> b - a]: [a < b]. *)
Lemma sub_pos (x y : number) :
  is_nan x = false -> is_nan y = false ->
  (0 <? y - x)%float = (x <? y)%float.
Proof.
  intros Hx Hy. rewrite (ltb_nkey x y) by assumption.
  rewrite ltb_spec, sub_spec.
  change (Prim2SF 0) with (S754_zero false).
  apply FloatOrder.sub_sign; auto using Prim2SF_valid, not_nan_spec.
Qed.

(** * The insertion sort behind [Array.prototype.sort] *)

Section SortFacts.
Context {A : Type}.
Variable comparefn : A -> A -> number.
Variable k : A -> Z.
Variable ok : A -> Prop.
Hypothesis behind_key :
  forall x y, ok x -> ok y -> behind comparefn x y = (k x <? k y).

Lemma insert_perm (x : A) (l : list A) :
  Permutation (x :: l) (insert comparefn x l).
Proof.
  induction l as [|y l IH]; cbn [insert]; [reflexivity|].
  destruct (behind comparefn x y); [|reflexivity].
  rewrite perm_swap. now constructor.
Qed.

Lemma sort_perm (l : list A) : Permutation l (sort comparefn l).
Proof.
  induction l as [|x l IH]; cbn [sort]; [reflexivity|].
  rewrite <- insert_perm. now constructor.
Qed.

Lemma insert_sorted (x : A) (l : list A) :
  ok x -> Forall ok l ->
  StronglySorted (fun a b => k b <= k a) l ->
  StronglySorted (fun a b => k b <= k a) (insert comparefn x l).
Proof.
  intros Hx Hl Hs. induction Hs as [|y l Hs IH Hy]; cbn [insert].
  - repeat constructor.
  - inversion Hl as [|? ? Oy Ol]; subst.
    rewrite behind_key by assumption.
    destruct (Z.ltb_spec (k x) (k y)) as [L|L].
    + constructor; [now apply IH|].
      rewrite <- insert_perm. constructor; [lia | assumption].
    + constructor; [now constructor|].
      constructor; [assumption|].
      eapply Forall_impl; [|exact Hy]. cbn. intros; lia.
Qed.

Lemma sort_sorted (l : list A) :
  Forall ok l -> StronglySorted (fun a b => k b <= k a) (sort comparefn l).
Proof.
  induction 1 as [|x l Hx Hl IH]; cbn [sort]; [constructor|].
  apply insert_sorted; try assumption.
  now rewrite <- sort_perm.
Qed.

Lemma insert_stable (c : Z) (x : A) (l : list A) :
  ok x -> Forall ok l ->
  filter (fun a => k a =? c) (insert comparefn x l)
  = filter (fun a => k a =? c) (x :: l).
Proof.
  intros Hx Hl. induction Hl as [|y l Hy Hl IH]; cbn [insert]; [reflexivity|].
  rewrite behind_key by assumption.
  destruct (Z.ltb_spec (k x) (k y)) as [L|L]; [|reflexivity].
  cbn [filter] in *. rewrite IH.
  destruct (Z.eqb_spec (k x) c), (Z.eqb_spec (k y) c); try reflexivity; lia.
Qed.

Lemma sort_stable (c : Z) (l : list A) :
  Forall ok l ->
  filter (fun a => k a =? c) (sort comparefn l) = filter (fun a => k a =? c) l.
Proof.
  induction 1 as [|x l Hx Hl IH]; cbn [sort]; [reflexivity|].
  rewrite insert_stable by (try assumption; now rewrite <- sort_perm).
  cbn [filter]. now rewrite IH.
Qed.

End SortFacts.

(** * Which rule of [extractJson] applies *)

Lemma extractJson_no_fence (text : jsstring) :
  ~ has_fence text ->
  extractJson text =
  (if negb (indexOf text [lbrace] =? -1) && negb (lastIndexOf text [rbrace] =? -1)
   then slice text (indexOf text [lbrace]) (lastIndexOf text [rbrace] + 1)
   else text)
  /\ extractJson_rule text =
     (if negb (indexOf text [lbrace] =? -1) && negb (lastIndexOf text [rbrace] =? -1)
      then ByBraces else ByRaw).
Proof.
  intros H. apply find_fence_none in H. split.
  - rewrite extractJson_scan, H. reflexivity.
  - unfold extractJson_rule. apply exec_fence_re_none in H. rewrite H. reflexivity.
Qed.

Lemma indexOf_first (c : char) (p r : jsstring) :
  ~ In c p -> indexOf (p ++ c :: r) [c] = Z.of_nat (length p).
Proof. intros H. unfold indexOf. now rewrite indexOf_from_first. Qed.

Lemma lastIndexOf_last (c : char) (p r : jsstring) :
  ~ In c r -> lastIndexOf (p ++ c :: r) [c] = Z.of_nat (length p).
Proof. intros H. unfold lastIndexOf. now rewrite lastIndexOf_from_last. Qed.

Lemma extractJson_both_braces (text p1 r1 p2 r2 : jsstring) :
  ~ has_fence text ->
  text = p1 ++ lbrace :: r1 -> ~ In lbrace p1 ->
  text = p2 ++ rbrace :: r2 -> ~ In rbrace r2 ->
  extractJson text = slice text (Z.of_nat (length p1)) (Z.of_nat (length p2) + 1)
  /\ extractJson_rule text = ByBraces.
Proof.
  intros Hf H1 N1 H2 N2.
  destruct (extractJson_no_fence text Hf) as [E R]. rewrite E, R.
  assert (A : indexOf text [lbrace] = Z.of_nat (length p1))
    by (rewrite H1; now apply indexOf_first).
  assert (B : lastIndexOf text [rbrace] = Z.of_nat (length p2))
    by (rewrite H2; now apply lastIndexOf_last).
  rewrite A, B.
  destruct (Z.eqb_spec (Z.of_nat (length p1)) (-1)); [lia|].
  destruct (Z.eqb_spec (Z.of_nat (length p2)) (-1)); [lia|].
  split; reflexivity.
Qed.

Lemma braces_region (p1 r1 p2 r2 : jsstring) :
  p1 ++ lbrace :: r1 = p2 ++ rbrace :: r2 -> (length p1 < length p2)%nat ->
  exists mid, p2 = p1 ++ lbrace :: mid /\ r1 = mid ++ rbrace :: r2.
Proof.
  intros H L. apply app_eq_app in H as [l [[-> _]|[-> H]]].
  - rewrite length_app in L. lia.
  - destruct l as [|d mid]; [rewrite length_app in L; simpl in L; lia|].
    injection H as <- ->. now exists mid.
Qed.

(** C2. [extractJson] selects its candidate by three rules in order.
    (1) When the text holds a json fence (an opener matching [```json]
    without regard to case, and a closing [```] somewhere after it), the
    result is the interior of the first such fence: what stands between
    the whitespace run following the first opener and the first closing
    marker after that run.  (2) Otherwise, when the text holds both braces,
    the result is [text.slice(a, b+1)] for [a] the index of the first
    opening brace and [b] the index of the last closing brace, which is the
    region from the one to the other, both included, when [a < b].
    (3) Otherwise the result is the text itself. *)
Theorem extractJson_precedence (text : jsstring) :
  (has_fence text ->
     exists pre op ws body post,
       fenced_at text pre op ws body post /\ first_opener text pre /\
       extractJson text = body)
  /\
  (~ has_fence text -> In lbrace text -> In rbrace text ->
     exists p1 r1 p2 r2,
       text = p1 ++ lbrace :: r1 /\ ~ In lbrace p1 /\
       text = p2 ++ rbrace :: r2 /\ ~ In rbrace r2 /\
       extractJson text =
         slice text (Z.of_nat (length p1)) (Z.of_nat (length p2) + 1) /\
       ((length p1 < length p2)%nat ->
          exists mid, text = p1 ++ lbrace :: mid ++ rbrace :: r2 /\
                      extractJson text = lbrace :: mid ++ [rbrace]))
  /\
  (~ has_fence text -> ~ (In lbrace text /\ In rbrace text) ->
     extractJson text = text).
Proof.
  split; [|split].
  - intros H. destruct (find_fence text) as [body|] eqn:E.
    + destruct (find_fence_spec _ _ E) as (pre & op & ws & post & Hf & H1).
      exists pre, op, ws, body, post.
      split; [assumption | split; [assumption|]].
      now rewrite extractJson_scan, E.
    + now apply has_fence_find in H.
  - intros Hf Hl Hr.
    destruct (in_first_split _ _ Hl) as (p1 & r1 & H1 & N1).
    destruct (in_last_split _ _ Hr) as (p2 & r2 & H2 & N2).
    exists p1, r1, p2, r2.
    destruct (extractJson_both_braces text p1 r1 p2 r2 Hf H1 N1 H2 N2) as [E _].
    repeat split; try assumption.
    intros L. assert (H := H2). rewrite H1 in H at 1.
    destruct (braces_region _ _ _ _ H L) as (mid & -> & ->).
    exists mid. split; [exact H1|].
    rewrite E, H1. apply slice_braces.
  - intros Hf Hb.
    destruct (extractJson_no_fence text Hf) as [E _]. rewrite E.
    destruct (in_dec N.eq_dec lbrace text) as [Hl|Hl].
    + destruct (in_dec N.eq_dec rbrace text) as [Hr|Hr]; [tauto|].
      unfold lastIndexOf. rewrite lastIndexOf_from_none by assumption.
      rewrite andb_false_r. reflexivity.
    + unfold indexOf. rewrite indexOf_from_none by assumption. reflexivity.
Qed.

Lemma no_fence_by_scan (text : jsstring) :
  find_fence text = None -> ~ has_fence text.
Proof. apply find_fence_none. Qed.

Lemma extractJson_precedence_witness :
  let text := str "Scores: {a} and {b}. Done" in
  (~ has_fence text /\ In lbrace text /\ In rbrace text) /\
  exists p1 r1 p2 r2,
    text = p1 ++ lbrace :: r1 /\ ~ In lbrace p1 /\
    text = p2 ++ rbrace :: r2 /\ ~ In rbrace r2 /\
    extractJson text =
      slice text (Z.of_nat (length p1)) (Z.of_nat (length p2) + 1) /\
    ((length p1 < length p2)%nat ->
       exists mid, text = p1 ++ lbrace :: mid ++ rbrace :: r2 /\
                   extractJson text = lbrace :: mid ++ [rbrace]).
Proof.
  intros text.
  assert (F : ~ has_fence text)
    by (apply no_fence_by_scan; vm_compute; reflexivity).
  assert (L : In lbrace text) by (vm_compute; tauto).
  assert (R : In rbrace text) by (vm_compute; tauto).
  split; [now repeat split|].
  exact (proj1 (proj2 (extractJson_precedence text)) F L R).
Defined.

(** * Deduplication by URL *)

Lemma jseqb_eq (a b : jsstring) : jseqb a b = true <-> a = b.
Proof.
  revert b; induction a as [|c a IH]; intros [|d b]; cbn [jseqb];
    try (split; [discriminate | congruence]); [tauto|].
  rewrite andb_true_iff, N.eqb_eq, IH. split; [intros [-> ->] | intros H; injection H]; auto.
Qed.

Lemma jseqb_refl (a : jsstring) : jseqb a a = true.
Proof. now apply jseqb_eq. Qed.

Lemma existsb_jseqb (k : jsstring) (seen : list jsstring) :
  existsb (jseqb k) seen = true <-> In k seen.
Proof.
  rewrite existsb_exists. split.
  - intros (x & H & E). apply jseqb_eq in E. now subst.
  - intros H. exists k. split; [assumption | apply jseqb_refl].
Qed.

Lemma Map_has_spec (m : list (jsstring * project)) (k : jsstring) :
  Map_has m k = existsb (jseqb k) (map fst m).
Proof.
  unfold Map_has. induction m as [|[k' v] m IH]; cbn; [reflexivity|].
  rewrite IH. f_equal.
  destruct (jseqb k' k) eqn:E.
  - apply jseqb_eq in E. subst. symmetry. apply jseqb_refl.
  - destruct (jseqb k k') eqn:E'; [|reflexivity].
    apply jseqb_eq in E'. subst. now rewrite jseqb_refl in E.
Qed.

Lemma Map_set_fresh (m : list (jsstring * project)) k v :
  Map_has m k = false -> Map_set m k v = m ++ [(k, v)].
Proof.
  unfold Map_has. induction m as [|[k' v'] m IH]; cbn; [reflexivity|].
  intros H. apply orb_false_iff in H as [H1 H2].
  rewrite H1, IH by assumption. reflexivity.
Qed.

Lemma dedup_fold (l : list project) (m : list (jsstring * project)) :
  Map_values
    (fold_left (fun m p => if Map_has m (p_url p) then m else Map_set m (p_url p) p)
       l m)
  = Map_values m ++ keep_first (map fst m) l.
Proof.
  unfold Map_values.
  revert m; induction l as [|p l IH]; intros m; cbn [fold_left keep_first].
  - now rewrite app_nil_r.
  - rewrite <- Map_has_spec. destruct (Map_has m (p_url p)) eqn:E.
    + apply IH.
    + rewrite Map_set_fresh, IH by assumption.
      rewrite !map_app. cbn [map fst snd]. rewrite <- app_assoc. cbn [app].
      f_equal. f_equal.
      (* the order of [seen] is immaterial *)
      clear. generalize (map fst m) as seen. intros seen.
      assert (G : forall s1 s2, (forall u, In u s1 <-> In u s2) ->
                  keep_first s1 l = keep_first s2 l).
      { induction l as [|q l IHl]; intros s1 s2 H; cbn [keep_first]; [reflexivity|].
        assert (E : existsb (jseqb (p_url q)) s1 = existsb (jseqb (p_url q)) s2).
        { apply eq_true_iff_eq. rewrite !existsb_jseqb. apply H. }
        rewrite E. destruct (existsb _ s2); [now apply IHl|].
        f_equal. apply IHl. intros u. cbn [In]. now rewrite H. }
      apply G. intros u. rewrite in_app_iff. cbn [In]. tauto.
Qed.

Lemma dedup_keep_first (l : list project) : dedup l = keep_first [] l.
Proof. unfold dedup. now rewrite dedup_fold. Qed.

Lemma keep_first_subseq (seen : list jsstring) (l : list project) :
  subseq (keep_first seen l) l.
Proof.
  revert seen; induction l as [|p l IH]; intros seen; cbn [keep_first].
  - constructor.
  - destruct (existsb _ seen); constructor; apply IH.
Qed.

Lemma keep_first_urls (seen : list jsstring) (l : list project) (u : jsstring) :
  In u (map p_url (keep_first seen l)) <-> In u (map p_url l) /\ ~ In u seen.
Proof.
  revert seen; induction l as [|p l IH]; intros seen; cbn [keep_first map In].
  - tauto.
  - destruct (existsb (jseqb (p_url p)) seen) eqn:E.
    + apply existsb_jseqb in E. rewrite IH. split; [tauto|].
      intros [[<-|H] N]; [contradiction | tauto].
    + assert (N : ~ In (p_url p) seen)
        by (intros F; apply existsb_jseqb in F; congruence).
      cbn [map In]. rewrite IH. cbn [In].
      destruct (list_eq_dec N.eq_dec (p_url p) u) as [<-|D];
        intuition congruence.
Qed.

Lemma keep_first_NoDup (seen : list jsstring) (l : list project) :
  NoDup (map p_url (keep_first seen l)).
Proof.
  revert seen; induction l as [|p l IH]; intros seen; cbn [keep_first].
  - constructor.
  - destruct (existsb (jseqb (p_url p)) seen); [apply IH|].
    cbn [map]. constructor; [|apply IH].
    rewrite keep_first_urls. cbn [In]. tauto.
Qed.



(** * Ranking *)

Lemma behind_by_total (x y : project_result) :
  is_nan (r_total x) = false -> is_nan (r_total y) = false ->
  behind by_total x y = (nkey (r_total x) <? nkey (r_total y)).
Proof.
  intros Hx Hy. unfold behind, by_total.
  rewrite sub_pos by assumption. now apply ltb_nkey.
Qed.

Lemma filter_none {A} (l : list A) : filter (fun _ => false) l = [].
Proof. induction l; auto. Qed.

(** C4, as amended.  When no total is NaN, the ranking is a rearrangement
    of the results that is sorted by total in descending order, and the
    results of any given total appear in their input order.  Totals 40,
    90, 70 come out as 90, 70, 40. *)
Theorem rank_sorted_stable :
  (forall results : list project_result,
     Forall no_nan_total results ->
     Permutation results (rank results) /\
     StronglySorted (fun a b => (r_total b <=? r_total a)%float = true)
       (rank results) /\
     forall t : number,
       filter (fun r => (r_total r =? t)%float) (rank results)
       = filter (fun r => (r_total r =? t)%float) results)
  /\
  (forall a b c : project_result,
     r_total a = 40%float -> r_total b = 90%float -> r_total c = 70%float ->
     rank [a; b; c] = [b; c; a]).
Proof.
  split.
  - intros results H. unfold rank.
    assert (Hp : Permutation results (sort by_total results)) by apply sort_perm.
    assert (Hr : Forall no_nan_total (sort by_total results))
      by now rewrite <- Hp.
    split; [exact Hp | split].
    + pose proof (sort_sorted by_total (fun r => nkey (r_total r)) no_nan_total
                    behind_by_total results H) as S.
      revert Hr S. generalize (sort by_total results).
      induction l as [|x l IH]; intros Hr S; [constructor|].
      inversion Hr as [|? ? Hx Hl]; inversion S as [|? ? S' Hall]; subst.
      constructor; [now apply IH|].
      rewrite Forall_forall in *. intros y Hy.
      rewrite leb_nkey; [apply Z.leb_le; now apply Hall | now apply Hl | exact Hx].
    + intros t. destruct (is_nan t) eqn:Nt.
      * assert (E : forall r : project_result,
                   (r_total r =? t)%float = (fun _ => false) r)
          by (intros r; now apply eqb_nan_r).
        rewrite (filter_ext _ _ E (sort by_total results)).
        rewrite (filter_ext _ _ E results).
        now rewrite !filter_none.
      * pose proof (sort_stable by_total (fun r => nkey (r_total r)) no_nan_total
                      behind_by_total (nkey t) results H) as S.
        rewrite (filter_ext_in _ (fun r => nkey (r_total r) =? nkey t) (sort by_total results)).
        -- rewrite S. apply filter_ext_in. intros r Hr'.
           rewrite Forall_forall in H. symmetry.
           apply eqb_nkey; [now apply H | assumption].
        -- intros r Hr'. rewrite Forall_forall in Hr.
           apply eqb_nkey; [now apply Hr | assumption].
  - intros a b c Ha Hb Hc.
    unfold rank. cbn [sort insert].
    assert (Hbc : behind by_total b c = false)
      by (unfold behind, by_total; rewrite Hb, Hc; reflexivity).
    assert (Hab : behind by_total a b = true)
      by (unfold behind, by_total; rewrite Ha, Hb; reflexivity).
    assert (Hac : behind by_total a c = true)
      by (unfold behind, by_total; rewrite Ha, Hc; reflexivity).
    rewrite Hbc. cbn [insert]. rewrite Hab. cbn [insert]. rewrite Hac.
    reflexivity.
Qed.

Lemma rank_sorted_stable_witness :
  let results := [result_with 40; result_with 90; result_with 70]%float in
  Forall no_nan_total results /\
  Permutation results (rank results) /\
  StronglySorted (fun a b => (r_total b <=? r_total a)%float = true)
    (rank results) /\
  forall t : number,
    filter (fun r => (r_total r =? t)%float) (rank results)
    = filter (fun r => (r_total r =? t)%float) results.
Proof.
  intros results.
  assert (H : Forall no_nan_total results) by (repeat constructor).
  split; [exact H|].
  exact (proj1 rank_sorted_stable results H).
Defined.

Lemma sorted_comparable {A} (R : A -> A -> Prop) (l : list A) (x y : A) :
  StronglySorted R l -> In x l -> In y l -> x = y \/ R x y \/ R y x.
Proof.
  induction 1 as [|a l S IH F]; intros Hx Hy; [destruct Hx|].
  rewrite Forall_forall in F.
  destruct Hx as [->|Hx], Hy as [->|Hy]; auto.
Qed.

(** A total that is NaN.  Results with totals 1, NaN and 2 are returned in
    that order, the 1 before the 2; and no arrangement of them is sorted
    by total, NaN being comparable to nothing.  Such a total arises from
    an item whose weight is infinite and whose score is zero. *)
Lemma rank_with_nan_total :
  let a := result_with 1%float in
  let b := result_with nan in
  let c := result_with 2%float in
  rank [a; b; c] = [a; b; c] /\
  (forall l, Permutation [a; b; c] l ->
     ~ StronglySorted (fun x y => (r_total y <=? r_total x)%float = true) l) /\
  (exists t,
     @score_payload (Demo.platform Demo.online)
       (JObj [(str "items",
               JArr [JObj [(str "weight", JNum infinity);
                           (str "score", JNum 0%float)]])])
     = Return ([JObj [(str "weight", JNum infinity); (str "score", JNum 0%float)]], t)
     /\ is_nan t = true).
Proof.
  intros a b c. split; [reflexivity|]. split.
  - intros l Hl S.
    assert (Ha : In a l) by (apply (Permutation_in _ Hl); cbn; auto).
    assert (Hb : In b l) by (apply (Permutation_in _ Hl); cbn; auto).
    destruct (sorted_comparable _ l a b S Ha Hb) as [E|[E|E]].
    + apply (f_equal (fun r => is_nan (r_total r))) in E. discriminate.
    + vm_compute in E. discriminate.
    + vm_compute in E. discriminate.
  - eexists. split; reflexivity.
Qed.

(** * The harvester's guards *)

Lemma starts_with_ic_app ic (p1 p2 s : jsstring) :
  starts_with_ic ic (p1 ++ p2) s
  = starts_with_ic ic p1 s && starts_with_ic ic p2 (skipn (length p1) s).
Proof.
  revert s; induction p1 as [|c p1 IH]; intros s; cbn [app starts_with_ic length skipn].
  - reflexivity.
  - destruct s as [|d s]; [reflexivity|].
    rewrite IH. now rewrite andb_assoc.
Qed.

Lemma rmatch_Chr ic c k x :
  rmatch ic (Chr c) k x =
  match rest x with
  | d :: s' => if chr_eq ic c d then k (advance x s') else None
  | [] => None
  end.
Proof. reflexivity. Qed.

Lemma project_not_software (s : jsstring) :
  starts_with_ic true (str "project") s = true ->
  starts_with_ic true (str "software") s = false.
Proof.
  destruct s as [|c s]; [discriminate|].
  change (str "project") with (112%N :: str "roject").
  change (str "software") with (115%N :: str "oftware").
  cbn [starts_with_ic]. intros H. apply andb_true_iff in H as [H _].
  unfold chr_eq in *. apply N.eqb_eq in H.
  destruct (N.eqb_spec (upper 115%N) (upper c)) as [E|E]; [|reflexivity].
  rewrite <- H in E. discriminate.
Qed.

Lemma rmatch_project_re (s : jsstring) :
  is_some (rmatch true project_re Some {| rest := s; caps := [] |})
  = starts_with_ic true (str "/project/") s
    || starts_with_ic true (str "/software/") s.
Proof.
  change (str "/project/") with ([47%N] ++ str "project" ++ [47%N]).
  change (str "/software/") with ([47%N] ++ str "software" ++ [47%N]).
  rewrite !starts_with_ic_app.
  unfold project_re. rewrite rmatch_Seq, rmatch_Chr. cbn [rest].
  destruct s as [|d s]; [reflexivity|].
  cbn [starts_with_ic length skipn].
  destruct (chr_eq true 47%N d); [|reflexivity]. cbn [andb].
  rewrite rmatch_Seq. cbn [rmatch]. unfold advance; cbn [rest caps].
  rewrite !rmatch_Lit. cbn [rest].
  destruct (starts_with_ic true (str "project") s) eqn:E1.
  - rewrite (project_not_software s E1). cbn [andb]. rewrite orb_false_r.
    cbn [set_cap advance rest caps].
    destruct (skipn (length (str "project")) s) as [|e t];
      cbn [starts_with_ic]; [reflexivity|].
    destruct (chr_eq true 47%N e); reflexivity.
  - cbn [orelse andb]. rewrite orb_false_l.
    destruct (starts_with_ic true (str "software") s); [|reflexivity].
    cbn [andb set_cap advance rest caps].
    destruct (skipn (length (str "software")) s) as [|e t];
      cbn [starts_with_ic]; [reflexivity|].
    destruct (chr_eq true 47%N e); reflexivity.
Qed.

Lemma test_spec ic r (s : jsstring) :
  test ic r s = true <->
  exists pre t, s = pre ++ t /\
                is_some (rmatch ic r Some {| rest := t; caps := [] |}) = true.
Proof.
  unfold test, exec. generalize 0%nat.
  induction s as [|c s IH]; intros i; cbn [exec_from].
  - destruct (rmatch ic r Some {| rest := []; caps := [] |}) eqn:E.
    + split; [intros _|reflexivity]. exists [], []. now rewrite E.
    + split; [discriminate|]. intros (pre & t & H & M).
      destruct pre, t; try discriminate. now rewrite E in M.
  - destruct (rmatch ic r Some {| rest := c :: s; caps := [] |}) eqn:E.
    + split; [intros _|reflexivity]. exists [], (c :: s). now rewrite E.
    + rewrite IH. split.
      * intros (pre & t & -> & M). now exists (c :: pre), t.
      * intros (pre & t & H & M). destruct pre as [|c' pre].
        -- cbn in H. subst t. now rewrite E in M.
        -- injection H as _ ->. now exists pre, t.
Qed.

Lemma test_project_re (href : jsstring) :
  test true project_re href = true <-> project_path href.
Proof.
  rewrite test_spec. unfold project_path, matches_ci. split.
  - intros (pre & t & -> & M). rewrite rmatch_project_re in M.
    apply orb_true_iff in M as [M|M]; [left | right];
      apply starts_with_ic_spec in M as (op & tl & -> & E);
      now exists pre, op, tl.
  - intros [(pre & op & post & -> & E)|(pre & op & post & -> & E)];
      exists pre, (op ++ post); (split; [reflexivity|]);
      rewrite rmatch_project_re; apply orb_true_iff; [left | right];
      apply starts_with_ic_spec; now exists op, post.
Qed.

Lemma indexOf_from_none_iff (pat s : jsstring) (i : Z) :
  0 <= i -> (indexOf_from pat s i = -1 <-> ~ substring pat s).
Proof.
  revert i; induction s as [|c s IH]; intros i Hi; cbn [indexOf_from].
  - destruct (starts_with pat []) eqn:E.
    + split; [lia|]. intros H; exfalso; apply H.
      apply starts_with_spec in E as [tl E]. now exists [], tl.
    + split; [|reflexivity]. intros _ (pre & post & H).
      destruct pre; [|discriminate]. cbn in H.
      assert (starts_with pat [] = true) by (apply starts_with_spec; now exists post).
      congruence.
  - destruct (starts_with pat (c :: s)) eqn:E.
    + split; [lia|]. intros H; exfalso; apply H.
      apply starts_with_spec in E as [tl E]. now exists [], tl.
    + rewrite IH by lia. split.
      * intros H (pre & post & F). destruct pre as [|c' pre]; cbn in F.
        -- assert (starts_with pat (c :: s) = true)
             by (apply starts_with_spec; now exists post).
           congruence.
        -- injection F as _ F. apply H. now exists pre, post.
      * intros H (pre & post & F). apply H. exists (c :: pre), post.
        cbn. now f_equal.
Qed.

Lemma includes_spec (s pat : jsstring) :
  includes s pat = true <-> substring pat s.
Proof.
  unfold includes, indexOf. rewrite negb_true_iff, Z.eqb_neq.
  rewrite (indexOf_from_none_iff pat s 0) by lia.
  split; [|tauto]. intros H.
  destruct (split_at pat s) as [[b a]|] eqn:E.
  - apply split_at_spec in E as [E _]. now exists b, a.
  - apply split_at_none in E. contradiction.
Qed.

Section HarvesterFacts.
Context {P : Platform}.

Lemma harvest_anchor_guards (base : jsstring) (a : anchor) :
  harvest_anchor base a =
  if test true project_re (or_empty (a_href a))
     && (2 <? length (trim (a_text a)))%nat
     && (includes (absoluteUrl (or_empty (a_href a)) base) (str "/project/")
         || includes (absoluteUrl (or_empty (a_href a)) base) (str "/software/"))
  then [{| p_name := trim (a_text a);
           p_url := absoluteUrl (or_empty (a_href a)) base |}]
  else [].
Proof.
  unfold harvest_anchor.
  destruct (test true project_re (or_empty (a_href a))
            && (2 <? length (trim (a_text a)))%nat); reflexivity.
Qed.

Lemma guards_spec (base : jsstring) (a : anchor) :
  test true project_re (or_empty (a_href a))
  && (2 <? length (trim (a_text a)))%nat
  && (includes (absoluteUrl (or_empty (a_href a)) base) (str "/project/")
      || includes (absoluteUrl (or_empty (a_href a)) base) (str "/software/"))
  = true
  <-> project_path (or_empty (a_href a)) /\
      (2 < length (trim (a_text a)))%nat /\
      project_url (absoluteUrl (or_empty (a_href a)) base).
Proof.
  rewrite !andb_true_iff, orb_true_iff, test_project_re, Nat.ltb_lt.
  unfold project_url. rewrite !includes_spec. tauto.
Qed.

(** C5, as amended.  An anchor yields a project exactly when its href
    matches [/project/] or [/software/] without regard to case, its
    trimmed text is longer than 2 code units, and its resolved URL holds
    [/project/] or [/software/] as written; the project then carries the
    trimmed text and the resolved URL.  From the anchors
    [<a href="/project/42">Foo</a>] and [<a href="/about">Team</a>], on a
    page against which [/project/42] resolves to a URL that still holds
    [/project/], exactly the project named [Foo] is returned. *)
Theorem harvest_anchor_accepts (base : jsstring) :
  (forall a : anchor,
     let href := or_empty (a_href a) in
     let name := trim (a_text a) in
     let urlAbs := absoluteUrl href base in
     (project_path href /\ (2 < length name)%nat /\ project_url urlAbs ->
        harvest_anchor base a = [{| p_name := name; p_url := urlAbs |}]) /\
     (~ (project_path href /\ (2 < length name)%nat /\ project_url urlAbs) ->
        harvest_anchor base a = []))
  /\
  (project_url (absoluteUrl (str "/project/42") base) ->
   let anchors :=
     [{| a_href := Some (str "/project/42"); a_text := str "Foo" |};
      {| a_href := Some (str "/about"); a_text := str "Team" |}] in
   dedup (harvest base anchors)
   = [{| p_name := str "Foo"; p_url := absoluteUrl (str "/project/42") base |}]).
Proof.
  split.
  - intros a href name urlAbs. rewrite harvest_anchor_guards.
    pose proof (guards_spec base a) as G. fold href name urlAbs in G |- *.
    destruct (test true project_re href && (2 <? length name)%nat
              && (includes urlAbs (str "/project/")
                  || includes urlAbs (str "/software/"))).
    + split; [reflexivity|]. intros N. exfalso. apply N, G. reflexivity.
    + split; [|reflexivity]. intros H. apply G in H. discriminate.
  - intros H anchors. unfold anchors, harvest. cbn [flat_map].
    rewrite !harvest_anchor_guards. cbn [a_href a_text or_empty].
    replace (test true project_re (str "/about")) with false
      by (vm_compute; reflexivity).
    replace (test true project_re (str "/project/42")) with true
      by (vm_compute; reflexivity).
    replace (2 <? length (trim (str "Foo")))%nat with true
      by (vm_compute; reflexivity).
    replace (trim (str "Foo")) with (str "Foo") by (vm_compute; reflexivity).
    cbn [andb app].
    assert (E : includes (absoluteUrl (str "/project/42") base) (str "/project/")
                || includes (absoluteUrl (str "/project/42") base) (str "/software/")
                = true).
    { apply orb_true_iff. unfold project_url in H.
      rewrite !includes_spec. exact H. }
    rewrite E. rewrite dedup_keep_first. reflexivity.
Qed.

End HarvesterFacts.

Lemma harvest_anchor_accepts_witness :
  let P := Demo.platform Demo.online in
  let base := str "https://devpost.com/hackathons/demo/gallery" in
  let anchors :=
    [{| a_href := Some (str "/project/42"); a_text := str "Foo" |};
     {| a_href := Some (str "/about"); a_text := str "Team" |}] in
  project_url (absoluteUrl (str "/project/42") base) /\
  dedup (harvest base anchors)
  = [{| p_name := str "Foo"; p_url := absoluteUrl (str "/project/42") base |}].
Proof.
  intros P base anchors.
  assert (H : project_url (absoluteUrl (str "/project/42") base)).
  { left. apply includes_spec. vm_compute. reflexivity. }
  split; [exact H|].
  exact (proj2 (@harvest_anchor_accepts P base) H).
Defined.

(** An href in capitals passes the pattern and its text is long enough,
    yet the anchor is left out: the resolved URL keeps the capitals and
    the second guard looks for the lower-case path. *)
Lemma capital_path_left_out :
  let P := Demo.platform Demo.online in
  let base := str "https://devpost.com/hackathons/demo/gallery" in
  let a := {| a_href := Some (str "/Project/42"); a_text := str "Foo" |} in
  project_path (or_empty (a_href a)) /\
  (2 < length (trim (a_text a)))%nat /\
  absoluteUrl (or_empty (a_href a)) base = str "https://devpost.com/Project/42" /\
  harvest_anchor base a = [] /\
  harvest base [a] = [].
Proof.
  intros P base a. split.
  - apply test_project_re. vm_compute. reflexivity.
  - split; [vm_compute; lia|]. repeat split.
Qed.

(** * Fault isolation in the scoring loop *)

Section ScoringFacts.
Context {P : Platform}.

Lemma get_prop_not_null (p : json) (k : jsstring) :
  p <> JNull -> get_prop p k = Return (opt_prop (V p) k).
Proof. destruct p; intros H; try reflexivity. congruence. Qed.

Lemma placeholder_not_null (p : json) (e : exn) (w : world) :
  p <> JNull -> placeholder p e w = (Return (failed_result p e), w).
Proof.
  intros H. unfold placeholder, bind, lift, ret.
  rewrite !get_prop_not_null by assumption. reflexivity.
Qed.

Lemma score_one_settles (rubric : list json) (mdl : value) (p : json) (w : world) :
  p <> JNull ->
  (exists r w1, score_project rubric mdl p w = (Return r, w1) /\
                score_one rubric mdl p w = (Return r, w1)) \/
  (exists e w1, score_project rubric mdl p w = (Throw e, w1) /\
                score_one rubric mdl p w = (Return (failed_result p e), w1)).
Proof.
  intros H. unfold score_one, try_catch.
  destruct (score_project rubric mdl p w) as [[r|e] w1].
  - left. now exists r, w1.
  - right. exists e, w1. split; [reflexivity|]. now apply placeholder_not_null.
Qed.

Lemma batch_length rubric mdl projects w rs w' :
  batch rubric mdl projects w rs w' -> length rs = length projects.
Proof. induction 1; cbn; congruence. Qed.

Lemma score_loop_batch rubric mdl (projects : list json) :
  Forall (fun p => p <> JNull) projects ->
  forall (acc : list project_result) (w : world),
  exists rs w',
    batch rubric mdl projects w rs w' /\
    score_loop rubric mdl projects acc w = (Return (acc ++ rs), w').
Proof.
  induction 1 as [|p ps Hp Hps IH]; intros acc w; cbn [score_loop].
  - exists [], w. split; [constructor|]. now rewrite app_nil_r.
  - unfold bind.
    destruct (score_one_settles rubric mdl p w Hp)
      as [(r & w1 & H1 & H2)|(e & w1 & H1 & H2)]; rewrite H2.
    + destruct (IH (acc ++ [r]) w1) as (rs & w' & B & L); rewrite L.
      exists (r :: rs), w'. split; [econstructor; eassumption|].
      now rewrite <- app_assoc.
    + destruct (IH (acc ++ [failed_result p e]) w1) as (rs & w' & B & L);
        rewrite L.
      exists (failed_result p e :: rs), w'. split; [econstructor; eassumption|].
      now rewrite <- app_assoc.
Qed.

Lemma result_of_reply_no_error (title url : value) (raw : jsstring)
  (r : project_result) :
  result_of_reply title url raw = Return r ->
  r_error r = None /\ r_name r = title /\ r_url r = url.
Proof.
  unfold result_of_reply.
  destruct (JSON_parse (extractJson raw)) as [payload|]; [|discriminate].
  cbn [obind]. destruct (score_payload payload) as [it|]; [|discriminate].
  cbn [obind]. intros H. injection H as <-. repeat split.
Qed.

Lemma score_project_no_error rubric mdl (p : json) (w w1 : world)
  (r : project_result) :
  score_project rubric mdl p w = (Return r, w1) -> r_error r = None.
Proof.
  unfold score_project, bind, lift, throw.
  destruct (get_prop p (str "url")) as [url|]; [|discriminate].
  destruct (fetch (page_request url) w) as [[page|] w2]; [|discriminate].
  destruct (negb (resp_ok page)); [discriminate|].
  destruct (resp_text page w2) as [[html|] w3]; [|discriminate].
  destruct (project_prompt _ _ _ _) as [prompt|]; [|discriminate].
  destruct (geminiCall mdl prompt None w3) as [[raw|] w4]; [|discriminate].
  destruct (result_of_reply _ _ raw) as [r'|] eqn:E; [|discriminate].
  intros H. injection H as <- _.
  now apply result_of_reply_no_error in E.
Qed.

Lemma err_text_nonempty (e : exn) :
  exn_name e <> [] \/ exn_message e <> [] -> err_text e <> [].
Proof.
  unfold err_text. destruct (exn_message e); [|discriminate].
  intros [H|H]; congruence.
Qed.

Lemma err_text_message (e : exn) :
  exn_message e <> [] -> err_text e = exn_message e.
Proof. unfold err_text. destruct (exn_message e); congruence. Qed.

(** C1, as amended.  For a request whose projects are JSON values other
    than [null], whatever the rubric, the model and the state of the
    world: the handler answers with exactly one result per project; a
    project whose processing fails (reading its page, building the
    prompt, the model call, or decoding) gets the placeholder with total
    0, no items and, as error, the text of the failure (its message, or
    its name when it has no message), and the projects after it are still
    processed, from the world the failure left.  A project whose
    processing completes carries no error. *)
Theorem score_isolates_failures
  (body : value) (projects rubric : list json) (w : world) :
  let b := js_or body (V (JObj [])) in
  nonempty_array (opt_prop b (str "projects")) = Some projects ->
  nonempty_array (opt_prop b (str "rubric")) = Some rubric ->
  Forall (fun p => p <> JNull) projects ->
  exists rs w',
    batch rubric (js_or (opt_prop b (str "model")) default_model)
          projects w rs w' /\
    score body w = (Return (JsonResults (rank rs)), w') /\
    length rs = length projects /\
    Permutation rs (rank rs) /\
    (forall p w0 r w1,
       score_project rubric (js_or (opt_prop b (str "model")) default_model)
         p w0 = (Return r, w1) -> r_error r = None) /\
    forall p e,
      r_total (failed_result p e) = 0%float /\
      r_items (failed_result p e) = [] /\
      r_error (failed_result p e) = Some (err_text e) /\
      (exn_message e <> [] -> err_text e = exn_message e) /\
      (exn_name e <> [] \/ exn_message e <> [] -> err_text e <> []).
Proof.
  intros b Hp Hr H.
  destruct (score_loop_batch rubric
              (js_or (opt_prop b (str "model")) default_model) projects H [] w)
    as (rs & w' & B & L).
  exists rs, w'. split; [assumption|]. split.
  - unfold score, try_catch. fold b. rewrite Hp, Hr. unfold bind.
    rewrite L. reflexivity.
  - split; [eapply batch_length; eassumption|].
    split; [apply sort_perm|].
    split; [intros p w0 r w1; apply score_project_no_error|].
    intros p e. repeat split.
    + apply err_text_message.
    + apply err_text_nonempty.
Qed.

End ScoringFacts.

Lemma score_isolates_failures_witness :
  let P := Demo.platform Demo.online in
  let projects :=
    [JObj [(str "name", JStr (str "A")); (str "url", JStr (str "ftp://nowhere/a"))];
     JObj [(str "name", JStr (str "B"));
           (str "url", JStr (str "https://devpost.com/software/b"))]] in
  let rubric := [JObj [(str "name", JStr (str "Tech")); (str "weight", JNum 0.6%float)]] in
  Forall (fun p => p <> JNull) projects /\
  exists rs w',
    @batch P rubric default_model projects [] rs w' /\
    @score P demo_body [] = (Return (JsonResults (rank rs)), w') /\
    length rs = 2%nat.
Proof.
  intros P projects rubric.
  assert (H : Forall (fun p => p <> JNull) projects)
    by (repeat constructor; discriminate).
  split; [exact H|].
  destruct (@score_isolates_failures P demo_body projects rubric []
              eq_refl eq_refl H) as (rs & w' & B & S & L & _).
  exists rs, w'. repeat split; assumption.
Defined.

(** On the demo platform: the first project's page cannot be fetched, the
    second is scored; both are in the response. *)
Example score_demo :
  match fst (@score (Demo.platform Demo.online) demo_body []) with
  | Return (JsonResults [r1; r2]) =>
      r_error r1 = Some (str "network down") /\ r_total r1 = 0%float /\
      r_items r1 = [] /\ r_name r1 = V (JStr (str "A")) /\
      r_error r2 = None /\ r_name r2 = V (JStr (str "Demo"))
  | _ => False
  end.
Proof. vm_compute. repeat split. Qed.

(** A batch that holds [null] behind a project that can be scored: the
    first project's [try] block completes, the second entry fails in its
    [try] block on reading [url] and again in its [catch] block on reading
    [name], and the handler answers 500: no result is returned for either
    entry. *)
Lemma null_entry_loses_batch :
  let P := Demo.platform Demo.online in
  let good := JObj [(str "name", JStr (str "B"));
                    (str "url", JStr (str "https://devpost.com/software/b"))] in
  let rubric := [JObj [(str "name", JStr (str "Tech")); (str "weight", JNum 0.6%float)]] in
  let body := V (JObj [(str "projects", JArr [good; JNull]);
                       (str "rubric", JArr rubric)]) in
  nonempty_array (opt_prop body (str "projects")) = Some [good; JNull] /\
  nonempty_array (opt_prop body (str "rubric")) = Some rubric /\
  (exists r w', @score_project P rubric default_model good [] = (Return r, w') /\
                r_error r = None) /\
  (exists w e, @score_project P rubric default_model JNull w
               = (Throw e, w)) /\
  fst (@score P body []) = Return (Send 500 (str "not an object")) /\
  forall rs, fst (@score P body []) <> Return (JsonResults rs).
Proof.
  intros P good rubric body.
  split; [reflexivity|]. split; [reflexivity|]. split.
  - eexists _, _. split; [vm_compute; reflexivity | reflexivity].
  - split; [exists [], (TypeError (NullProperty (str "url"))); reflexivity|].
    assert (E : fst (@score P body []) = Return (Send 500 (str "not an object")))
      by (vm_compute; reflexivity).
    split; [exact E|]. intros rs. rewrite E. discriminate.
Qed.

(** * The total of a project *)

Section TotalFacts.
Context {P : Platform}.

Lemma reduce_points_sum (items : list json) (fs : list (number * number)) :
  Forall2 (fun it f => item_factors it = Return f) items fs ->
  forall s : number,
    reduce_points items s
    = Return (fold_left (fun s f => (s + fst f * snd f)%float) fs s).
Proof.
  induction 1 as [|it f items fs H _ IH]; intros s; cbn [reduce_points fold_left].
  - reflexivity.
  - unfold item_points. rewrite H. cbn [obind]. apply IH.
Qed.


End TotalFacts.


(** * Coercion of untrusted fields *)

Section CoercionFacts.
Context {P : Platform}.

Lemma or_zero_not_nan (n : number) : is_nan (or_zero n) = false.
Proof.
  unfold or_zero. destruct (num_falsy n) eqn:E; [reflexivity|].
  unfold num_falsy in E. now apply orb_false_iff in E as [_ E].
Qed.

Lemma array_or_empty_other (v : value) : not_an_array v -> array_or_empty v = [].
Proof.
  intros H. destruct v as [|[]]; try reflexivity. now specialize (H l).
Qed.

Lemma item_factors_coerced (it : json) (w s : value) (wn sn : number) :
  get_prop it (str "weight") = Return w -> Number w = Return wn ->
  get_prop it (str "score") = Return s -> Number s = Return sn ->
  item_factors it = Return (or_zero wn, or_zero sn).
Proof.
  intros H1 H2 H3 H4. unfold item_factors.
  rewrite H1. cbn [obind]. rewrite H2. cbn [obind].
  rewrite H3. cbn [obind]. rewrite H4. reflexivity.
Qed.

Lemma item_factors_throws (it : json) (e : exn) :
  item_factors it = Throw e <->
  get_prop it (str "weight") = Throw e \/
  (exists w, get_prop it (str "weight") = Return w /\ Number w = Throw e) \/
  (exists w wn,
     get_prop it (str "weight") = Return w /\ Number w = Return wn /\
     get_prop it (str "score") = Throw e) \/
  (exists w wn s,
     get_prop it (str "weight") = Return w /\ Number w = Return wn /\
     get_prop it (str "score") = Return s /\ Number s = Throw e).
Proof.
  unfold item_factors.
  destruct (get_prop it (str "weight")) as [w|e1] eqn:Gw; cbn [obind].
  2:{ split; [intros H; injection H as <-; now left|].
      intros [H|[(w' & H & _)|[(w' & wn' & H & _)|(w' & wn' & s' & H & _)]]];
        congruence. }
  destruct (Number w) as [wn|e2] eqn:Nw; cbn [obind].
  2:{ split; [intros H; injection H as <-; right; left; now exists w|].
      intros [H|[(w' & H & H')|[(w' & wn' & H & H' & _)
                               |(w' & wn' & s' & H & H' & _)]]];
        congruence. }
  destruct (get_prop it (str "score")) as [s|e3] eqn:Gs; cbn [obind].
  2:{ split; [intros H; injection H as <-; right; right; left; now exists w, wn|].
      intros [H|[(w' & H & H')|[(w' & wn' & _ & _ & H)
                               |(w' & wn' & s' & _ & _ & H & _)]]];
        congruence. }
  destruct (Number s) as [sn|e4] eqn:Ns; cbn [obind].
  2:{ split; [intros H; injection H as <-; right; right; right; now exists w, wn, s|].
      intros [H|[(w' & H & H')|[(w' & wn' & _ & _ & H)
                               |(w' & wn' & s' & _ & _ & H & H')]]];
        congruence. }
  split; [discriminate|].
  intros [H|[(w' & H & H')|[(w' & wn' & _ & _ & H)
                           |(w' & wn' & s' & _ & _ & H & H')]]];
    congruence.
Qed.

(** C7, as amended.  On a decoded payload other than [null], a [criteria]
    field (rubric flow) or [items] field (scoring flow) that is missing or
    is not an array becomes the empty sequence, with no error.  In the
    recomputed total an item whose weight and score have a numeric
    conversion enters as the product of [Number(weight)||0] and
    [Number(score)||0], neither of which is NaN: each is 0 when the
    field's conversion is NaN or zero (as for a missing field), and is
    that conversion otherwise (1 for [true]); the total is the sum of
    these products.  An item fails the recomputation exactly when it is
    [null] or a conversion throws, as for an object with an own
    [toString] entry, and the failure is then the project's. *)
Theorem untrusted_fields_coerced :
  (forall raw parsed,
     JSON_parse (extractJson raw) = Return parsed -> parsed <> JNull ->
     not_an_array (opt_prop (V parsed) (str "criteria")) ->
     rubric_of_reply raw = Return [])
  /\
  (forall payload,
     payload <> JNull ->
     not_an_array (opt_prop (V payload) (str "items")) ->
     exists total, score_payload payload = Return ([], total))
  /\
  (forall v n,
     Number v = Return n ->
     is_nan (or_zero n) = false /\
     (num_falsy n = true -> or_zero n = 0%float) /\
     (num_falsy n = false -> or_zero n = n))
  /\
  (Number Undefined = Return nan /\ or_zero nan = 0%float)
  /\
  (Number (V (JBool true)) = Return 1%float /\ or_zero 1%float = 1%float)
  /\
  (forall it w s wn sn,
     get_prop it (str "weight") = Return w -> Number w = Return wn ->
     get_prop it (str "score") = Return s -> Number s = Return sn ->
     item_factors it = Return (or_zero wn, or_zero sn) /\
     item_points it = Return (or_zero wn * or_zero sn)%float /\
     is_nan (or_zero wn) = false /\ is_nan (or_zero sn) = false)
  /\
  (forall payload fs,
     payload <> JNull ->
     total_falsy (opt_prop (V payload) (str "total")) = true ->
     Forall2 (fun it f =>
                exists w s wn sn,
                  get_prop it (str "weight") = Return w /\ Number w = Return wn /\
                  get_prop it (str "score") = Return s /\ Number s = Return sn /\
                  f = (or_zero wn, or_zero sn))
             (array_or_empty (opt_prop (V payload) (str "items"))) fs ->
     score_payload payload
     = Return (array_or_empty (opt_prop (V payload) (str "items")),
               weighted_sum fs) /\
     Forall (fun f => is_nan (fst f) = false /\ is_nan (snd f) = false) fs)
  /\
  (forall it e,
     item_factors it = Throw e <->
     get_prop it (str "weight") = Throw e \/
     (exists w, get_prop it (str "weight") = Return w /\ Number w = Throw e) \/
     (exists w wn,
        get_prop it (str "weight") = Return w /\ Number w = Return wn /\
        get_prop it (str "score") = Throw e) \/
     (exists w wn s,
        get_prop it (str "weight") = Return w /\ Number w = Return wn /\
        get_prop it (str "score") = Return s /\ Number s = Throw e))
  /\
  (item_factors (JObj []) = Return (0, 0)%float /\
   item_factors JNull = Throw (TypeError (NullProperty (str "weight"))) /\
   item_factors (JObj [(str "weight", JObj [(str "toString", JNull)])])
   = Throw (TypeError NotPrimitive) /\
   score_payload
     (JObj [(str "items",
             JArr [JObj [(str "weight", JObj [(str "toString", JNull)])]])])
   = Throw (TypeError NotPrimitive)).
Proof.
  split; [|split; [|split; [|split; [|split; [|split; [|split; [|split]]]]]]].
  - intros raw parsed Hp Hn Ha. unfold rubric_of_reply. rewrite Hp. cbn [obind].
    rewrite get_prop_not_null by assumption. cbn [obind].
    now rewrite array_or_empty_other.
  - intros payload Hn Ha. unfold score_payload.
    rewrite !get_prop_not_null by assumption. cbn [obind].
    rewrite array_or_empty_other by assumption.
    destruct (num_falsy _); eexists; reflexivity.
  - intros v n _. split; [apply or_zero_not_nan|].
    split; intros F; unfold or_zero; now rewrite F.
  - split; reflexivity.
  - split; reflexivity.
  - intros it w s wn sn H1 H2 H3 H4.
    pose proof (item_factors_coerced it w s wn sn H1 H2 H3 H4) as E.
    split; [exact E|]. split; [unfold item_points; rewrite E; reflexivity|].
    split; apply or_zero_not_nan.
  - intros payload fs N T F.
    assert (F' : Forall2 (fun it f => item_factors it = Return f)
                   (array_or_empty (opt_prop (V payload) (str "items"))) fs).
    { eapply Forall2_impl; [|exact F]. cbv beta.
      intros it f (w & s & wn & sn & H1 & H2 & H3 & H4 & ->).
      now apply (item_factors_coerced it w s wn sn). }
    split.
    + unfold score_payload. rewrite !get_prop_not_null by assumption.
      cbn [obind]. cbv zeta.
      assert (E : num_falsy
                    (match opt_prop (V payload) (str "total") with
                     | V (JNum n) => n
                     | _ => 0%float
                     end) = true)
        by (destruct (opt_prop (V payload) (str "total")) as [|[]];
            try reflexivity; exact T).
      match goal with
      | |- context [if ?c then _ else _] =>
          replace c with true by (symmetry; exact E)
      end.
      rewrite (reduce_points_sum _ fs F'). reflexivity.
    + clear - F. induction F as [|it f l fs (w & s & wn & sn & _ & _ & _ & _ & ->) _ IH];
        constructor; [|assumption].
      cbn [fst snd]. split; apply or_zero_not_nan.
  - apply item_factors_throws.
  - repeat split.
Qed.

End CoercionFacts.

Lemma untrusted_fields_coerced_witness :
  let P := Demo.platform Demo.online in
  let payload := JObj [(str "items", JStr (str "none"))] in
  (payload <> JNull /\
   not_an_array (opt_prop (V payload) (str "items"))) /\
  exists total, @score_payload P payload = Return ([], total).
Proof.
  intros P payload.
  assert (N : payload <> JNull) by discriminate.
  assert (A : not_an_array (opt_prop (V payload) (str "items")))
    by (intros l; discriminate).
  split; [now split|].
  exact (proj1 (proj2 (@untrusted_fields_coerced P)) payload N A).
Defined.

(** A weight that is not a number but converts to one: [true] counts as
    1, not as 0, and the item contributes its full score. *)
Lemma boolean_weight_counts :
  let P := Demo.platform Demo.online in
  let it := JObj [(str "weight", JBool true); (str "score", JNum 50%float)] in
  get_prop it (str "weight") = Return (V (JBool true)) /\
  (exists f, @item_factors P it = Return f /\ (fst f =? 0)%float = false) /\
  @score_payload P (JObj [(str "items", JArr [it])]) = Return ([it], 50%float).
Proof.
  repeat split. exists (1, 50)%float. split; reflexivity.
Qed.

(** * The remote text-generation client *)

Lemma trim_first (s : jsstring) (c : char) (tl : jsstring) :
  trim s = c :: tl -> is_space c = false.
Proof.
  unfold trim. intros H.
  destruct (drop_while_spec is_space s) as (ws1 & E1 & _ & H1).
  destruct (drop_while_spec is_space (rev (drop_while is_space s)))
    as (ws2 & E2 & F2 & _).
  set (d := drop_while is_space s) in *.
  set (t := drop_while is_space (rev d)) in *.
  assert (Ed : d = rev t ++ rev ws2).
  { rewrite <- (rev_involutive d), E2, rev_app_distr. reflexivity. }
  rewrite H in Ed. cbn [app] in Ed. eapply H1. exact Ed.
Qed.

Lemma trim_last (s : jsstring) (c : char) (hd : jsstring) :
  trim s = hd ++ [c] -> is_space c = false.
Proof.
  unfold trim. intros H.
  destruct (drop_while_spec is_space (rev (drop_while is_space s)))
    as (ws2 & _ & _ & H2).
  apply (f_equal (@rev _)) in H. rewrite rev_involutive, rev_app_distr in H.
  cbn [rev app] in H. eapply H2. exact H.
Qed.

Lemma slice_prefix_length (t : jsstring) (n : nat) :
  (length (slice t 0 (Z.of_nat n)) <= n)%nat.
Proof.
  unfold slice. cbn [Z.ltb Z.compare].
  destruct (Z.ltb_spec (Z.of_nat n) 0); [lia|].
  rewrite length_firstn. lia.
Qed.

Section ClientFacts.
Context {P : Platform}.

Lemma reply_text_trimmed (data : json) (text : jsstring) :
  reply_text data = Return text ->
  (forall c tl, text = c :: tl -> is_space c = false) /\
  (forall c hd, text = hd ++ [c] -> is_space c = false).
Proof.
  unfold reply_text.
  destruct (opt_prop _ _) as [|[]]; intros H; try discriminate;
    injection H as <-; split; intros c x E;
    solve [eapply trim_first; exact E | eapply trim_last; exact E].
Qed.

(** C8, as amended.  Without a credential (none passed, none in the
    process configuration) the client fails with its configuration error
    and sends nothing.  With one, once the model id and the key are
    encoded and the transport has delivered a response: on a status that
    is not success, and a readable body, it fails with the upstream error,
    which carries the status code and at most the first 400 code units of
    the body; on success, with a body that decodes and whose first text
    part is missing or a string, it fails with the empty-response error
    when that text is empty after trimming, and otherwise returns the
    text, which is not empty and has no whitespace at either end.  The
    three errors differ from one another.  A failure of the encoding of
    the URL, of the transport, of reading or decoding the body, or of
    trimming a text part that is not a string is passed on as it is. *)
Theorem geminiCall_outcomes
  (model : value) (prompt : jsstring) (apiKey : option jsstring) (w : world) :
  (credential apiKey = None ->
     geminiCall model prompt apiKey w = (Throw missing_key, w))
  /\
  (forall key m k resp w1,
     credential apiKey = Some key ->
     obind (ToStringV model) encodeURIComponent = Return m ->
     encodeURIComponent key = Return k ->
     fetch (gemini_request (gemini_endpoint m k) prompt) w = (Return resp, w1) ->
     (resp_ok resp = false ->
        forall t w2,
          resp_text resp w1 = (Return t, w2) ->
          geminiCall model prompt apiKey w
          = (Throw (upstream_error (resp_status resp) t), w2)) /\
     (resp_ok resp = true ->
        forall data w2 text,
          resp_json resp w1 = (Return data, w2) ->
          reply_text data = Return text ->
          (text = [] ->
             geminiCall model prompt apiKey w = (Throw empty_response, w2)) /\
          (text <> [] ->
             geminiCall model prompt apiKey w = (Return text, w2) /\
             (forall c tl, text = c :: tl -> is_space c = false) /\
             (forall c hd, text = hd ++ [c] -> is_space c = false))))
  /\
  (forall status body,
     exn_message (upstream_error status body)
     = str "Gemini error " ++ dec status ++ str ": " ++ slice body 0 400 /\
     (length (slice body 0 400) <= 400)%nat /\
     upstream_error status body <> missing_key /\
     upstream_error status body <> empty_response)
  /\
  missing_key <> empty_response
  /\
  (forall key,
     credential apiKey = Some key ->
     (forall e,
        obind (ToStringV model) encodeURIComponent = Throw e ->
        geminiCall model prompt apiKey w = (Throw e, w)) /\
     (forall m,
        obind (ToStringV model) encodeURIComponent = Return m ->
        (forall e,
           encodeURIComponent key = Throw e ->
           geminiCall model prompt apiKey w = (Throw e, w)) /\
        (forall k,
           encodeURIComponent key = Return k ->
           (forall e w1,
              fetch (gemini_request (gemini_endpoint m k) prompt) w
              = (Throw e, w1) ->
              geminiCall model prompt apiKey w = (Throw e, w1)) /\
           (forall resp w1,
              fetch (gemini_request (gemini_endpoint m k) prompt) w
              = (Return resp, w1) ->
              (resp_ok resp = false ->
                 forall e w2,
                   resp_text resp w1 = (Throw e, w2) ->
                   geminiCall model prompt apiKey w = (Throw e, w2)) /\
              (resp_ok resp = true ->
                 (forall e w2,
                    resp_json resp w1 = (Throw e, w2) ->
                    geminiCall model prompt apiKey w = (Throw e, w2)) /\
                 (forall data w2 e,
                    resp_json resp w1 = (Return data, w2) ->
                    reply_text data = Throw e ->
                    geminiCall model prompt apiKey w = (Throw e, w2))))))).
Proof.
  split; [|split; [|split; [|split]]].
  - intros H. unfold geminiCall. rewrite H. reflexivity.
  - intros key m k resp w1 Hc Hm Hk Hf. unfold geminiCall. rewrite Hc.
    unfold bind, lift. rewrite Hm, Hk, Hf. split.
    + intros Hok t w2 Ht. rewrite Hok. cbn [negb]. rewrite Ht. reflexivity.
    + intros Hok data w2 text Hd Hr. rewrite Hok. cbn [negb].
      rewrite Hd, Hr. split.
      * intros ->. reflexivity.
      * intros Hne. split; [destruct text; [congruence | reflexivity]|].
        eapply reply_text_trimmed; eassumption.
  - intros status body. split; [reflexivity|]. split.
    + apply (slice_prefix_length body 400).
    + split; discriminate.
  - discriminate.
  - intros key Hc. unfold geminiCall. rewrite Hc. unfold bind, lift. split.
    + intros e He. rewrite He. reflexivity.
    + intros m Hm. rewrite Hm. split.
      * intros e He. rewrite He. reflexivity.
      * intros k Hk. rewrite Hk. split.
        -- intros e w1 Hf. rewrite Hf. reflexivity.
        -- intros resp w1 Hf. rewrite Hf. split.
           ++ intros Hok e w2 Ht. rewrite Hok. cbn [negb]. rewrite Ht.
              reflexivity.
           ++ intros Hok. rewrite Hok. cbn [negb]. split.
              ** intros e w2 Hj. rewrite Hj. reflexivity.
              ** intros data w2 e Hj Hr. rewrite Hj, Hr. reflexivity.
Qed.

End ClientFacts.

Lemma geminiCall_outcomes_witness :
  let P := Demo.platform Demo.online in
  let prompt := str "Score this" in
  let url := gemini_endpoint (str "gemini-1.5-pro") (str "key") in
  (credential None = Some (str "key") /\
   obind (ToStringV default_model) encodeURIComponent = Return (str "gemini-1.5-pro") /\
   encodeURIComponent (str "key") = Return (str "key") /\
   fetch (gemini_request url prompt) []
   = (Return Demo.reply, [gemini_request url prompt]) /\
   resp_ok Demo.reply = true /\
   resp_json Demo.reply [gemini_request url prompt]
   = (Return Demo.reply_json, [gemini_request url prompt]) /\
   reply_text Demo.reply_json = Return (str "{}") /\
   str "{}" <> []) /\
  @geminiCall P default_model prompt None []
  = (Return (str "{}"), [gemini_request url prompt]).
Proof.
  intros P prompt url.
  split; [repeat split; try reflexivity; discriminate|].
  pose proof (proj1 (proj2 (@geminiCall_outcomes P default_model prompt None []))
                (str "key") (str "gemini-1.5-pro") (str "key") Demo.reply _
                eq_refl eq_refl eq_refl eq_refl) as [_ H].
  pose proof (H eq_refl Demo.reply_json _ (str "{}") eq_refl eq_refl) as [_ H'].
  apply H'. discriminate.
Defined.

(** The transport fails: the client fails although a credential is there,
    no status was received and no reply was read; its error is none of the
    three. *)
Lemma geminiCall_transport_failure :
  let P := Demo.platform Demo.offline in
  let prompt := str "Score this" in
  credential None = Some (str "key") /\
  (exists w', @geminiCall P default_model prompt None []
              = (Throw Demo.network_error, w')) /\
  Demo.network_error <> missing_key /\
  (forall status body, Demo.network_error <> upstream_error status body) /\
  Demo.network_error <> empty_response.
Proof.
  intros P prompt. split; [reflexivity|]. split; [eexists; reflexivity|].
  repeat split; discriminate.
Qed.

(** * The excerpt of the text sent to the model *)

Section PromptFacts.
Context {P : Platform}.



End PromptFacts.



(** * When the raw text is kept *)

Lemma indexOf_none_iff (c : char) (text : jsstring) :
  indexOf text [c] = -1 <-> ~ In c text.
Proof.
  split.
  - intros H F. destruct (in_first_split _ _ F) as (p & r & -> & N).
    rewrite indexOf_first in H by assumption. lia.
  - intros H. unfold indexOf. now apply indexOf_from_none.
Qed.

Lemma lastIndexOf_none_iff (c : char) (text : jsstring) :
  lastIndexOf text [c] = -1 <-> ~ In c text.
Proof.
  split.
  - intros H F. destruct (in_last_split _ _ F) as (p & r & -> & N).
    rewrite lastIndexOf_last in H by assumption. lia.
  - intros H. unfold lastIndexOf. now apply lastIndexOf_from_none.
Qed.

Lemma has_fence_rule (text : jsstring) :
  has_fence text -> extractJson_rule text = ByFence.
Proof.
  intros H. unfold extractJson_rule.
  destruct (exec true fence_re text) eqn:E; [reflexivity|].
  apply exec_fence_re_none, find_fence_none in E. contradiction.
Qed.

Section DecodeFacts.
Context {P : Platform}.

(** C10.  The third [return] of [extractJson], the raw text, is taken
    exactly when the text has no json fence and lacks an opening brace or
    lacks a closing brace.  A text without a fence that holds both braces,
    its last closing brace before its first opening brace, takes the
    second [return] and yields the empty string, so [JSON.parse] throws
    on it; [}x{] is such a text. *)
Theorem raw_fallback_only_without_braces :
  (forall text,
     extractJson_rule text = ByRaw <->
     ~ has_fence text /\ ~ (In lbrace text /\ In rbrace text))
  /\
  (forall text p1 r1 p2 r2,
     ~ has_fence text ->
     text = p1 ++ lbrace :: r1 -> ~ In lbrace p1 ->
     text = p2 ++ rbrace :: r2 -> ~ In rbrace r2 ->
     (length p2 < length p1)%nat ->
     extractJson_rule text = ByBraces /\
     extractJson text = [] /\
     exists e, JSON_parse (extractJson text) = Throw e)
  /\
  (extractJson (str "}x{") = [] /\
   extractJson_rule (str "}x{") = ByBraces /\
   exists e, JSON_parse (extractJson (str "}x{")) = Throw e).
Proof.
  split; [|split].
  - intros text. split.
    + intros H.
      assert (Hf : ~ has_fence text).
      { intros F. rewrite (has_fence_rule _ F) in H. discriminate. }
      split; [assumption|]. intros [Hl Hr].
      destruct (extractJson_no_fence text Hf) as [_ R]. rewrite R in H.
      destruct (Z.eqb_spec (indexOf text [lbrace]) (-1)) as [E|_];
        [now apply indexOf_none_iff in E|].
      destruct (Z.eqb_spec (lastIndexOf text [rbrace]) (-1)) as [E|_];
        [now apply lastIndexOf_none_iff in E|].
      discriminate.
    + intros [Hf Hb].
      destruct (extractJson_no_fence text Hf) as [_ R]. rewrite R.
      destruct (Z.eqb_spec (indexOf text [lbrace]) (-1)) as [E|E];
        [reflexivity|].
      destruct (Z.eqb_spec (lastIndexOf text [rbrace]) (-1)) as [F|F];
        [reflexivity|].
      exfalso. apply Hb. split.
      * destruct (in_dec N.eq_dec lbrace text) as [I|I]; [assumption|].
        now apply indexOf_none_iff in I.
      * destruct (in_dec N.eq_dec rbrace text) as [I|I]; [assumption|].
        now apply lastIndexOf_none_iff in I.
  - intros text p1 r1 p2 r2 Hf H1 N1 H2 N2 L.
    destruct (extractJson_both_braces text p1 r1 p2 r2 Hf H1 N1 H2 N2) as [E R].
    assert (E0 : extractJson text = []).
    { rewrite E. apply slice_crossed; [assumption|].
      rewrite H1, length_app. lia. }
    split; [assumption | split; [assumption|]].
    rewrite E0. apply JSON_parse_empty.
  - assert (E0 : extractJson (str "}x{") = []) by (vm_compute; reflexivity).
    split; [assumption | split; [vm_compute; reflexivity|]].
    rewrite E0. apply JSON_parse_empty.
Qed.

End DecodeFacts.

Lemma raw_fallback_only_without_braces_witness :
  let P := Demo.platform Demo.online in
  let text := str "} then {" in
  (~ has_fence text /\
   text = str "} then " ++ lbrace :: [] /\ ~ In lbrace (str "} then ") /\
   text = [] ++ rbrace :: str " then {" /\ ~ In rbrace (str " then {") /\
   (length (@nil char) < length (str "} then "))%nat) /\
  extractJson_rule text = ByBraces /\
  extractJson text = [] /\
  exists e, JSON_parse (extractJson text) = Throw e.
Proof.
  intros P text.
  assert (F : ~ has_fence text)
    by (apply no_fence_by_scan; vm_compute; reflexivity).
  assert (N1 : ~ In lbrace (str "} then ")) by (vm_compute; intuition discriminate).
  assert (N2 : ~ In rbrace (str " then {")) by (vm_compute; intuition discriminate).
  assert (L : (length (@nil char) < length (str "} then "))%nat)
    by (vm_compute; lia).
  split; [repeat split; assumption|].
  exact (proj1 (proj2 (@raw_fallback_only_without_braces P)) text
           (str "} then ") [] [] (str " then {") F eq_refl N1 eq_refl N2 L).
Defined.

(** * Worked examples *)

Example extractJson_fenced :
  extractJson (str "Sure, here it is:
```JSON
{items: [], total: 0}
```
Hope this helps {really}.")
  = str "{items: [], total: 0}
".
Proof. vm_compute. reflexivity. Qed.

Example extractJson_braces :
  extractJson (str "The result is {a: {b: 1}} as requested.") = str "{a: {b: 1}}".
Proof. vm_compute. reflexivity. Qed.

Example extractJson_raw :
  extractJson (str "no payload at all") = str "no payload at all".
Proof. vm_compute. reflexivity. Qed.

Example extractJson_unclosed_fence :
  extractJson (str "```json {a}") = str "{a}".
Proof. vm_compute. reflexivity. Qed.

Example dedup_same_url :
  dedup [{| p_name := str "First"; p_url := str "https://devpost.com/software/x" |};
         {| p_name := str "Other"; p_url := str "https://devpost.com/software/y" |};
         {| p_name := str "Again"; p_url := str "https://devpost.com/software/x" |}]
  = [{| p_name := str "First"; p_url := str "https://devpost.com/software/x" |};
     {| p_name := str "Other"; p_url := str "https://devpost.com/software/y" |}].
Proof. vm_compute. reflexivity. Qed.

Example rank_ties_keep_order :
  map r_total (rank [result_with 70; result_with 90; result_with 70; result_with 40]%float)
  = [90; 70; 70; 40]%float /\
  rank [{| r_name := V (JStr (str "A")); r_url := Undefined; r_items := [];
           r_total := 70%float; r_error := None |};
        {| r_name := V (JStr (str "B")); r_url := Undefined; r_items := [];
           r_total := 70%float; r_error := None |}]
  = [{| r_name := V (JStr (str "A")); r_url := Undefined; r_items := [];
        r_total := 70%float; r_error := None |};
     {| r_name := V (JStr (str "B")); r_url := Undefined; r_items := [];
        r_total := 70%float; r_error := None |}].
Proof. split; reflexivity. Qed.

Example describe_collapses_trailing_space :
  replace_all false trailing_space_re (str "
") (str "Title   
  
Body  text
") = str "Title
Body  text
".
Proof. vm_compute. reflexivity. Qed.

(** A project that is [null]: reading [p.url] fails in the [try] block,
    reading [p.name] fails in the [catch] block, and the handler answers
    500. *)
Example score_null_project :
  fst (@score (Demo.platform Demo.online)
         (V (JObj [(str "projects", JArr [JNull]);
                   (str "rubric", JArr [JObj []])])) [])
  = Return (Send 500 (str "not an object")).
Proof. vm_compute. reflexivity. Qed.

(** Without a gallery URL the scrape handler answers 400; with one whose
    page loads it answers with the projects found. *)
Example scrape_missing_url :
  fst (@scrape_devpost (Demo.platform Demo.online) None [])
  = Return (Send 400 (str "Missing ?url")).
Proof. reflexivity. Qed.

Example scrape_demo :
  fst (@scrape_devpost (Demo.platform Demo.online)
         (Some (str "https://devpost.com/hackathons/demo/gallery")) [])
  = Return (JsonProjects []).
Proof. vm_compute. reflexivity. Qed.

(** * The frontend's escaping *)

Lemma replaceAll_single (c : char) (rep s : jsstring) :
  replaceAll s [c] rep = flat_map (fun d => if (c =? d)%N then rep else [d]) s.
Proof.
  unfold replaceAll. induction s as [|d s IH]; [reflexivity|].
  cbn [replaceAll_from flat_map]. rewrite starts_with_single.
  destruct (c =? d)%N; cbn [length app]; now rewrite IH.
Qed.

Lemma flat_map_comp {A B C} (f : A -> list B) (g : B -> list C) (l : list A) :
  flat_map g (flat_map f l) = flat_map (fun a => flat_map g (f a)) l.
Proof.
  induction l as [|a l IH]; cbn [flat_map]; [reflexivity|].
  now rewrite flat_map_app, IH.
Qed.

Lemma escape_one_pass (t : jsstring) : escape_text t = flat_map escape_unit t.
Proof.
  unfold escape_text.
  change (str "&") with [38%N]. change (str "<") with [60%N].
  change (str ">") with [62%N].
  rewrite !replaceAll_single, !flat_map_comp.
  apply flat_map_ext. intros c. unfold escape_unit.
  rewrite (N.eqb_sym c 38), (N.eqb_sym c 60), (N.eqb_sym c 62).
  destruct (38 =? c)%N eqn:E1; [reflexivity|].
  cbn [flat_map app]. destruct (60 =? c)%N eqn:E2; [reflexivity|].
  cbn [flat_map app]. destruct (62 =? c)%N eqn:E3; reflexivity.
Qed.

Lemma escape_unit_cancel (c d : char) (x y : jsstring) :
  escape_unit c ++ x = escape_unit d ++ y -> c = d /\ x = y.
Proof.
  unfold escape_unit.
  destruct (c =? 38)%N eqn:C1; [apply N.eqb_eq in C1|apply N.eqb_neq in C1];
  [|destruct (c =? 60)%N eqn:C2; [apply N.eqb_eq in C2|apply N.eqb_neq in C2];
    [|destruct (c =? 62)%N eqn:C3; [apply N.eqb_eq in C3|apply N.eqb_neq in C3]]];
  (destruct (d =? 38)%N eqn:D1; [apply N.eqb_eq in D1|apply N.eqb_neq in D1];
   [|destruct (d =? 60)%N eqn:D2; [apply N.eqb_eq in D2|apply N.eqb_neq in D2];
     [|destruct (d =? 62)%N eqn:D3; [apply N.eqb_eq in D3|apply N.eqb_neq in D3]]]);
  cbn [str map list_ascii_of_string N_of_ascii app]; intros H;
  try (injection H; intros; subst; split; congruence);
  try discriminate H.
Qed.

Lemma escape_unit_clean (c : char) :
  Forall (fun d => d <> 60%N /\ d <> 62%N) (escape_unit c).
Proof.
  unfold escape_unit.
  destruct (c =? 38)%N; [repeat constructor; discriminate|].
  destruct (c =? 60)%N eqn:E2; [repeat constructor; discriminate|].
  destruct (c =? 62)%N eqn:E3; [repeat constructor; discriminate|].
  apply N.eqb_neq in E2, E3. repeat constructor; assumption.
Qed.

Section FrontendFacts.
Context {P : Platform}.

(** X1.  [escapeHtml] amounts to one pass over the text in which an
    ampersand, a less-than sign and a greater-than sign become their
    entities and every other code unit stays: the ampersands that the
    first replacement writes are not escaped again by the later ones.  The
    result holds no angle bracket, texts without the three characters
    (double quotes among them) come back unchanged, different texts stay
    different, and a missing value is rendered as the word undefined. *)
Theorem escapeHtml_one_pass :
  (forall t : jsstring,
     escapeHtml (V (JStr t)) = Return (flat_map escape_unit t)) /\
  (forall t : jsstring,
     Forall (fun d => d <> 60%N /\ d <> 62%N) (escape_text t)) /\
  (forall t : jsstring,
     Forall (fun c => c <> 38%N /\ c <> 60%N /\ c <> 62%N) t ->
     escape_text t = t) /\
  (forall s t : jsstring, escape_text s = escape_text t -> s = t) /\
  escape_text (str "a<b && c>d") = str "a&lt;b &amp;&amp; c&gt;d" /\
  escape_text dq = dq /\
  escapeHtml Undefined = Return (str "undefined").
Proof.
  split; [|split; [|split; [|split; [|split; [|split]]]]].
  - intros t. unfold escapeHtml. cbn [ToStringV ToString obind].
    now rewrite escape_one_pass.
  - intros t. rewrite escape_one_pass.
    induction t as [|c t IH]; cbn [flat_map]; [constructor|].
    apply Forall_app. split; [apply escape_unit_clean | assumption].
  - intros t H. rewrite escape_one_pass.
    induction H as [|c t (H1 & H2 & H3) _ IH]; cbn [flat_map]; [reflexivity|].
    assert (E : escape_unit c = [c]).
    { unfold escape_unit. apply N.eqb_neq in H1, H2, H3.
      now rewrite H1, H2, H3. }
    rewrite E, IH. reflexivity.
  - intros s t. rewrite !escape_one_pass. revert t.
    induction s as [|c s IH]; intros [|d t]; cbn [flat_map]; intros H.
    + reflexivity.
    + exfalso. unfold escape_unit in H.
      destruct (d =? 38)%N; [discriminate|].
      destruct (d =? 60)%N; [discriminate|].
      destruct (d =? 62)%N; discriminate.
    + exfalso. unfold escape_unit in H.
      destruct (c =? 38)%N; [discriminate|].
      destruct (c =? 60)%N; [discriminate|].
      destruct (c =? 62)%N; discriminate.
    + apply escape_unit_cancel in H as [-> H]. f_equal. now apply IH.
  - reflexivity.
  - reflexivity.
  - reflexivity.
Qed.

End FrontendFacts.

(** * More on the decoder and the client *)

Lemma slice_substring (s : jsstring) (a b : Z) : substring (slice s a b) s.
Proof.
  unfold slice, substring.
  set (len := Z.of_nat (length s)).
  set (from := if a <? 0 then Z.max (len + a) 0 else Z.min a len).
  set (to := if b <? 0 then Z.max (len + b) 0 else Z.min b len).
  exists (firstn (Z.to_nat from) s),
         (skipn (Z.to_nat (to - from)) (skipn (Z.to_nat from) s)).
  now rewrite !firstn_skipn.
Qed.

Lemma substring_length (pat s : jsstring) :
  substring pat s -> (length pat <= length s)%nat.
Proof. intros (pre & post & ->). rewrite !length_app. lia. Qed.

(** X2.  Whatever the text, what [extractJson] returns is a contiguous
    part of it: the decoder only cuts, it never builds text of its own, so
    the result is never longer than the reply.  When the text holds a json
    fence, the result holds no closing marker. *)
Theorem extractJson_cuts :
  (forall text : jsstring, substring (extractJson text) text) /\
  (forall text : jsstring, (length (extractJson text) <= length text)%nat) /\
  (forall text : jsstring,
     has_fence text -> ~ substring fence_close (extractJson text)).
Proof.
  assert (S : forall text : jsstring, substring (extractJson text) text).
  { intros text. rewrite extractJson_scan.
    destruct (find_fence text) as [body|] eqn:E.
    - apply find_fence_spec in E as (pre & op & ws & post & (F & _) & _).
      exists (pre ++ op ++ ws), (fence_close ++ post).
      rewrite F, <- !app_assoc. reflexivity.
    - cbv zeta. destruct (_ && _); [apply slice_substring|].
      exists [], []. now rewrite app_nil_r. }
  split; [exact S|]. split; [intros text; apply substring_length, S|].
  intros text H. rewrite extractJson_scan.
  destruct (find_fence text) as [body|] eqn:E;
    [|now apply has_fence_find in H].
  apply find_fence_spec in E as (pre & op & ws & post & (_ & _ & _ & _ & M) & _).
  intros (x & y & B).
  specialize (M x (y ++ fence_close ++ post)).
  rewrite B in M. rewrite <- !app_assoc in M. specialize (M eq_refl).
  rewrite !length_app in M. cbn [fence_close str length map list_ascii_of_string] in M.
  lia.
Qed.

Section ClientFacts.
Context {P : Platform}.

(** X3.  Whenever [geminiCall] returns a text, a credential was
    available, exactly the one request to the model endpoint was answered
    with a success status, the body was read as JSON, and the text is the
    trimmed first candidate: it is not empty and has no white space at
    either end.  The world returned is the one left by reading the body. *)
Theorem geminiCall_returns
  (model : value) (prompt : jsstring) (apiKey : option jsstring)
  (w w' : world) (text : jsstring) :
  geminiCall model prompt apiKey w = (Return text, w') ->
  exists key m k resp w1 data,
    credential apiKey = Some key /\
    obind (ToStringV model) encodeURIComponent = Return m /\
    encodeURIComponent key = Return k /\
    fetch (gemini_request (gemini_endpoint m k) prompt) w = (Return resp, w1) /\
    resp_ok resp = true /\
    resp_json resp w1 = (Return data, w') /\
    reply_text data = Return text /\
    text <> [] /\
    (forall c tl, text = c :: tl -> is_space c = false) /\
    (forall c hd, text = hd ++ [c] -> is_space c = false).
Proof.
  unfold geminiCall, bind, lift, throw, ret.
  destruct (credential apiKey) as [key|]; [|discriminate].
  destruct (obind (ToStringV model) encodeURIComponent) as [m|]; [|discriminate].
  destruct (encodeURIComponent key) as [k|] eqn:K; [|discriminate].
  destruct (fetch _ w) as [[resp|] w1] eqn:F; [|discriminate].
  destruct (resp_ok resp) eqn:O; cbn [negb].
  - destruct (resp_json resp w1) as [[data|] w2] eqn:J; [|discriminate].
    destruct (reply_text data) as [t|] eqn:R; [|discriminate].
    destruct t as [|c t]; [discriminate|].
    intros H. injection H as Ht Hw. subst text w'.
    exists key, m, k, resp, w1, data.
    destruct (reply_text_trimmed _ _ R) as [T1 T2].
    do 7 (split; [first [reflexivity | assumption]|]).
    split; [discriminate|]. split; assumption.
  - destruct (resp_text resp w1) as [[t|] w2]; discriminate.
Qed.

End ClientFacts.

Lemma geminiCall_returns_witness :
  let P := Demo.platform Demo.online in
  let prompt := str "Score this" in
  let url := gemini_endpoint (str "gemini-1.5-pro") (str "key") in
  @geminiCall P default_model prompt None []
  = (Return (str "{}"), [gemini_request url prompt]) /\
  exists key m k resp w1 data,
    credential None = Some key /\
    obind (ToStringV default_model) encodeURIComponent = Return m /\
    encodeURIComponent key = Return k /\
    fetch (gemini_request (gemini_endpoint m k) prompt) [] = (Return resp, w1) /\
    resp_ok resp = true /\
    resp_json resp w1 = (Return data, [gemini_request url prompt]) /\
    reply_text data = Return (str "{}").
Proof.
  intros P prompt url.
  assert (H : @geminiCall P default_model prompt None []
              = (Return (str "{}"), [gemini_request url prompt]))
    by reflexivity.
  split; [exact H|].
  destruct (@geminiCall_returns P default_model prompt None [] _ _ H)
    as (key & m & k & resp & w1 & data & H1 & H2 & H3 & H4 & H5 & H6 & H7 & _).
  exists key, m, k, resp, w1, data. repeat split; assumption.
Defined.

(** * More on the gallery handler *)

Lemma subseq_Forall {A} (Q : A -> Prop) (l1 l2 : list A) :
  subseq l1 l2 -> Forall Q l2 -> Forall Q l1.
Proof.
  induction 1 as [|x l1 l2 _ IH|x l1 l2 _ IH]; intros H.
  - constructor.
  - inversion H; subst. now apply IH.
  - inversion H; subst. constructor; [assumption | now apply IH].
Qed.

Lemma subseq_length {A} (l1 l2 : list A) :
  subseq l1 l2 -> (length l1 <= length l2)%nat.
Proof. induction 1; cbn [length]; lia. Qed.

Lemma subseq_map {A B} (f : A -> B) (l1 l2 : list A) :
  subseq l1 l2 -> subseq (map f l1) (map f l2).
Proof. induction 1; cbn [map]; now constructor. Qed.

Lemma subseq_trans {A} (l1 l2 l3 : list A) :
  subseq l1 l2 -> subseq l2 l3 -> subseq l1 l3.
Proof.
  intros H12 H23. revert l1 H12.
  induction H23 as [|x l2 l3 _ IH|x l2 l3 _ IH]; intros l1 H12.
  - exact H12.
  - constructor. now apply IH.
  - inversion H12; subst; constructor; now apply IH.
Qed.

Lemma keep_first_fixed (seen : list jsstring) (l : list project) :
  NoDup (map p_url l) ->
  (forall u, In u (map p_url l) -> ~ In u seen) ->
  keep_first seen l = l.
Proof.
  revert seen; induction l as [|p l IH]; intros seen N D; cbn [keep_first];
    [reflexivity|].
  cbn [map] in N, D. inversion N as [|? ? Hp N']; subst.
  destruct (existsb (jseqb (p_url p)) seen) eqn:E.
  - apply existsb_jseqb in E. exfalso. apply (D (p_url p)); [now left | assumption].
  - f_equal. apply IH; [assumption|].
    intros u Hu [<-|Hs]; [contradiction|].
    apply (D u); [now right | assumption].
Qed.

(** X4.  Deduplicating twice is deduplicating once; a list whose URLs
    are already distinct comes back as it is; the result is never longer
    than the input, and its first project is the first project of the
    input. *)
Theorem dedup_idempotent :
  (forall l : list project, dedup (dedup l) = dedup l) /\
  (forall l : list project, NoDup (map p_url l) -> dedup l = l) /\
  (forall l : list project, (length (dedup l) <= length l)%nat) /\
  (forall (p : project) (l : list project),
     exists l', dedup (p :: l) = p :: l' /\ subseq l' l).
Proof.
  assert (F : forall l : list project, NoDup (map p_url l) -> dedup l = l).
  { intros l N. rewrite dedup_keep_first.
    apply keep_first_fixed; [assumption | intros u _ []]. }
  split; [|split; [exact F|split]].
  - intros l. apply F. rewrite dedup_keep_first. apply keep_first_NoDup.
  - intros l. rewrite dedup_keep_first.
    apply subseq_length, keep_first_subseq.
  - intros p l. rewrite dedup_keep_first. cbn [keep_first existsb].
    eexists. split; [reflexivity | apply keep_first_subseq].
Qed.

Section HarvestFacts.
Context {P : Platform}.

Lemma harvest_anchor_cases (base : jsstring) (a : anchor) :
  harvest_anchor base a = [] \/
  exists p, harvest_anchor base a = [p] /\ well_harvested p /\
            p_name p = trim (a_text a) /\
            p_url p = absoluteUrl (or_empty (a_href a)) base.
Proof.
  rewrite harvest_anchor_guards.
  destruct (_ && _ && _) eqn:G; [right | now left].
  apply guards_spec in G as (_ & L & U).
  eexists. split; [reflexivity|]. split; [|split; reflexivity].
  unfold well_harvested. cbn [p_name p_url].
  split; [assumption|]. split; [apply trim_first|]. split; [apply trim_last|].
  assumption.
Qed.

Lemma harvest_well (base : jsstring) (anchors : list anchor) :
  Forall well_harvested (harvest base anchors).
Proof.
  unfold harvest. induction anchors as [|a l IH]; cbn [flat_map]; [constructor|].
  apply Forall_app. split; [|assumption].
  destruct (harvest_anchor_cases base a) as [E|(p & E & Hp & _)]; rewrite E.
  - constructor.
  - constructor; [assumption | constructor].
Qed.

Lemma harvest_in_order {B} (f : project -> B) (g : anchor -> B)
  (base : jsstring) (anchors : list anchor) :
  (forall a p, harvest_anchor base a = [p] -> f p = g a) ->
  subseq (map f (harvest base anchors)) (map g anchors).
Proof.
  intros H. unfold harvest.
  induction anchors as [|a l IH]; cbn [flat_map map]; [constructor|].
  rewrite map_app.
  destruct (harvest_anchor_cases base a) as [E|(p & E & _)]; rewrite E;
    cbn [map app].
  - now constructor.
  - rewrite (H a p E). now constructor.
Qed.

(** X5.  Whatever the page holds, every harvested project has a trimmed
    name of more than two code units and a URL that holds [/project/] or
    [/software/] in lower case; the URL is the anchor's address resolved
    against the page's, or that address as it is when it cannot be
    resolved.  Each anchor contributes at most one project, and names and
    URLs come in the order of the anchors.  All of this holds of the
    harvest and of the deduplicated list that the handler answers with. *)
Theorem harvest_invariant (base : jsstring) (anchors : list anchor) :
  let names := map (fun a => trim (a_text a)) anchors in
  let urls := map (fun a => absoluteUrl (or_empty (a_href a)) base) anchors in
  (Forall well_harvested (harvest base anchors) /\
   subseq (map p_name (harvest base anchors)) names /\
   subseq (map p_url (harvest base anchors)) urls /\
   (length (harvest base anchors) <= length anchors)%nat) /\
  (Forall well_harvested (dedup (harvest base anchors)) /\
   subseq (map p_name (dedup (harvest base anchors))) names /\
   subseq (map p_url (dedup (harvest base anchors))) urls /\
   (length (dedup (harvest base anchors)) <= length anchors)%nat) /\
  (forall a : anchor,
     absoluteUrl (or_empty (a_href a)) base
     = match URL_toString (or_empty (a_href a)) base with
       | Return u => u
       | Throw _ => or_empty (a_href a)
       end).
Proof.
  intros names urls.
  assert (N : subseq (map p_name (harvest base anchors)) names).
  { apply harvest_in_order. intros a p E.
    destruct (harvest_anchor_cases base a) as [E'|(p' & E' & _ & Hn & _)];
      rewrite E' in E; [discriminate | congruence]. }
  assert (U : subseq (map p_url (harvest base anchors)) urls).
  { apply harvest_in_order. intros a p E.
    destruct (harvest_anchor_cases base a) as [E'|(p' & E' & _ & _ & Hu)];
      rewrite E' in E; [discriminate | congruence]. }
  assert (L : (length (harvest base anchors) <= length anchors)%nat).
  { apply subseq_length in N. unfold names in N. now rewrite !length_map in N. }
  pose proof (keep_first_subseq [] (harvest base anchors)) as S.
  rewrite <- dedup_keep_first in S.
  split; [|split].
  - split; [apply harvest_well|]. split; [exact N|]. split; [exact U | exact L].
  - split; [eapply subseq_Forall; [exact S | apply harvest_well]|].
    split; [eapply subseq_trans; [apply subseq_map; exact S | exact N]|].
    split; [eapply subseq_trans; [apply subseq_map; exact S | exact U]|].
    apply subseq_length in S. lia.
  - reflexivity.
Qed.

End HarvestFacts.

Section ScrapeFacts.
Context {P : Platform}.

Lemma scrape_devpost_body (u : jsstring) (w : world) :
  u <> [] ->
  scrape_devpost (Some u) w =
  match fetch (page_request (V (JStr u))) w with
  | (Throw e, w1) => (Return (Send 500 (err_text e)), w1)
  | (Return page, w1) =>
      if resp_ok page then
        match resp_text page w1 with
        | (Throw e, w2) => (Return (Send 500 (err_text e)), w2)
        | (Return html, w2) =>
            (Return (JsonProjects
                       (dedup (harvest u (dom_anchors (cheerio_load html))))), w2)
        end
      else (Return (Send 500 (str "Fetch failed: " ++ dec (resp_status page))), w1)
  end.
Proof.
  destruct u as [|c u]; [congruence|]. intros _.
  unfold scrape_devpost, try_catch, bind, throw, ret.
  destruct (fetch _ w) as [[page|e] w1]; [|reflexivity].
  destruct (resp_ok page); cbn [negb]; [|reflexivity].
  destruct (resp_text page w1) as [[html|e] w2]; reflexivity.
Qed.

(** X6.  The gallery handler always answers, whatever the platform does:
    400 and nothing else done exactly when the address is missing or
    empty; otherwise 500 with a text, or the projects harvested from the
    page that was fetched with a success status, which then have distinct
    URLs and pass the harvester's tests. *)
Theorem scrape_devpost_responds (url : option jsstring) (w : world) :
  exists resp w',
    scrape_devpost url w = (Return resp, w') /\
    (((url = None \/ url = Some []) /\
      resp = Send 400 (str "Missing ?url") /\ w' = w)
     \/
     (exists u, url = Some u /\ u <> [] /\
        ((exists body, resp = Send 500 body) \/
         (exists page w1 html,
            fetch (page_request (V (JStr u))) w = (Return page, w1) /\
            resp_ok page = true /\
            resp_text page w1 = (Return html, w') /\
            let found := dedup (harvest u (dom_anchors (cheerio_load html))) in
            resp = JsonProjects found /\
            NoDup (map p_url found) /\
            Forall well_harvested found)))).
Proof.
  destruct url as [[|c u]|].
  - exists (Send 400 (str "Missing ?url")), w. split; [reflexivity|]. left. auto.
  - assert (N : c :: u <> []) by discriminate.
    rewrite (scrape_devpost_body (c :: u) w N).
    destruct (fetch _ w) as [[page|e] w1] eqn:F.
    + destruct (resp_ok page) eqn:O.
      * destruct (resp_text page w1) as [[html|e] w2] eqn:T.
        -- eexists _, w2. split; [reflexivity|]. right.
           exists (c :: u). split; [reflexivity|]. split; [exact N|]. right.
           exists page, w1, html. cbv zeta.
           split; [exact F|]. split; [exact O|]. split; [exact T|].
           split; [reflexivity|]. split.
           ++ rewrite dedup_keep_first. apply keep_first_NoDup.
           ++ rewrite dedup_keep_first.
              eapply subseq_Forall; [apply keep_first_subseq | apply harvest_well].
        -- eexists _, w2. split; [reflexivity|]. right.
           exists (c :: u). split; [reflexivity|]. split; [exact N|]. left.
           eexists; reflexivity.
      * eexists _, w1. split; [reflexivity|]. right.
        exists (c :: u). split; [reflexivity|]. split; [exact N|]. left.
        eexists; reflexivity.
    + eexists _, w1. split; [reflexivity|]. right.
      exists (c :: u). split; [reflexivity|]. split; [exact N|]. left.
      eexists; reflexivity.
  - exists (Send 400 (str "Missing ?url")), w. split; [reflexivity|]. left. auto.
Qed.

(** X7.  For an address that is not empty: a failure of the request is
    answered 500 with the failure's text; a page with a failure status is
    answered 500 with [Fetch failed: ] and the status, its body not being
    read; a body that cannot be read is answered 500 with that failure's
    text.  In each case the world is the one the failing step left. *)
Theorem scrape_devpost_failures (u : jsstring) (w : world) :
  u <> [] ->
  (forall e w1,
     fetch (page_request (V (JStr u))) w = (Throw e, w1) ->
     scrape_devpost (Some u) w = (Return (Send 500 (err_text e)), w1)) /\
  (forall page w1,
     fetch (page_request (V (JStr u))) w = (Return page, w1) ->
     (resp_ok page = false ->
        scrape_devpost (Some u) w
        = (Return (Send 500 (str "Fetch failed: " ++ dec (resp_status page))), w1)) /\
     (resp_ok page = true ->
        forall e w2,
          resp_text page w1 = (Throw e, w2) ->
          scrape_devpost (Some u) w = (Return (Send 500 (err_text e)), w2))).
Proof.
  intros N. split.
  - intros e w1 F. now rewrite scrape_devpost_body, F.
  - intros page w1 F. split.
    + intros O. now rewrite scrape_devpost_body, F, O.
    + intros O e w2 T. now rewrite scrape_devpost_body, F, O, T.
Qed.

End ScrapeFacts.

Lemma scrape_devpost_failures_witness :
  let P := Lab.platform Lab.missing_pages (Some (str "key")) in
  let u := str "https://devpost.com/hackathons/gone" in
  (u <> [] /\
   fetch (page_request (V (JStr u))) []
   = (Return Lab.not_found, [page_request (V (JStr u))]) /\
   resp_ok Lab.not_found = false) /\
  @scrape_devpost P (Some u) []
  = (Return (Send 500 (str "Fetch failed: 404")), [page_request (V (JStr u))]).
Proof.
  intros P u.
  assert (N : u <> []) by discriminate.
  split; [split; [exact N | split; reflexivity]|].
  exact (proj1 (proj2 (@scrape_devpost_failures P u [] N) Lab.not_found
                  [page_request (V (JStr u))] eq_refl) eq_refl).
Defined.

(** * More on the rubric handler *)

Section RubricFacts.
Context {P : Platform}.

Lemma parse_rubric_body (model : value) (f : buffer) (w : world) :
  parse_rubric model (Some f) w =
  match pdf f w with
  | (Throw e, w1) => (Return (Send 500 (err_text e)), w1)
  | (Return text, w1) =>
      match geminiCall (js_or model default_model) (rubric_prompt text) None w1 with
      | (Throw e, w2) => (Return (Send 500 (err_text e)), w2)
      | (Return raw, w2) =>
          match rubric_of_reply raw with
          | Throw e => (Return (Send 500 (err_text e)), w2)
          | Return criteria => (Return (JsonRubric criteria), w2)
          end
      end
  end.
Proof.
  unfold parse_rubric, try_catch, bind, lift, ret.
  destruct (pdf f w) as [[text|e] w1]; [|reflexivity].
  destruct (geminiCall _ _ None w1) as [[raw|e] w2]; [|reflexivity].
  destruct (rubric_of_reply raw); reflexivity.
Qed.

Lemma rubric_of_reply_returns (raw : jsstring) (criteria : list json) :
  rubric_of_reply raw = Return criteria ->
  exists parsed,
    JSON_parse (extractJson raw) = Return parsed /\ parsed <> JNull /\
    criteria = array_or_empty (opt_prop (V parsed) (str "criteria")).
Proof.
  unfold rubric_of_reply.
  destruct (JSON_parse (extractJson raw)) as [parsed|]; [|discriminate].
  cbn [obind]. intros H. exists parsed. split; [reflexivity|].
  destruct parsed; try (split; [discriminate|]); cbn in H |- *;
    try discriminate; congruence.
Qed.

(** X8.  The rubric handler always answers, whatever the platform does:
    400 and nothing else done exactly when no file came with the request;
    otherwise 500 with a text, or the criteria.  Criteria are answered
    only when the document was read, the model returned a text, and the
    part of it that [extractJson] cuts out parsed to a value other than
    [null]; they are then that value's [criteria] when it is an array,
    with its entries as they are, and no criteria otherwise.  A model
    name that is falsy stands for the default one. *)
Theorem parse_rubric_responds (model : value) (file : option buffer) (w : world) :
  (exists resp w',
     parse_rubric model file w = (Return resp, w') /\
     ((file = None /\ resp = Send 400 (str "No rubric file uploaded") /\ w' = w)
      \/
      (exists f, file = Some f /\
         ((exists body, resp = Send 500 body) \/
          (exists text w1 raw parsed,
             pdf f w = (Return text, w1) /\
             geminiCall (js_or model default_model) (rubric_prompt text) None w1
             = (Return raw, w') /\
             JSON_parse (extractJson raw) = Return parsed /\
             parsed <> JNull /\
             resp = JsonRubric
                      (array_or_empty (opt_prop (V parsed) (str "criteria"))))))))
  /\
  (truthy model = false ->
   parse_rubric model file w = parse_rubric default_model file w).
Proof.
  split.
  - destruct file as [f|].
    + rewrite parse_rubric_body.
      destruct (pdf f w) as [[text|e] w1] eqn:D.
      * destruct (geminiCall _ _ None w1) as [[raw|e] w2] eqn:G.
        -- destruct (rubric_of_reply raw) as [criteria|e] eqn:R.
           ++ apply rubric_of_reply_returns in R as (parsed & R1 & R2 & ->).
              eexists _, w2. split; [reflexivity|]. right. exists f.
              split; [reflexivity|]. right. exists text, w1, raw, parsed.
              repeat split; assumption.
           ++ eexists _, w2. split; [reflexivity|]. right. exists f.
              split; [reflexivity|]. left. eexists; reflexivity.
        -- eexists _, w2. split; [reflexivity|]. right. exists f.
           split; [reflexivity|]. left. eexists; reflexivity.
      * eexists _, w1. split; [reflexivity|]. right. exists f.
        split; [reflexivity|]. left. eexists; reflexivity.
    + eexists _, w. split; [reflexivity|]. left. auto.
  - intros H. unfold parse_rubric, js_or. rewrite H. reflexivity.
Qed.

(** X9.  With no credential in the process configuration, a rubric
    request that carries a file is answered 500 with the configuration
    message once the document has been read, and no request is sent: the
    world is the one the document reader left.  A document that cannot be
    read is answered 500 with that failure's text. *)
Theorem parse_rubric_missing_key (model : value) (f : buffer) (w : world) :
  credential None = None ->
  (forall text w1,
     pdf f w = (Return text, w1) ->
     parse_rubric model (Some f) w
     = (Return (Send 500 (str "Missing GEMINI_API_KEY (set in backend .env)")),
        w1)) /\
  (forall e w1,
     pdf f w = (Throw e, w1) ->
     parse_rubric model (Some f) w = (Return (Send 500 (err_text e)), w1)).
Proof.
  intros C. split.
  - intros text w1 D. rewrite parse_rubric_body, D.
    unfold geminiCall. rewrite C. reflexivity.
  - intros e w1 D. now rewrite parse_rubric_body, D.
Qed.

End RubricFacts.

Lemma parse_rubric_missing_key_witness :
  let P := Lab.platform Demo.online None in
  (credential None = None /\
   pdf (str "Rubric: Tech 60%") [] = (Return (str "Rubric: Tech 60%"), [])) /\
  @parse_rubric P Undefined (Some (str "Rubric: Tech 60%")) []
  = (Return (Send 500 (str "Missing GEMINI_API_KEY (set in backend .env)")), []).
Proof.
  intros P. split; [split; reflexivity|].
  exact (proj1 (@parse_rubric_missing_key P Undefined (str "Rubric: Tech 60%") []
                  eq_refl) _ _ eq_refl).
Defined.

(** * More on the scoring handler *)

Lemma js_or_truthy (a b : value) : truthy b = true -> truthy (js_or a b) = true.
Proof. unfold js_or. destruct (truthy a) eqn:E; auto. Qed.

Lemma rank_all_zero (rs : list project_result) :
  Forall (fun r => r_total r = 0%float) rs -> rank rs = rs.
Proof.
  unfold rank. induction 1 as [|x l Hx Hl IH]; cbn [sort]; [reflexivity|].
  rewrite IH. destruct Hl as [|y l Hy Hl]; cbn [insert]; [reflexivity|].
  unfold behind, by_total. rewrite Hx, Hy. reflexivity.
Qed.

Lemma json_null_dec (j : json) : {j = JNull} + {j <> JNull}.
Proof. destruct j; first [now left | right; discriminate]. Qed.

Section ScoreFacts.
Context {P : Platform}.

Lemma score_one_null (rubric : list json) (mdl : value) (w : world) :
  score_one rubric mdl JNull w
  = (Throw (TypeError (NullProperty (str "name"))), w).
Proof. reflexivity. Qed.

Lemma score_loop_cases (rubric : list json) (mdl : value) (projects : list json) :
  forall (acc : list project_result) (w : world),
    (Forall (fun p => p <> JNull) projects /\
     exists rs w', score_loop rubric mdl projects acc w = (Return (acc ++ rs), w') /\
                   batch rubric mdl projects w rs w') \/
    (In JNull projects /\
     exists w', score_loop rubric mdl projects acc w
                = (Throw (TypeError (NullProperty (str "name"))), w')).
Proof.
  induction projects as [|p ps IH]; intros acc w.
  - left. split; [constructor|]. exists [], w. cbn [score_loop].
    rewrite app_nil_r. split; [reflexivity | constructor].
  - cbn [score_loop]. unfold bind.
    destruct (json_null_dec p) as [->|Hp].
    + right. split; [now left|]. rewrite score_one_null. now exists w.
    + destruct (score_one_settles rubric mdl p w Hp)
        as [(r & w1 & H1 & H2)|(e & w1 & H1 & H2)]; rewrite H2.
      * destruct (IH (acc ++ [r]) w1) as [(F & rs & w' & L & B)|(I & w' & L)].
        -- left. split; [now constructor|]. exists (r :: rs), w'.
           rewrite L, <- app_assoc. split; [reflexivity|].
           econstructor; eassumption.
        -- right. split; [now right|]. now exists w'.
      * destruct (IH (acc ++ [failed_result p e]) w1)
          as [(F & rs & w' & L & B)|(I & w' & L)].
        -- left. split; [now constructor|]. exists (failed_result p e :: rs), w'.
           rewrite L, <- app_assoc. split; [reflexivity|].
           econstructor; eassumption.
        -- right. split; [now right|]. now exists w'.
Qed.

(** X10.  The scoring handler always answers, whatever the platform
    does, and which answer it gives is settled by the request alone: 400
    for the projects when they are not a non-empty array, whatever the
    rubric is; else 400 for the rubric when it is not a non-empty array,
    in both cases with nothing else done; else 500 with the engine's
    message for reading [name] of [null] when some project is [null], all
    results of the batch being lost; else the ranked results, one per
    project. *)
Theorem score_responds (body : value) (w : world) :
  let b := js_or body (V (JObj [])) in
  exists resp w',
    score body w = (Return resp, w') /\
    match nonempty_array (opt_prop b (str "projects")),
          nonempty_array (opt_prop b (str "rubric")) with
    | None, _ => resp = Send 400 (str "Missing projects[]") /\ w' = w
    | Some _, None => resp = Send 400 (str "Missing rubric[]") /\ w' = w
    | Some projects, Some rubric =>
        (In JNull projects /\
         resp = Send 500 (err_text (TypeError (NullProperty (str "name")))))
        \/
        (Forall (fun p => p <> JNull) projects /\
         exists rs,
           resp = JsonResults (rank rs) /\ length rs = length projects /\
           batch rubric (js_or (opt_prop b (str "model")) default_model)
                 projects w rs w')
    end.
Proof.
  intros b. unfold score, try_catch. fold b.
  destruct (nonempty_array (opt_prop b (str "projects"))) as [projects|].
  - destruct (nonempty_array (opt_prop b (str "rubric"))) as [rubric|].
    + unfold bind.
      destruct (score_loop_cases rubric
                  (js_or (opt_prop b (str "model")) default_model) projects [] w)
        as [(F & rs & w' & L & B)|(I & w' & L)]; rewrite L.
      * eexists _, w'. split; [reflexivity|]. right. split; [assumption|].
        exists rs. split; [reflexivity|]. split; [|assumption].
        eapply batch_length; eassumption.
      * eexists _, w'. split; [reflexivity|]. left. now split.
    + eexists _, w. split; [reflexivity|]. now split.
  - eexists _, w. split; [reflexivity|]. now split.
Qed.

End ScoreFacts.

Section ProjectFacts.
Context {P : Platform}.

Lemma score_project_body (rubric : list json) (mdl : value) (p : json) (w : world) :
  p <> JNull ->
  score_project rubric mdl p w =
  let url := opt_prop (V p) (str "url") in
  match fetch (page_request url) w with
  | (Throw e, w1) => (Throw e, w1)
  | (Return page, w1) =>
      if resp_ok page then
        match resp_text page w1 with
        | (Throw e, w2) => (Throw e, w2)
        | (Return html, w2) =>
            let d := cheerio_load html in
            match project_prompt rubric (title_of d p) url (describe d) with
            | Throw e => (Throw e, w2)
            | Return prompt =>
                match geminiCall mdl prompt None w2 with
                | (Throw e, w3) => (Throw e, w3)
                | (Return raw, w3) => (result_of_reply (title_of d p) url raw, w3)
                end
            end
        end
      else (Throw (Error (str "Fetch " ++ dec (resp_status page))), w1)
  end.
Proof.
  intros H. unfold score_project, bind, lift, throw.
  rewrite get_prop_not_null by assumption. cbv zeta.
  destruct (fetch _ w) as [[page|e] w1]; [|reflexivity].
  destruct (resp_ok page); cbn [negb]; [|reflexivity].
  destruct (resp_text page w1) as [[html|e] w2]; [|reflexivity].
  destruct (project_prompt _ _ _ _); [|reflexivity].
  destruct (geminiCall _ _ None w2) as [[raw|e] w3]; reflexivity.
Qed.

Lemma score_one_failed (rubric : list json) (mdl : value) (p : json)
  (w w1 : world) (e : exn) :
  p <> JNull -> score_project rubric mdl p w = (Throw e, w1) ->
  score_one rubric mdl p w = (Return (failed_result p e), w1).
Proof.
  intros H E. unfold score_one, try_catch. rewrite E.
  now apply placeholder_not_null.
Qed.

(** X11.  A project that is not [null] and whose page cannot be had
    gets its placeholder, and the model is not asked: when the request
    for the page fails, the error is that failure's text; when the page
    comes with a failure status, the error is [Fetch ] and the status,
    and the body is not read.  The world is the one the request left. *)
Theorem page_failure_placeholder
  (rubric : list json) (mdl : value) (p : json) (w : world) :
  p <> JNull ->
  (forall e w1,
     fetch (page_request (opt_prop (V p) (str "url"))) w = (Throw e, w1) ->
     score_one rubric mdl p w = (Return (failed_result p e), w1)) /\
  (forall page w1,
     fetch (page_request (opt_prop (V p) (str "url"))) w = (Return page, w1) ->
     resp_ok page = false ->
     let e := Error (str "Fetch " ++ dec (resp_status page)) in
     score_one rubric mdl p w = (Return (failed_result p e), w1) /\
     r_error (failed_result p e)
     = Some (str "Fetch " ++ dec (resp_status page))).
Proof.
  intros H. split.
  - intros e w1 F. apply score_one_failed; [assumption|].
    rewrite score_project_body by assumption. cbv zeta. now rewrite F.
  - intros page w1 F O e. split; [|reflexivity].
    apply score_one_failed; [assumption|].
    rewrite score_project_body by assumption. cbv zeta. now rewrite F, O.
Qed.

Lemma batch_all_failed (rubric : list json) (mdl : value)
  (projects : list json) (w w' : world) (rs : list project_result) :
  (forall p w0 r w1, score_project rubric mdl p w0 <> (Return r, w1)) ->
  batch rubric mdl projects w rs w' ->
  Forall2 (fun p r => exists e, r = failed_result p e) projects rs.
Proof.
  intros N. induction 1 as [w|p ps w r w1 rs w2 H _ _|p ps w e w1 rs w2 H _ IH].
  - constructor.
  - now apply N in H.
  - constructor; [now exists e | assumption].
Qed.

Lemma all_failed_rank (projects : list json) (rs : list project_result) :
  Forall2 (fun p r => exists e, r = failed_result p e) projects rs ->
  rank rs = rs.
Proof.
  intros H. apply rank_all_zero.
  induction H as [|p r ps rs (e & ->) _ IH]; constructor; [reflexivity | assumption].
Qed.

Lemma score_all_failed (body : value) (projects rubric : list json) (w : world) :
  let b := js_or body (V (JObj [])) in
  nonempty_array (opt_prop b (str "projects")) = Some projects ->
  nonempty_array (opt_prop b (str "rubric")) = Some rubric ->
  Forall (fun p => p <> JNull) projects ->
  (forall p w0 r w1,
     score_project rubric (js_or (opt_prop b (str "model")) default_model) p w0
     <> (Return r, w1)) ->
  exists rs w',
    score body w = (Return (JsonResults rs), w') /\
    Forall2 (fun p r => exists e, r = failed_result p e) projects rs.
Proof.
  intros b Hp Hr F N.
  destruct (score_loop_batch rubric
              (js_or (opt_prop b (str "model")) default_model) projects F [] w)
    as (rs & w' & B & L).
  pose proof (batch_all_failed _ _ _ _ _ _ N B) as A.
  exists rs, w'. split; [|exact A].
  unfold score, try_catch. fold b. rewrite Hp, Hr. unfold bind. rewrite L.
  cbn [app]. unfold ret. now rewrite (all_failed_rank _ _ A).
Qed.

Lemma score_project_needs_key (rubric : list json) (mdl : value) (p : json)
  (w w1 : world) (r : project_result) :
  credential None = None -> score_project rubric mdl p w <> (Return r, w1).
Proof.
  intros C. unfold score_project, bind, lift, throw.
  destruct (get_prop p (str "url")) as [url|]; [|discriminate].
  destruct (fetch (page_request url) w) as [[page|] w2]; [|discriminate].
  destruct (negb (resp_ok page)); [discriminate|].
  destruct (resp_text page w2) as [[html|] w3]; [|discriminate].
  destruct (project_prompt _ _ _ _) as [prompt|]; [|discriminate].
  unfold geminiCall. rewrite C. discriminate.
Qed.

(** X12.  With no credential in the process configuration, a scoring
    request with non-empty arrays and no [null] project is still answered
    with results: one placeholder per project, in the order of the
    request.  Each page is fetched all the same, and a project whose page
    and prompt were had carries the configuration message as its error,
    the world being the one that reading the page left. *)
Theorem score_without_credential
  (body : value) (projects rubric : list json) (w : world) :
  let b := js_or body (V (JObj [])) in
  let mdl := js_or (opt_prop b (str "model")) default_model in
  credential None = None ->
  nonempty_array (opt_prop b (str "projects")) = Some projects ->
  nonempty_array (opt_prop b (str "rubric")) = Some rubric ->
  Forall (fun p => p <> JNull) projects ->
  (exists rs w',
     score body w = (Return (JsonResults rs), w') /\
     Forall2 (fun p r => exists e, r = failed_result p e) projects rs) /\
  (forall p w0 page w1 html w2 prompt,
     p <> JNull ->
     fetch (page_request (opt_prop (V p) (str "url"))) w0 = (Return page, w1) ->
     resp_ok page = true ->
     resp_text page w1 = (Return html, w2) ->
     project_prompt rubric (title_of (cheerio_load html) p)
       (opt_prop (V p) (str "url")) (describe (cheerio_load html))
     = Return prompt ->
     score_one rubric mdl p w0 = (Return (failed_result p missing_key), w2)).
Proof.
  intros b mdl C Hp Hr F. split.
  - apply (score_all_failed body projects rubric w Hp Hr F).
    intros p w0 r w1. now apply score_project_needs_key.
  - intros p w0 page w1 html w2 prompt H Fe O T Pr.
    apply score_one_failed; [assumption|].
    rewrite score_project_body by assumption. cbv zeta.
    rewrite Fe, O, T, Pr. unfold geminiCall. rewrite C. reflexivity.
Qed.

Lemma rubric_lines_null (rubric : list json) :
  In JNull rubric -> exists e, map_outcome rubric_line rubric = Throw e.
Proof.
  induction rubric as [|c l IH]; intros H; [destruct H|].
  cbn [map_outcome].
  destruct (rubric_line c) as [s|e] eqn:E; [|now exists e].
  destruct H as [->|H]; [discriminate E|].
  destruct (IH H) as (e & ->). now exists e.
Qed.

(** X13.  A rubric that holds [null] among its criteria fails every
    project while its prompt is built: a scoring request with non-empty
    arrays and no [null] project is answered with one placeholder per
    project, in the order of the request, all with the same error; each
    page is fetched and read, and the model is never asked. *)
Theorem null_criterion_fails_batch
  (body : value) (projects rubric : list json) (w : world) :
  let b := js_or body (V (JObj [])) in
  let mdl := js_or (opt_prop b (str "model")) default_model in
  In JNull rubric ->
  nonempty_array (opt_prop b (str "projects")) = Some projects ->
  nonempty_array (opt_prop b (str "rubric")) = Some rubric ->
  Forall (fun p => p <> JNull) projects ->
  exists e,
    map_outcome rubric_line rubric = Throw e /\
    (exists rs w',
       score body w = (Return (JsonResults rs), w') /\
       Forall2 (fun p r => exists e', r = failed_result p e') projects rs) /\
    (forall p w0 page w1 html w2,
       p <> JNull ->
       fetch (page_request (opt_prop (V p) (str "url"))) w0 = (Return page, w1) ->
       resp_ok page = true ->
       resp_text page w1 = (Return html, w2) ->
       score_one rubric mdl p w0 = (Return (failed_result p e), w2)).
Proof.
  intros b mdl I Hp Hr F.
  destruct (rubric_lines_null rubric I) as (e & E).
  exists e. split; [exact E|]. split.
  - apply (score_all_failed body projects rubric w Hp Hr F).
    intros p w0 r w1. unfold score_project, bind, lift, throw.
    destruct (get_prop p (str "url")) as [url|]; [|discriminate].
    destruct (fetch (page_request url) w0) as [[page|] w2]; [|discriminate].
    destruct (negb (resp_ok page)); [discriminate|].
    destruct (resp_text page w2) as [[html|] w3]; [|discriminate].
    unfold project_prompt. rewrite E. discriminate.
  - intros p w0 page w1 html w2 H Fe O T.
    apply score_one_failed; [assumption|].
    rewrite score_project_body by assumption. cbv zeta.
    rewrite Fe, O, T. unfold project_prompt. rewrite E. reflexivity.
Qed.

Lemma title_of_truthy (d : dom) (p : json) : truthy (title_of d p) = true.
Proof. unfold title_of. now repeat apply js_or_truthy. Qed.

Lemma score_project_fields (rubric : list json) (mdl : value) (p : json)
  (w w1 : world) (r : project_result) :
  score_project rubric mdl p w = (Return r, w1) ->
  r_url r = opt_prop (V p) (str "url") /\ truthy (r_name r) = true /\
  r_error r = None.
Proof.
  intros H.
  assert (N : p <> JNull) by (intros ->; discriminate H).
  rewrite score_project_body in H by assumption. cbv zeta in H.
  destruct (fetch _ w) as [[page|] w2]; [|discriminate].
  destruct (resp_ok page); [|discriminate].
  destruct (resp_text page w2) as [[html|] w3]; [|discriminate].
  destruct (project_prompt _ _ _ _) as [prompt|]; [|discriminate].
  destruct (geminiCall mdl prompt None w3) as [[raw|] w4]; [|discriminate].
  destruct (result_of_reply _ _ raw) as [r'|] eqn:E; [|discriminate].
  injection H as H _. subst r'.
  apply result_of_reply_no_error in E as (E1 & E2 & E3).
  rewrite E1, E2, E3. split; [reflexivity|]. split; [apply title_of_truthy|].
  reflexivity.
Qed.

(** X14.  In the answer to a scoring request with non-empty arrays and
    no [null] project, before ranking, the result at each position
    belongs to the project at that position: it carries that project's
    [url] as it came, a name that is never missing or empty (the page's
    heading, else the project's name, else [Untitled]), and either no
    error or total 0 with no items. *)
Theorem results_follow_projects
  (body : value) (projects rubric : list json) (w : world) :
  let b := js_or body (V (JObj [])) in
  nonempty_array (opt_prop b (str "projects")) = Some projects ->
  nonempty_array (opt_prop b (str "rubric")) = Some rubric ->
  Forall (fun p => p <> JNull) projects ->
  exists rs w',
    score body w = (Return (JsonResults (rank rs)), w') /\
    Forall2 (fun p r =>
               r_url r = opt_prop (V p) (str "url") /\
               truthy (r_name r) = true /\
               (r_error r = None \/
                (r_total r = 0%float /\ r_items r = [] /\ r_error r <> None)))
            projects rs.
Proof.
  intros b Hp Hr F.
  destruct (score_loop_batch rubric
              (js_or (opt_prop b (str "model")) default_model) projects F [] w)
    as (rs & w' & B & L).
  exists rs, w'. split.
  - unfold score, try_catch. fold b. rewrite Hp, Hr. unfold bind.
    rewrite L. reflexivity.
  - clear - B.
    induction B as [w|p ps w r w1 rs w2 H _ IH|p ps w e w1 rs w2 H _ IH].
    + constructor.
    + constructor; [|assumption].
      apply score_project_fields in H as (H1 & H2 & H3). auto.
    + constructor; [|assumption].
      split; [reflexivity|]. split.
      * unfold failed_result. cbn [r_name]. now apply js_or_truthy.
      * right. repeat split. discriminate.
Qed.

End ProjectFacts.

Lemma page_failure_placeholder_witness :
  let P := Lab.platform Lab.missing_pages (Some (str "key")) in
  let p := JObj [(str "name", JStr (str "A"));
                 (str "url", JStr (str "https://devpost.com/software/a"))] in
  let req := page_request (V (JStr (str "https://devpost.com/software/a"))) in
  (p <> JNull /\
   fetch (page_request (opt_prop (V p) (str "url"))) []
   = (Return Lab.not_found, [req]) /\
   resp_ok Lab.not_found = false) /\
  @score_one P [JObj []] default_model p []
  = (Return (failed_result p (Error (str "Fetch 404"))), [req]).
Proof.
  intros P p req.
  assert (N : p <> JNull) by discriminate.
  split; [split; [exact N | split; reflexivity]|].
  exact (proj1 (proj2 (@page_failure_placeholder P [JObj []] default_model p [] N)
                  Lab.not_found [req] eq_refl eq_refl)).
Defined.

Lemma score_without_credential_witness :
  let P := Lab.platform Demo.online None in
  let projects :=
    [JObj [(str "name", JStr (str "A")); (str "url", JStr (str "ftp://nowhere/a"))];
     JObj [(str "name", JStr (str "B"));
           (str "url", JStr (str "https://devpost.com/software/b"))]] in
  let rubric := [JObj [(str "name", JStr (str "Tech")); (str "weight", JNum 0.6%float)]] in
  (credential None = None /\
   nonempty_array (opt_prop demo_body (str "projects")) = Some projects /\
   nonempty_array (opt_prop demo_body (str "rubric")) = Some rubric /\
   Forall (fun p => p <> JNull) projects) /\
  exists rs w',
    @score P demo_body [] = (Return (JsonResults rs), w') /\
    Forall2 (fun p r => exists e, r = failed_result p e) projects rs.
Proof.
  intros P projects rubric.
  assert (F : Forall (fun p => p <> JNull) projects)
    by (repeat constructor; discriminate).
  split; [split; [reflexivity | split; [reflexivity | split; [reflexivity | exact F]]]|].
  exact (proj1 (@score_without_credential P demo_body projects rubric []
                  eq_refl eq_refl eq_refl F)).
Defined.

Lemma null_criterion_fails_batch_witness :
  let P := Demo.platform Demo.online in
  let projects :=
    [JObj [(str "name", JStr (str "B"));
           (str "url", JStr (str "https://devpost.com/software/b"))]] in
  let rubric := [JObj [(str "name", JStr (str "Tech"))]; JNull] in
  let body := V (JObj [(str "projects", JArr projects); (str "rubric", JArr rubric)]) in
  (In JNull rubric /\
   nonempty_array (opt_prop body (str "projects")) = Some projects /\
   nonempty_array (opt_prop body (str "rubric")) = Some rubric /\
   Forall (fun p => p <> JNull) projects) /\
  exists e,
    @map_outcome _ _ (@rubric_line P) rubric = Throw e /\
    exists rs w',
      @score P body [] = (Return (JsonResults rs), w') /\
      Forall2 (fun p r => exists e', r = failed_result p e') projects rs.
Proof.
  intros P projects rubric body.
  assert (I : In JNull rubric) by (right; now left).
  assert (F : Forall (fun p => p <> JNull) projects)
    by (repeat constructor; discriminate).
  split; [split; [exact I | split; [reflexivity | split; [reflexivity | exact F]]]|].
  destruct (@null_criterion_fails_batch P body projects rubric []
              I eq_refl eq_refl F) as (e & E & S & _).
  exists e. split; assumption.
Defined.

Lemma results_follow_projects_witness :
  let P := Demo.platform Demo.online in
  let projects :=
    [JObj [(str "name", JStr (str "A")); (str "url", JStr (str "ftp://nowhere/a"))];
     JObj [(str "name", JStr (str "B"));
           (str "url", JStr (str "https://devpost.com/software/b"))]] in
  let rubric := [JObj [(str "name", JStr (str "Tech")); (str "weight", JNum 0.6%float)]] in
  (nonempty_array (opt_prop demo_body (str "projects")) = Some projects /\
   nonempty_array (opt_prop demo_body (str "rubric")) = Some rubric /\
   Forall (fun p => p <> JNull) projects) /\
  exists rs w',
    @score P demo_body [] = (Return (JsonResults (rank rs)), w') /\
    Forall2 (fun p r =>
               r_url r = opt_prop (V p) (str "url") /\
               truthy (r_name r) = true /\
               (r_error r = None \/
                (r_total r = 0%float /\ r_items r = [] /\ r_error r <> None)))
            projects rs.
Proof.
  intros P projects rubric.
  assert (F : Forall (fun p => p <> JNull) projects)
    by (repeat constructor; discriminate).
  split; [split; [reflexivity | split; [reflexivity | exact F]]|].
  exact (@results_follow_projects P demo_body projects rubric []
           eq_refl eq_refl F).
Defined.

Section OriginFacts.
Context {P : Platform}.

(** X18.  A result that the [try] block builds comes from a project
    that is not [null], whose page was fetched with a success status and
    read, for which the model returned a text whose cut-out part parsed
    to a value other than [null].  Its name is the title found for the
    page, its items are that value's [items] when they are an array and
    none otherwise, and its total is the reported one when that is a
    number other than zero and NaN, and else the sum over the items. *)
Theorem scored_result_origin
  (rubric : list json) (mdl : value) (p : json) (w w' : world)
  (r : project_result) :
  score_project rubric mdl p w = (Return r, w') ->
  exists page w1 html w2 prompt raw payload,
    p <> JNull /\
    fetch (page_request (opt_prop (V p) (str "url"))) w = (Return page, w1) /\
    resp_ok page = true /\
    resp_text page w1 = (Return html, w2) /\
    project_prompt rubric (title_of (cheerio_load html) p)
      (opt_prop (V p) (str "url")) (describe (cheerio_load html))
    = Return prompt /\
    geminiCall mdl prompt None w2 = (Return raw, w') /\
    JSON_parse (extractJson raw) = Return payload /\
    payload <> JNull /\
    r_name r = title_of (cheerio_load html) p /\
    r_items r = array_or_empty (opt_prop (V payload) (str "items")) /\
    (if total_falsy (opt_prop (V payload) (str "total"))
     then reduce_points (r_items r) 0%float = Return (r_total r)
     else opt_prop (V payload) (str "total") = V (JNum (r_total r))).
Proof.
  intros H.
  assert (N : p <> JNull) by (intros ->; discriminate H).
  rewrite score_project_body in H by assumption. cbv zeta in H.
  destruct (fetch _ w) as [[page|] w1] eqn:F; [|discriminate].
  destruct (resp_ok page) eqn:O; [|discriminate].
  destruct (resp_text page w1) as [[html|] w2] eqn:T; [|discriminate].
  destruct (project_prompt _ _ _ _) as [prompt|] eqn:Pr; [|discriminate].
  destruct (geminiCall mdl prompt None w2) as [[raw|] w3] eqn:G; [|discriminate].
  destruct (result_of_reply _ _ raw) as [r'|] eqn:E; [|discriminate].
  injection H as H Hw. subst r' w3.
  unfold result_of_reply in E.
  destruct (JSON_parse (extractJson raw)) as [payload|] eqn:J; [|discriminate].
  cbn [obind] in E.
  assert (Np : payload <> JNull) by (intros ->; discriminate E).
  unfold score_payload in E.
  rewrite !get_prop_not_null in E by assumption. cbn [obind] in E. cbv zeta in E.
  exists page, w1, html, w2, prompt, raw, payload.
  do 8 (split; [first [assumption | reflexivity]|]).
  destruct (opt_prop (V payload) (str "total")) as [|[| |n| | |]];
    cbn [total_falsy];
    try (change (num_falsy 0%float) with true in E;
         destruct (reduce_points _ 0%float) as [t|] eqn:R; [|discriminate E];
         cbn [obind] in E; injection E as <-; cbn [r_name r_items r_total fst snd];
         repeat split; assumption).
  destruct (num_falsy n).
  - destruct (reduce_points _ 0%float) as [t|] eqn:R; [|discriminate E].
    cbn [obind] in E. injection E as <-. cbn [r_name r_items r_total fst snd].
    repeat split; assumption.
  - cbn [obind] in E. injection E as <-. repeat split.
Qed.

End OriginFacts.

Lemma scored_result_origin_witness :
  let P := Demo.platform Demo.online in
  let p := JObj [(str "name", JStr (str "B"));
                 (str "url", JStr (str "https://devpost.com/software/b"))] in
  let rubric := [JObj [(str "name", JStr (str "Tech")); (str "weight", JNum 0.6%float)]] in
  let r := {| r_name := V (JStr (str "Demo"));
              r_url := V (JStr (str "https://devpost.com/software/b"));
              r_items := []; r_total := 0%float; r_error := None |} in
  exists w',
    @score_project P rubric default_model p [] = (Return r, w') /\
    exists payload,
      payload <> JNull /\
      r_items r = array_or_empty (opt_prop (V payload) (str "items")) /\
      (if total_falsy (opt_prop (V payload) (str "total"))
       then @reduce_points P (r_items r) 0%float = Return (r_total r)
       else opt_prop (V payload) (str "total") = V (JNum (r_total r))).
Proof.
  intros P p rubric r.
  eexists. split; [vm_compute; reflexivity|].
  destruct (@scored_result_origin P rubric default_model p [] _ r eq_refl)
    as (page & w1 & html & w2 & prompt & raw & payload & _ & _ & _ & _ & _ & _
        & _ & H1 & _ & H2 & H3).
  exists payload. repeat split; assumption.
Defined.

(** * More on totals and ranking *)

Section PayloadFacts.
Context {P : Platform}.

Lemma reduce_points_throws (items : list json) :
  forall (s : number) (e : exn),
    reduce_points items s = Throw e <->
    exists l1 it l2,
      items = l1 ++ it :: l2 /\
      Forall (fun x => exists f, item_factors x = Return f) l1 /\
      item_factors it = Throw e.
Proof.
  induction items as [|it items IH]; intros s e; cbn [reduce_points].
  - split; [discriminate|]. intros (l1 & x & l2 & H & _). now destruct l1.
  - unfold item_points. destruct (item_factors it) as [f|e0] eqn:E; cbn [obind].
    + rewrite IH. split.
      * intros (l1 & x & l2 & -> & F & T). exists (it :: l1), x, l2.
        split; [reflexivity|]. split; [|assumption].
        constructor; [now exists f | assumption].
      * intros (l1 & x & l2 & H & F & T). destruct l1 as [|y l1].
        -- cbn [app] in H. injection H as -> ->. congruence.
        -- cbn [app] in H. injection H as -> ->. inversion F; subst.
           now exists l1, x, l2.
    + split.
      * intros H. injection H as ->. exists [], it, items.
        split; [reflexivity|]. split; [constructor | assumption].
      * intros (l1 & x & l2 & H & F & T). destruct l1 as [|y l1].
        -- cbn [app] in H. injection H as -> ->. congruence.
        -- cbn [app] in H. injection H as -> ->. inversion F as [|? ? (f & Hf) ?]; subst.
           congruence.
Qed.

(** X15.  When the decoded payload's total is a number other than zero
    and NaN, it is taken as it is and the items are not looked at: no
    item, however malformed, can fail the project.  Otherwise the total
    is recomputed, and this fails exactly when some item cannot be
    converted, with the failure of the first such item; a [null] item is
    one.  A payload that is [null] fails on reading its items. *)
Theorem score_payload_failures (payload : json) :
  (payload = JNull ->
   score_payload payload = Throw (TypeError (NullProperty (str "items")))) /\
  (payload <> JNull ->
   let items := array_or_empty (opt_prop (V payload) (str "items")) in
   let total_v := opt_prop (V payload) (str "total") in
   (total_falsy total_v = false ->
    exists n, total_v = V (JNum n) /\ score_payload payload = Return (items, n)) /\
   (total_falsy total_v = true ->
    forall e,
      score_payload payload = Throw e <->
      exists l1 it l2,
        items = l1 ++ it :: l2 /\
        Forall (fun x => exists f, item_factors x = Return f) l1 /\
        item_factors it = Throw e)) /\
  item_factors JNull = Throw (TypeError (NullProperty (str "weight"))) /\
  score_payload (JObj [(str "items", JArr [JNull]); (str "total", JNum 5%float)])
  = Return ([JNull], 5%float) /\
  score_payload (JObj [(str "items", JArr [JNull]); (str "total", JNum 0%float)])
  = Throw (TypeError (NullProperty (str "weight"))).
Proof.
  split; [intros ->; reflexivity|].
  split; [|split; [reflexivity | split; reflexivity]].
  intros N items total_v. unfold score_payload.
  rewrite !get_prop_not_null by assumption. cbn [obind]. cbv zeta.
  fold items. fold total_v. split.
  - intros T. destruct total_v as [|[]]; try discriminate T.
    cbn [total_falsy] in T. rewrite T. eexists. split; reflexivity.
  - intros T e.
    assert (E : num_falsy (match total_v with V (JNum n) => n | _ => 0%float end)
                = true)
      by (destruct total_v as [|[]]; try reflexivity; exact T).
    match goal with
    | |- context [if ?c then _ else _] =>
        replace c with true by (symmetry; exact E)
    end.
    rewrite <- (reduce_points_throws items 0%float e).
    destruct (reduce_points items 0%float); cbn [obind];
      split; intros H; first [discriminate H | injection H as ->; reflexivity].
Qed.

End PayloadFacts.

Lemma sorted_fixed (l : list project_result) :
  Forall no_nan_total l ->
  StronglySorted (fun a b => nkey (r_total b) <= nkey (r_total a)) l ->
  sort by_total l = l.
Proof.
  intros F S. induction S as [|x l S IH H]; cbn [sort]; [reflexivity|].
  inversion F as [|? ? Fx Fl]; subst. rewrite (IH Fl).
  destruct l as [|y l]; cbn [insert]; [reflexivity|].
  inversion Fl as [|? ? Fy _]; subst. inversion H as [|? ? Hy _]; subst.
  rewrite behind_by_total by assumption.
  destruct (Z.ltb_spec (nkey (r_total x)) (nkey (r_total y))); [lia | reflexivity].
Qed.

Lemma eqb_true_not_nan (x y : number) :
  (x =? y)%float = true -> is_nan x = false /\ is_nan y = false.
Proof.
  intros H. split.
  - destruct (is_nan x) eqn:N; [|reflexivity].
    rewrite eqb_spec, (nan_spec x N) in H. discriminate H.
  - destruct (is_nan y) eqn:N; [|reflexivity].
    rewrite (eqb_nan_r x y N) in H. discriminate H.
Qed.

Lemma sorted_transfer (l l' : list project_result) :
  Forall2 (fun r r' => nkey (r_total r') = nkey (r_total r)) l l' ->
  StronglySorted (fun a b => nkey (r_total b) <= nkey (r_total a)) l ->
  StronglySorted (fun a b => nkey (r_total b) <= nkey (r_total a)) l'.
Proof.
  induction 1 as [|x x' l l' Hx Hl IH]; intros S; [constructor|].
  inversion S as [|? ? S' F]; subst. constructor; [now apply IH|].
  clear - Hx Hl F. induction Hl as [|y y' l l' Hy _ IH]; [constructor|].
  inversion F; subst. constructor; [lia | now apply IH].
Qed.

(** X16.  When no total is NaN and the totals reach the client with the
    values the handler ranked (a zero of either sign counting as zero),
    the scoreboard shows the results in the order of the answer: the
    client's sort, with the same comparison function, leaves them as they
    are.  Ranking twice is ranking once. *)
Theorem scoreboard_keeps_rank (results received : list project_result) :
  Forall no_nan_total results ->
  Forall2 (fun r r' => (r_total r' =? r_total r)%float = true)
          (rank results) received ->
  scoreboard_order received = received /\
  rank (rank results) = rank results.
Proof.
  intros F T.
  assert (Fr : Forall no_nan_total (rank results))
    by (unfold rank; now rewrite <- (sort_perm by_total results)).
  pose proof (sort_sorted by_total (fun r => nkey (r_total r)) no_nan_total
                behind_by_total results F) as S.
  fold (rank results) in S.
  split; [|now apply sorted_fixed].
  apply sorted_fixed.
  - clear - T. induction T as [|r r' l l' H _ IH]; constructor; [|assumption].
    now apply eqb_true_not_nan in H.
  - refine (sorted_transfer (rank results) received _ S).
    clear - T. induction T as [|r r' l l' H _ IH]; constructor; [|assumption].
    pose proof (eqb_true_not_nan _ _ H) as [N1 N2].
    rewrite eqb_nkey in H by assumption. now apply Z.eqb_eq.
Qed.

Lemma scoreboard_keeps_rank_witness :
  let results := [result_with 40; result_with 90; result_with 70]%float in
  let received := [result_with 90; result_with 70; result_with 40]%float in
  (Forall no_nan_total results /\
   Forall2 (fun r r' => (r_total r' =? r_total r)%float = true)
           (rank results) received) /\
  scoreboard_order received = received.
Proof.
  intros results received.
  assert (F : Forall no_nan_total results) by (repeat constructor).
  assert (T : Forall2 (fun r r' => (r_total r' =? r_total r)%float = true)
                      (rank results) received)
    by (repeat constructor).
  split; [split; [exact F | exact T]|].
  exact (proj1 (scoreboard_keeps_rank results received F T)).
Defined.

(** * The description's white space *)

Lemma after_last_newline_split (s tl : jsstring) :
  after_last_newline s = Some tl ->
  exists pre, s = pre ++ tl /\ pre <> [] /\
              Forall (fun c => is_space c = true) pre.
Proof.
  revert tl; induction s as [|d s IH]; intros tl; cbn [after_last_newline];
    [discriminate|].
  destruct (is_space d) eqn:D; [|discriminate].
  destruct (after_last_newline s) as [tl'|]; cbn [orelse].
  - intros H. injection H as <-. destruct (IH tl' eq_refl) as (pre & -> & _ & F).
    exists (d :: pre). split; [reflexivity|]. split; [discriminate|].
    now constructor.
  - destruct (d =? 10)%N; [|discriminate]. intros H. injection H as <-.
    exists [d]. split; [reflexivity|]. split; [discriminate|].
    now repeat constructor.
Qed.

Lemma after_last_newline_last (s tl : jsstring) :
  after_last_newline s = Some tl -> after_last_newline tl = None.
Proof.
  revert tl; induction s as [|d s IH]; intros tl; cbn [after_last_newline];
    [discriminate|].
  destruct (is_space d); [|discriminate].
  destruct (after_last_newline s) as [tl'|] eqn:E; cbn [orelse].
  - intros H. injection H as <-. now apply IH.
  - destruct (d =? 10)%N; [|discriminate]. intros H. now injection H as <-.
Qed.

Lemma greedy_scan_newline (s : jsstring) :
  greedy_scan (rmatch false (Chr 10%N) Some) [] s
  = match after_last_newline s with
    | Some tl => Some {| rest := tl; caps := [] |}
    | None => None
    end.
Proof.
  induction s as [|d s IH]; cbn [greedy_scan after_last_newline].
  - reflexivity.
  - rewrite IH, rmatch_Chr. cbn [rest]. unfold chr_eq, advance. cbn [caps].
    rewrite (N.eqb_sym 10 d).
    destruct (is_space d) eqn:D.
    + destruct (after_last_newline s); [reflexivity|].
      destruct (d =? 10)%N; reflexivity.
    + destruct (N.eqb_spec d 10) as [->|]; [discriminate D | reflexivity].
Qed.

Lemma rmatch_trailing_space (s : jsstring) :
  rmatch false trailing_space_re Some {| rest := s; caps := [] |}
  = match s with
    | d :: s' =>
        if is_space d then
          match after_last_newline s' with
          | Some tl => Some {| rest := tl; caps := [] |}
          | None => None
          end
        else None
    | [] => None
    end.
Proof.
  unfold trailing_space_re, Plus.
  rewrite !rmatch_Seq, rmatch_Cls. cbn [rest].
  destruct s as [|d s]; [reflexivity|].
  destruct (is_space d); [|reflexivity].
  rewrite rmatch_Star. unfold advance. cbn [rest caps].
  rewrite star_greedy_space by reflexivity.
  apply greedy_scan_newline.
Qed.

Lemma replace_from_skip ic r (rep s : jsstring) (k : nat) :
  (k <= length s)%nat ->
  replace_from ic r rep s k = replace_from ic r rep (skipn k s) 0.
Proof.
  revert s; induction k as [|k IH]; intros s H; [reflexivity|].
  destruct s as [|c s]; [cbn [length] in H; lia|].
  cbn [replace_from skipn]. apply IH. cbn [length] in H. lia.
Qed.

(** The replacement, by recursion on the text. *)
Lemma replace_trailing_space (s : jsstring) :
  replace_all false trailing_space_re [10%N] s
  = match s with
    | [] => []
    | d :: s' =>
        if is_space d then
          match after_last_newline s' with
          | Some tl => 10%N :: replace_all false trailing_space_re [10%N] tl
          | None => d :: replace_all false trailing_space_re [10%N] s'
          end
        else d :: replace_all false trailing_space_re [10%N] s'
    end.
Proof.
  unfold replace_all. destruct s as [|d s]; [reflexivity|].
  cbn [replace_from]. rewrite rmatch_trailing_space.
  destruct (is_space d); [|reflexivity].
  destruct (after_last_newline s) as [tl|] eqn:E; [|reflexivity].
  cbn [rest]. apply after_last_newline_split in E as (pre & -> & _ & _).
  replace (length (d :: pre ++ tl) - length tl)%nat with (S (length pre))
    by (cbn [length]; rewrite length_app; lia).
  rewrite replace_from_skip by (rewrite length_app; lia).
  rewrite skipn_app, skipn_all, Nat.sub_diag. reflexivity.
Qed.

Lemma no_space_before_newline_cons (c : char) (l : jsstring) :
  (is_space c = true -> forall tl, l <> 10%N :: tl) ->
  no_space_before_newline l -> no_space_before_newline (c :: l).
Proof.
  intros H N. destruct l as [|d l]; [exact I|].
  cbn [no_space_before_newline]. split; [|exact N].
  intros S ->. now apply (H S l).
Qed.

Lemma replace_head (s : jsstring) :
  after_last_newline s = None ->
  forall tl, replace_all false trailing_space_re [10%N] s <> 10%N :: tl.
Proof.
  intros H tl. rewrite replace_trailing_space.
  destruct s as [|c s]; [discriminate|].
  cbn [after_last_newline] in H.
  destruct (is_space c) eqn:C.
  - destruct (after_last_newline s); [discriminate H|]. cbn [orelse] in H.
    destruct (N.eqb_spec c 10); [discriminate H|]. congruence.
  - intros E. injection E as -> _. discriminate C.
Qed.

Lemma replace_trailing_space_facts (n : nat) :
  forall s : jsstring,
    (length s <= n)%nat ->
    let out := replace_all false trailing_space_re [10%N] s in
    no_space_before_newline out /\
    filter (fun c => negb (is_space c)) out = filter (fun c => negb (is_space c)) s /\
    (length out <= length s)%nat.
Proof.
  induction n as [|n IH]; intros s L out; subst out.
  - destruct s; [|cbn [length] in L; lia]. repeat split. cbn. lia.
  - rewrite replace_trailing_space. destruct s as [|d s]; [repeat split; cbn; lia|].
    cbn [length] in L.
    destruct (is_space d) eqn:D.
    + destruct (after_last_newline s) as [tl|] eqn:E.
      * pose proof (after_last_newline_last _ _ E) as T.
        apply after_last_newline_split in E as (pre & -> & Np & F).
        rewrite length_app in L.
        destruct (IH tl ltac:(lia)) as (H1 & H2 & H3).
        split; [|split].
        -- apply no_space_before_newline_cons; [|assumption].
           intros _. now apply replace_head.
        -- cbn [filter]. rewrite D. cbn [negb].
           change (is_space 10%N) with true. cbn [negb].
           rewrite H2, filter_app.
           replace (filter (fun c => negb (is_space c)) pre) with (@nil char);
             [reflexivity|].
           clear - F. induction F as [|c l Hc _ IHF]; [reflexivity|].
           cbn [filter]. now rewrite Hc.
        -- cbn [length]. rewrite length_app. lia.
      * destruct (IH s ltac:(lia)) as (H1 & H2 & H3).
        split; [|split].
        -- apply no_space_before_newline_cons; [|assumption].
           intros _. now apply replace_head.
        -- cbn [filter]. now rewrite H2.
        -- cbn [length]. lia.
    + destruct (IH s ltac:(lia)) as (H1 & H2 & H3).
      split; [|split].
      * apply no_space_before_newline_cons; [|assumption].
        intros C. congruence.
      * cbn [filter]. now rewrite H2.
      * cbn [length]. lia.
Qed.

Lemma space_run_newline (s : jsstring) :
  forall (d : char) (tl : jsstring),
    is_space d = true -> after_last_newline s = Some tl ->
    no_space_before_newline (d :: s) -> False.
Proof.
  induction s as [|c s IH]; intros d tl D E H; [discriminate E|].
  cbn [after_last_newline] in E. destruct (is_space c) eqn:C; [|discriminate E].
  cbn [no_space_before_newline] in H. destruct H as [H1 H2].
  destruct (after_last_newline s) as [tl'|] eqn:E'.
  - exact (IH c tl' C eq_refl H2).
  - cbn [orelse] in E. destruct (N.eqb_spec c 10) as [->|]; [|discriminate E].
    exact (H1 D eq_refl).
Qed.

Lemma replace_unchanged (s : jsstring) :
  no_space_before_newline s ->
  replace_all false trailing_space_re [10%N] s = s.
Proof.
  induction s as [|d s IH]; intros H; rewrite replace_trailing_space;
    [reflexivity|].
  assert (Hs : no_space_before_newline s)
    by (destruct s; [exact I | exact (proj2 H)]).
  rewrite (IH Hs).
  destruct (is_space d) eqn:D; [|reflexivity].
  destruct (after_last_newline s) as [tl|] eqn:E; [|reflexivity].
  exfalso. exact (space_run_newline s d tl D E H).
Qed.

Section DescribeFacts.
Context {P : Platform}.

(** X17.  In the description that goes into the scoring prompt, white
    space never stands right before a line feed, whatever the page holds:
    no line ends in white space, and no two line feeds follow each other.
    The replacement drops white space only: the other code units are
    those of the four texts joined, in their order, and the result is
    never longer.  Applying the replacement again changes nothing. *)
Theorem describe_trailing_space (d : dom) :
  let joined :=
    join (str "
")
      [or_empty (dom_attr d (str "meta[name=" ++ q "description" ++ str "]")
                   (str "content"));
       dom_text d (str ".large");
       dom_text d (str ".main-content, .content, .gallery, article");
       dom_text d (str "body")] in
  no_space_before_newline (describe d) /\
  filter (fun c => negb (is_space c)) (describe d)
  = filter (fun c => negb (is_space c)) joined /\
  (length (describe d) <= length joined)%nat /\
  replace_all false trailing_space_re (str "
") (describe d) = describe d.
Proof.
  intros joined.
  destruct (replace_trailing_space_facts (length joined) joined (le_n _))
    as (H1 & H2 & H3).
  split; [exact H1|]. split; [exact H2|]. split; [exact H3|].
  apply replace_unchanged. exact H1.
Qed.

End DescribeFacts.

(** * The ranking is the only stable descending order *)

Section StableUnique.
Context {A : Type}.
Variable k : A -> Z.

Lemma stable_sorted_unique (l1 : list A) :
  forall l2 : list A,
    Permutation l1 l2 ->
    StronglySorted (fun a b => k b <= k a) l1 ->
    StronglySorted (fun a b => k b <= k a) l2 ->
    (forall c, filter (fun a => k a =? c) l1 = filter (fun a => k a =? c) l2) ->
    l1 = l2.
Proof.
  induction l1 as [|x l1 IH]; intros l2 Hp S1 S2 F.
  - now apply Permutation_nil in Hp.
  - destruct l2 as [|y l2]; [symmetry in Hp; now apply Permutation_nil in Hp|].
    inversion S1 as [|? ? S1' H1]; inversion S2 as [|? ? S2' H2]; subst.
    assert (Kxy : k x <= k y).
    { assert (I : In x (y :: l2))
        by (eapply Permutation_in; [exact Hp | now left]).
      destruct I as [->|I]; [lia|]. rewrite Forall_forall in H2. now apply H2. }
    assert (Kyx : k y <= k x).
    { assert (I : In y (x :: l1))
        by (eapply Permutation_in; [symmetry; exact Hp | now left]).
      destruct I as [->|I]; [lia|]. rewrite Forall_forall in H1. now apply H1. }
    assert (E : x = y).
    { specialize (F (k x)). cbn [filter] in F.
      rewrite Z.eqb_refl in F.
      replace (k y =? k x) with true in F by (symmetry; apply Z.eqb_eq; lia).
      congruence. }
    subst y. f_equal. apply IH; try assumption.
    + now apply Permutation_cons_inv in Hp.
    + intros c. specialize (F c). cbn [filter] in F.
      destruct (k x =? c); congruence.
Qed.

End StableUnique.

(** X19.  When no total is NaN, the ranking the handler computes is the
    only one a stable sort can give: any rearrangement of the results
    that is in descending order of total and keeps the results of each
    total in their order of arrival is the handler's ranking, whatever the
    sorting method. *)
Theorem rank_unique (results l : list project_result) :
  Forall no_nan_total results ->
  Permutation results l ->
  StronglySorted (fun a b => (r_total b <=? r_total a)%float = true) l ->
  (forall t : number,
     filter (fun r => (r_total r =? t)%float) l
     = filter (fun r => (r_total r =? t)%float) results) ->
  l = rank results.
Proof.
  intros F Hp S St.
  assert (Fl : Forall no_nan_total l) by now rewrite <- Hp.
  assert (Fr : Forall no_nan_total (rank results))
    by (unfold rank; now rewrite <- (sort_perm by_total results)).
  unfold rank.
  apply (stable_sorted_unique (fun r => nkey (r_total r))).
  - rewrite <- Hp. apply sort_perm.
  - clear - S Fl. induction S as [|x l S IH H]; [constructor|].
    inversion Fl as [|? ? Fx Fl']; subst. constructor; [now apply IH|].
    rewrite Forall_forall in *. intros y Hy.
    specialize (H y Hy). rewrite leb_nkey in H; [now apply Z.leb_le | now apply Fl' | exact Fx].
  - exact (sort_sorted by_total (fun r => nkey (r_total r)) no_nan_total
             behind_by_total results F).
  - intros c.
    rewrite (sort_stable by_total (fun r => nkey (r_total r)) no_nan_total
               behind_by_total c results F).
    (* the results whose scaled total is [c], in [l] and in [results] *)
    assert (G : forall m : list project_result,
              Forall no_nan_total m ->
              forall x, In x (filter (fun r => nkey (r_total r) =? c) m) ->
                        nkey (r_total x) = c).
    { intros m _ x Hx. apply filter_In in Hx as [_ Hx]. now apply Z.eqb_eq. }
    destruct (filter (fun r => nkey (r_total r) =? c) results) as [|r0 rest] eqn:E.
    + destruct (filter (fun r => nkey (r_total r) =? c) l) as [|r1 rest1] eqn:E1;
        [reflexivity|].
      exfalso.
      assert (I : In r1 (filter (fun r => nkey (r_total r) =? c) results)).
      { apply filter_In.
        assert (I1 : In r1 (filter (fun r => nkey (r_total r) =? c) l))
          by (rewrite E1; now left).
        apply filter_In in I1 as [I1 I2]. split; [|exact I2].
        eapply Permutation_in; [symmetry; exact Hp | exact I1]. }
      rewrite E in I. destruct I.
    + assert (I0 : In r0 (filter (fun r => nkey (r_total r) =? c) results))
        by (rewrite E; now left).
      apply filter_In in I0 as [I0 K0]. apply Z.eqb_eq in K0.
      rewrite Forall_forall in F, Fl.
      pose proof (F r0 I0) as N0. rewrite <- E.
      rewrite (filter_ext_in (fun r => nkey (r_total r) =? c)
                 (fun r => (r_total r =? r_total r0)%float) l).
      * rewrite (filter_ext_in (fun r => nkey (r_total r) =? c)
                   (fun r => (r_total r =? r_total r0)%float) results).
        -- apply St.
        -- intros r Hr. rewrite <- K0. symmetry.
           apply eqb_nkey; [now apply F | exact N0].
      * intros r Hr. rewrite <- K0. symmetry.
        apply eqb_nkey; [now apply Fl | exact N0].
Qed.

Lemma rank_unique_witness :
  let a := {| r_name := V (JStr (str "A")); r_url := Undefined; r_items := [];
              r_total := 70%float; r_error := None |} in
  let b := {| r_name := V (JStr (str "B")); r_url := Undefined; r_items := [];
              r_total := 90%float; r_error := None |} in
  let c := {| r_name := V (JStr (str "C")); r_url := Undefined; r_items := [];
              r_total := 70%float; r_error := None |} in
  (Forall no_nan_total [a; b; c] /\
   Permutation [a; b; c] [b; a; c] /\
   StronglySorted (fun x y => (r_total y <=? r_total x)%float = true) [b; a; c]) /\
  [b; a; c] = rank [a; b; c].
Proof.
  intros a b c.
  assert (F : Forall no_nan_total [a; b; c]) by (repeat constructor).
  assert (Hp : Permutation [a; b; c] [b; a; c]) by apply perm_swap.
  assert (S : StronglySorted
                (fun x y => (r_total y <=? r_total x)%float = true) [b; a; c])
    by (repeat constructor).
  split; [split; [exact F | split; [exact Hp | exact S]]|].
  apply (rank_unique [a; b; c] [b; a; c] F Hp S).
  intros t. cbn [filter a b c r_total].
  destruct (70 =? t)%float eqn:E1; destruct (90 =? t)%float eqn:E2;
    try reflexivity.
  exfalso.
  destruct (eqb_true_not_nan _ _ E1) as [N1 Nt].
  destruct (eqb_true_not_nan _ _ E2) as [N2 _].
  rewrite eqb_nkey in E1, E2 by assumption.
  apply Z.eqb_eq in E1, E2.
  assert (D : nkey 70%float <> nkey 90%float) by (vm_compute; discriminate).
  congruence.
Defined.
